(** * Writer1: the import pipeline of [importer.js] and the plain-text
      projection of [editor.js], embedded in Rocq.

    JavaScript strings are sequences of UTF-16 code units, so a string is a
    [list N] of code units and [length] is the JS [.length].  The regular
    expressions of the program are values of a small regex syntax, run by
    a backtracking matcher with the priority order of the JS engine. *)

From Stdlib Require Import List NArith Arith Lia Bool Ascii.
From Stdlib Require String DecimalString.
Import ListNotations String.StringSyntax Ascii.AsciiSyntax.
Delimit Scope string_scope with string.
Delimit Scope char_scope with char.

Set Implicit Arguments.

(** ** JavaScript strings *)

Module Str.

Definition jsstr := list N.

(** An ASCII literal of the source, as code units. *)
Definition lit (s : String.string) : jsstr :=
  map N_of_ascii (String.list_ascii_of_string s).
Arguments lit s%_string.

(** The code unit of an ASCII character of the source. *)
Definition u (a : Ascii.ascii) : N := N_of_ascii a.
Arguments u a%_char.

Definition eqb (a b : jsstr) : bool :=
  if list_eq_dec N.eq_dec a b then true else false.

(** Truthiness of a string: only the empty string is falsy. *)
Definition truthy (s : jsstr) : bool :=
  match s with [] => false | _ :: _ => true end.

(** [a || b] on strings. *)
Definition or_else (a b : jsstr) : jsstr := if truthy a then a else b.

(** WhiteSpace and LineTerminator code points: the set of [\s] and of
    [String.prototype.trim]. *)
Definition isWhite (c : N) : bool :=
  ((9 <=? c) && (c <=? 13) || (c =? 32) || (c =? 160) || (c =? 5760)
   || (8192 <=? c) && (c <=? 8202) || (c =? 8232) || (c =? 8233)
   || (c =? 8239) || (c =? 8287) || (c =? 12288) || (c =? 65279))%N.

(** Word characters of [\b]: [A-Za-z0-9_]. *)
Definition isWord (c : N) : bool :=
  ((65 <=? c) && (c <=? 90) || (97 <=? c) && (c <=? 122)
   || (48 <=? c) && (c <=? 57) || (c =? 95))%N.

Definition isAsciiLower (c : N) : bool := ((97 <=? c) && (c <=? 122))%N.
Definition isAsciiUpper (c : N) : bool := ((65 <=? c) && (c <=? 90))%N.

Definition upcase (c : N) : N := if isAsciiLower c then (c - 32)%N else c.
Definition downcase (c : N) : N := if isAsciiUpper c then (c + 32)%N else c.
Definition swapcase (c : N) : N :=
  if isAsciiLower c then (c - 32)%N
  else if isAsciiUpper c then (c + 32)%N else c.

Definition isAscii (s : jsstr) : Prop := Forall (fun c => (c < 128)%N) s.

(** [String.prototype.trim], as trimStart followed by trimEnd. *)
Fixpoint trimStart (s : jsstr) : jsstr :=
  match s with
  | [] => []
  | x :: s' => if isWhite x then trimStart s' else s
  end.

Fixpoint trimEnd (s : jsstr) : jsstr :=
  match s with
  | [] => []
  | x :: s' =>
      match trimEnd s' with
      | [] => if isWhite x then [] else [x]
      | r => x :: r
      end
  end.

Definition trim (s : jsstr) : jsstr := trimEnd (trimStart s).

(** [Array.prototype.join]. *)
Fixpoint join (sep : jsstr) (l : list jsstr) : jsstr :=
  match l with
  | [] => []
  | [a] => a
  | a :: l' => a ++ sep ++ join sep l'
  end.

(** [s.split(c)] for a separator of one code unit. *)
Fixpoint split_unit_go (c : N) (cur : jsstr) (s : jsstr) : list jsstr :=
  match s with
  | [] => [cur]
  | x :: s' =>
      if (x =? c)%N then cur :: split_unit_go c [] s'
      else split_unit_go c (cur ++ [x]) s'
  end.

Definition split_unit (c : N) (s : jsstr) : list jsstr := split_unit_go c [] s.

Fixpoint starts_with (p s : jsstr) : bool :=
  match p, s with
  | [], _ => true
  | a :: p', b :: s' => (a =? b)%N && starts_with p' s'
  | _ :: _, [] => false
  end.

(** [String.prototype.includes]. *)
Fixpoint includes (s p : jsstr) : bool :=
  starts_with p s || match s with [] => false | _ :: s' => includes s' p end.

(** Template literal [`${n}`] for a non-negative integer. *)
Definition of_nat (n : nat) : jsstr := lit (DecimalString.NilZero.string_of_uint (Nat.to_uint n)).

(** The case conversions of the host.  [toUpperCase] and [toLowerCase]
    follow the Unicode tables of the engine, which are not part of the
    program: they are an interface, and only their behaviour on ASCII
    text is assumed, where needed. *)
Class Host := {
  toUpperCase : jsstr -> jsstr;
  toLowerCase : jsstr -> jsstr
}.

Class HostAscii (h : Host) : Prop := {
  toUpperCase_ascii : forall s, isAscii s -> toUpperCase s = map upcase s;
  toLowerCase_ascii : forall s, isAscii s -> toLowerCase s = map downcase s
}.

(** A host that knows ASCII letters only. *)
Definition asciiHost : Host :=
  {| toUpperCase := map upcase; toLowerCase := map downcase |}.

End Str.

(** ** Regular expressions *)

Module Regex.
Import Str.

(** Members of a character class. *)
Inductive item :=
| Ch (c : N)            (* one code unit *)
| Rng (lo hi : N)       (* [lo-hi] *)
| White.                (* \s *)

Record cset := { negated : bool; items : list item }.

Definition cs (l : list item) : cset := {| negated := false; items := l |}.
Definition ncs (l : list item) : cset := {| negated := true; items := l |}.

(** The syntax covers what the program's patterns use: every quantifier
    of the source applies to a single character or class. Capture groups
    are transparent for [test], [replace] with a constant and [split]
    without groups. *)
Inductive re :=
| Eps
| One (c : cset)
| Seq (a b : re)
| Alt (a b : re)
| Opt (c : cset)              (* c?     greedy *)
| Many (min : nat) (c : cset) (* c{min,} greedy; * is {0,}, + is {1,} *)
| Bol                         (* ^ without the m flag *)
| Eol                         (* $ without the m flag *)
| WordB.                      (* \b *)

Record regexp := { pattern : re; ignoreCase : bool }.

Definition in_rng (lo hi x : N) : bool := ((lo <=? x) && (x <=? hi))%N.

(** Without the u flag, ignoreCase compares Canonicalize(ch): the upper
    case of one code unit, except that a unit >= 128 never folds to one
    below 128.  For the ASCII members of the patterns this is ASCII case
    folding; their other members (the dashes and the Unicode spaces of \s)
    have no case variants. *)
Definition item_has (ic : bool) (x : N) (i : item) : bool :=
  match i with
  | Ch c => if ic then (upcase c =? upcase x)%N else (c =? x)%N
  | Rng lo hi => in_rng lo hi x || ic && in_rng lo hi (swapcase x)
  | White => isWhite x
  end.

Definition has (ic : bool) (c : cset) (x : N) : bool :=
  xorb (negated c) (existsb (item_has ic x) (items c)).

Definition wordp (c : option N) : bool :=
  match c with Some x => isWord x | None => false end.

Section Matcher.
Variable ic : bool.
Variable A : Type.

(** The continuation receives the last code unit before the current
    position ([None] at index 0) and the rest of the input. *)
Definition cont := option N -> jsstr -> option A.

Fixpoint many (p : N -> bool) (min : nat) (prev : option N) (s : jsstr)
         (k : cont) : option A :=
  match s with
  | x :: s' =>
      if p x then
        match many p (Nat.pred min) (Some x) s' k with
        | Some a => Some a
        | None => match min with O => k prev s | S _ => None end
        end
      else match min with O => k prev s | S _ => None end
  | [] => match min with O => k prev s | S _ => None end
  end.

Definition one (p : N -> bool) (s : jsstr) (k : cont) : option A :=
  match s with
  | x :: s' => if p x then k (Some x) s' else None
  | [] => None
  end.

Fixpoint run (r : re) (prev : option N) (s : jsstr) (k : cont) : option A :=
  match r with
  | Eps => k prev s
  | One c => one (has ic c) s k
  | Seq a b => run a prev s (fun p' s' => run b p' s' k)
  | Alt a b =>
      match run a prev s k with
      | Some x => Some x
      | None => run b prev s k
      end
  | Opt c =>
      match one (has ic c) s k with
      | Some x => Some x
      | None => k prev s
      end
  | Many n c => many (has ic c) n prev s k
  | Bol => match prev with None => k prev s | Some _ => None end
  | Eol => match s with [] => k prev s | _ :: _ => None end
  | WordB => if xorb (wordp prev) (wordp (hd_error s)) then k prev s else None
  end.
End Matcher.

(** A match attempt at the current position: the number of code units
    taken by the first match in priority order. *)
Definition exec (r : regexp) (prev : option N) (s : jsstr) : option nat :=
  run (ignoreCase r) (pattern r) prev s
      (fun _ rest => Some (length s - length rest)).

(** [RegExp.prototype.test] for a regexp without the g flag: is there a
    match at some start index, tried from index 0 on. *)
Fixpoint search (r : regexp) (prev : option N) (s : jsstr) : bool :=
  match exec r prev s with
  | Some _ => true
  | None => match s with [] => false | x :: s' => search r (Some x) s' end
  end.

Definition test (r : regexp) (s : jsstr) : bool := search r None s.

(** [s.replace(r, rep)] for a regexp with the g flag and a replacement
    without [$] patterns.  [skip] counts the code units of the current
    match that are still to be dropped. *)
Fixpoint replace_go (r : regexp) (rep : jsstr) (prev : option N) (skip : nat)
         (s : jsstr) : jsstr :=
  match s with
  | [] =>
      match skip, exec r prev [] with
      | O, Some _ => rep
      | _, _ => []
      end
  | x :: s' =>
      match skip with
      | S k => replace_go r rep (Some x) k s'
      | O =>
          match exec r prev s with
          | Some (S n) => rep ++ replace_go r rep (Some x) n s'
          | Some O => rep ++ x :: replace_go r rep (Some x) 0 s'
          | None => x :: replace_go r rep (Some x) 0 s'
          end
      end
  end.

Definition replace_all (r : regexp) (rep : jsstr) (s : jsstr) : jsstr :=
  replace_go r rep None 0 s.

(** [s.replace(r, rep)] for a regexp without the g flag: the first match
    only. *)
Fixpoint replace_first_go (r : regexp) (rep : jsstr) (prev : option N)
         (s : jsstr) : jsstr :=
  match exec r prev s with
  | Some n => rep ++ skipn n s
  | None =>
      match s with
      | [] => []
      | x :: s' => x :: replace_first_go r rep (Some x) s'
      end
  end.

Definition replace_first (r : regexp) (rep : jsstr) (s : jsstr) : jsstr :=
  replace_first_go r rep None s.

(** [s.split(r)] for a regexp without capture groups: a match attempt at
    every index q of a non-empty input; a match that ends where the
    current piece starts is skipped, any other closes the piece. *)
Fixpoint split_go (r : regexp) (prev : option N) (skip : nat) (cur : jsstr)
         (s : jsstr) : list jsstr :=
  match s with
  | [] => [cur]
  | x :: s' =>
      match skip with
      | S k => split_go r (Some x) k cur s'
      | O =>
          match exec r prev s with
          | Some (S n) => cur :: split_go r (Some x) n [] s'
          | Some O =>
              match cur with
              | [] => split_go r (Some x) 0 [x] s'
              | _ :: _ => cur :: split_go r (Some x) 0 [x] s'
              end
          | None => split_go r (Some x) 0 (cur ++ [x]) s'
          end
      end
  end.

Definition split (r : regexp) (s : jsstr) : list jsstr :=
  match s with
  | [] => match exec r None [] with Some _ => [] | None => [[]] end
  | _ :: _ => split_go r None 0 [] s
  end.

(** Pattern builders. *)
Definition chr (c : N) : re := One (cs [Ch c]).

Fixpoint word (s : jsstr) : re :=
  match s with
  | [] => Eps
  | [c] => chr c
  | c :: s' => Seq (chr c) (word s')
  end.

Fixpoint alts (l : list re) : re :=
  match l with
  | [] => Eps
  | [a] => a
  | a :: l' => Alt a (alts l')
  end.

Fixpoint seqs (l : list re) : re :=
  match l with
  | [] => Eps
  | [a] => a
  | a :: l' => Seq a (seqs l')
  end.

End Regex.

(** ** editor.js: Tiptap documents and the plain-text projection *)

Module Editor.
Import Str Regex.

(** A node of the Tiptap JSON tree: its [type], and the optional [text]
    and [content] properties (marks and attributes play no part here). *)
#[warnings="-register-all"]
Inductive node :=
| Node (type : jsstr) (text : option jsstr) (content : option (list node)).

Definition ntype (n : node) : jsstr := let 'Node t _ _ := n in t.
Definition ntext (n : node) : option jsstr := let 'Node _ t _ := n in t.
Definition ncontent (n : node) : option (list node) := let 'Node _ _ c := n in c.

Definition LF : N := 10.
Definition CR : N := 13.

(** /\n{3,}/g *)
Definition NL3 : regexp := {| pattern := Many 3 (cs [Ch LF]); ignoreCase := false |}.

Definition push_if (b : bool) (x : jsstr) (lines : list jsstr) : list jsstr :=
  if b then lines ++ [x] else lines.

(** [walk] of [editorToPlainText]; [lines] is the array it pushes to.
    Nodes are objects here, so the guard [if (!node) return] never fires. *)
Fixpoint walk (n : node) (lines : list jsstr) : list jsstr :=
  match n with
  | Node type text content =>
      if eqb type (lit "text") then
        lines ++ [or_else (match text with Some t => t | None => [] end) []]
      else
        let lines := push_if (eqb type (lit "paragraph")) [LF] lines in
        let lines := push_if (eqb type (lit "hardBreak")) [LF] lines in
        let each :=
          fix each (l : list node) (lines : list jsstr) : list jsstr :=
            match l with
            | [] => lines
            | child :: l' => each l' (walk child lines)
            end in
        let lines :=
          match content with
          | Some l => each l lines
          | None => lines
          end in
        let lines :=
          push_if (eqb type (lit "heading") || eqb type (lit "blockquote"))
                  [LF] lines in
        push_if (eqb type (lit "listItem")) [LF] lines
  end.

Definition editorToPlainText (jsonDoc : node) : jsstr :=
  let lines := walk jsonDoc [] in
  trim (replace_all NL3 [LF; LF] (join [] lines)).

End Editor.

(** ** importer.js *)

Module Importer.
Import Str Regex Editor.

(** [\s:\-–—]* *)
Definition sep_tail : re :=
  Many 0 (cs [White; Ch (u ":"); Ch (u "-"); Ch 8211; Ch 8212]).

Definition digits : re := Many 1 (cs [Rng (u "0") (u "9")]).
Definition roman : re := Many 1 (cs (map Ch (lit "ivxlcdm"))).
Definition literals (l : list String.string) : list re :=
  map (fun w => word (lit w)) l.

(** /^(chapter|chap\.?)\s+([0-9]+|[ivxlcdm]+|one|...|twelve)\b[\s:\-–—]*/i *)
Definition CHAPTER_RE : regexp :=
  {| pattern :=
       seqs [Bol;
             Alt (word (lit "chapter")) (Seq (word (lit "chap")) (Opt (cs [Ch (u ".")])));
             Many 1 (cs [White]);
             alts (digits :: roman ::
                   literals ["one"; "two"; "three"; "four"; "five"; "six"; "seven";
                          "eight"; "nine"; "ten"; "eleven"; "twelve"]%string);
             WordB; sep_tail];
     ignoreCase := true |}.

(** /^(part)\s+([0-9]+|[ivxlcdm]+|one|...|ten)\b[\s:\-–—]*/i *)
Definition PART_RE : regexp :=
  {| pattern :=
       seqs [Bol; word (lit "part"); Many 1 (cs [White]);
             alts (digits :: roman ::
                   literals ["one"; "two"; "three"; "four"; "five"; "six"; "seven";
                          "eight"; "nine"; "ten"]%string);
             WordB; sep_tail];
     ignoreCase := true |}.

(** /^(prologue|epilogue|preface|foreword|afterword)\b[\s:\-–—]*/i *)
Definition FRONT_RE : regexp :=
  {| pattern :=
       seqs [Bol;
             alts (literals ["prologue"; "epilogue"; "preface"; "foreword";
                          "afterword"]%string);
             WordB; sep_tail];
     ignoreCase := true |}.

(** /\s+/g *)
Definition WS_RUN : regexp := {| pattern := Many 1 (cs [White]); ignoreCase := false |}.
(** /[^A-Z]/g *)
Definition NOT_AZ : regexp :=
  {| pattern := One (ncs [Rng (u "A") (u "Z")]); ignoreCase := false |}.
(** /heading\s*([12])/ *)
Definition HEADING12 : regexp :=
  {| pattern := seqs [word (lit "heading"); Many 0 (cs [White]);
                      One (cs [Ch (u "1"); Ch (u "2")])];
     ignoreCase := false |}.
(** /heading\s*1/ *)
Definition HEADING1 : regexp :=
  {| pattern := seqs [word (lit "heading"); Many 0 (cs [White]); chr (u "1")];
     ignoreCase := false |}.
(** /[.!?]$/ *)
Definition END_PUNCT : regexp :=
  {| pattern := Seq (One (cs [Ch (u "."); Ch (u "!"); Ch (u "?")])) Eol;
     ignoreCase := false |}.
(** /\.[^.]+$/ *)
Definition EXTENSION : regexp :=
  {| pattern := seqs [chr (u "."); Many 1 (ncs [Ch (u ".")]); Eol];
     ignoreCase := false |}.
(** /\r\n/g, /\r/g, /\n{2,}/ *)
Definition CRLF : regexp := {| pattern := Seq (chr CR) (chr LF); ignoreCase := false |}.
Definition CR_RE : regexp := {| pattern := chr CR; ignoreCase := false |}.
Definition NL2 : regexp := {| pattern := Many 2 (cs [Ch LF]); ignoreCase := false |}.

Definition clean (str : jsstr) : jsstr :=
  trim (replace_all WS_RUN (lit " ") (or_else str [])).

Section WithHost.
Context {host : Host}.

Definition isAllCapsShort (s : jsstr) : bool :=
  let t := clean s in
  if negb (truthy t) then false
  else if 44 <? length t then false
  else
    (* allow numbers/roman numerals *)
    let letters := replace_all NOT_AZ [] t in
    (6 <=? length letters) && eqb t (toUpperCase t).

(** The constant [isStyleHeading] of [isHeadingLike]:
    Word heading styles: Heading1, Heading2, heading 1, etc *)
Definition isStyleHeading (style : jsstr) : bool :=
  let s := toLowerCase (or_else style []) in
  test HEADING12 s || eqb s (lit "title").

Definition isHeadingLike (text style : jsstr) : bool :=
  let t := clean text in
  if negb (truthy t) then false
  else
    isStyleHeading style || test CHAPTER_RE t || test PART_RE t
    || test FRONT_RE t || isAllCapsShort t.

End WithHost.

Definition filenameToTitle (name : jsstr) : jsstr :=
  let base := replace_first EXTENSION [] (or_else name (lit "Untitled Novel")) in
  or_else (clean base) (lit "Untitled Novel").

Definition textNode (t : jsstr) : node := Node (lit "text") (Some t) None.
Definition hardBreak : node := Node (lit "hardBreak") None None.
Definition emptyParagraph : node := Node (lit "paragraph") None None.

(** The loop of [paragraphToTiptap] over [lines], index by index. *)
Fixpoint lines_content (lines : list jsstr) : list node :=
  match lines with
  | [] => []
  | t :: rest =>
      (if truthy t then [textNode t] else [])
      ++ (match rest with [] => [] | _ :: _ => [hardBreak] end)
      ++ lines_content rest
  end.

Definition paragraphToTiptap (par : jsstr) : node :=
  let lines := split_unit LF (or_else par []) in
  let content := lines_content lines in
  Node (lit "paragraph") None
       (Some (match content with [] => [textNode []] | _ :: _ => content end)).

Definition textToDoc (text : jsstr) : node :=
  let raw := replace_all CR_RE [LF] (replace_all CRLF [LF] (or_else text [])) in
  let blocks := filter truthy (map trim (split NL2 raw)) in
  let content :=
    match blocks with
    | [] => [emptyParagraph]
    | _ :: _ => map paragraphToTiptap blocks
    end in
  Node (lit "doc") None (Some content).

(** A paragraph as the decoders produce it. *)
Record paragraph := { text : jsstr; style : jsstr }.

(** The chapter under construction ([current]) and a finished chapter. *)
Record draft := { title : jsstr; body : list jsstr }.
Record chapter := { ctitle : jsstr; doc : node }.
Record result := { novelTitle : jsstr; chapters : list chapter }.

Definition chapterN (n : nat) : jsstr := lit "Chapter " ++ of_nat n.

(** The first step of [splitFromParagraphs]: [String(p.text || "")],
    [p.style || ""], and the filter on [clean(p.text).length]. *)
Definition usable (paragraphs : list paragraph) : list paragraph :=
  filter (fun p => negb (length (clean (text p)) =? 0))
         (map (fun p => {| text := or_else (text p) []; style := or_else (style p) [] |})
              paragraphs).

Section WithHost.
Context {host : Host}.

(** The test of the title detection on the first paragraph. *)
Definition isTitle (first : paragraph) : bool :=
  let t := clean (text first) in
  truthy t && (length t <=? 80) && negb (test CHAPTER_RE t)
  && negb (test PART_RE t) && negb (test FRONT_RE t)
  && (eqb (toLowerCase (or_else (style first) [])) (lit "title")
      || test HEADING1 (toLowerCase (or_else (style first) []))).

(** [while (paras.length && !clean(paras[0].text)) paras.shift()] *)
Fixpoint dropSpacers (paras : list paragraph) : list paragraph :=
  match paras with
  | [] => []
  | p :: rest => if negb (truthy (clean (text p))) then dropSpacers rest else paras
  end.

(** Title detection: the novel title and the paragraphs left. *)
Definition detectTitle (paras : list paragraph) (fallbackTitle : jsstr)
  : jsstr * list paragraph :=
  let novelTitle := or_else fallbackTitle (lit "Untitled Novel") in
  match paras with
  | [] => (novelTitle, paras)
  | first :: rest =>
      if isTitle first then (clean (text first), dropSpacers rest)
      else (novelTitle, paras)
  end.

(** The variables [chapters] and [current] of the main loop. *)
Record state := { done : list chapter; current : option draft }.

Definition pushCurrent (st : state) : list chapter :=
  match current st with
  | None => done st
  | Some cur =>
      let body := trim (join [LF; LF] (body cur)) in
      done st ++ [{| ctitle := or_else (clean (title cur))
                                       (chapterN (length (done st) + 1));
                     doc := textToDoc body |}]
  end.

Definition isSubtitle (cur : draft) (t : jsstr) : bool :=
  let curT := clean (title cur) in
  let nextT := clean t in
  (length (body cur) =? 0) && negb (length nextT =? 0) && (length nextT <=? 60)
  && negb (test END_PUNCT nextT)
  && (test CHAPTER_RE curT || test PART_RE curT || test FRONT_RE curT).

(** One iteration of [for (const p of paras)]. *)
Definition step (st : state) (p : paragraph) : state :=
  let t := text p in
  if isHeadingLike t (style p) then
    (* start a new chapter *)
    {| done := pushCurrent st; current := Some {| title := t; body := [] |} |}
  else
    let cur :=
      match current st with
      | Some c => c
      | None => {| title := chapterN (length (done st) + 1); body := [] |}
      end in
    if isSubtitle cur t then
      {| done := done st;
         current := Some {| title := clean (title cur) ++ lit ": " ++ clean t;
                            body := body cur |} |}
    else
      {| done := done st;
         current := Some {| title := title cur; body := body cur ++ [t] |} |}.

Definition mainLoop (paras : list paragraph) : state :=
  fold_left step paras {| done := []; current := None |}.

(** [chapters.map((c, i) => ...)] of the clean-up, from index [i]. *)
Fixpoint cleanup (i : nat) (chapters : list chapter) : list chapter :=
  match chapters with
  | [] => []
  | c :: rest =>
      {| ctitle := or_else (clean (ctitle c)) (chapterN (i + 1)); doc := doc c |}
      :: cleanup (S i) rest
  end.

Definition splitFromParagraphs (paragraphs : list paragraph)
           (fallbackTitle : jsstr) : result :=
  let paras := usable paragraphs in
  let '(novelTitle, paras) := detectTitle paras fallbackTitle in
  let chapters := pushCurrent (mainLoop paras) in
  (* If we didn't detect any headings, keep as single chapter *)
  let chapters :=
    match chapters with
    | [] => [{| ctitle := lit "Chapter 1";
                doc := textToDoc (join [LF; LF] (map text paras)) |}]
    | _ :: _ => chapters
    end in
  {| novelTitle := novelTitle; chapters := cleanup 0 chapters |}.

End WithHost.

(** *** The entry point

    [parseImportFile] is asynchronous and calls the decoders [parseRTF]
    and [parseDOCX], which read the file through the browser (File,
    JSZip, DOMParser).  A computation here threads the log of decoder
    calls and ends by returning or by throwing. *)

Record file := { name : jsstr; type : jsstr }.

Inductive event :=
| DecodeRTF (f : file)
| DecodeDOCX (f : file).

Inductive outcome (A : Type) :=
| Return (a : A)
| Throw (msg : jsstr).
Arguments Return {A} a.
Arguments Throw {A} msg.

Definition Eff (A : Type) : Type := list event -> outcome A * list event.

Definition ret {A} (a : A) : Eff A := fun log => (Return a, log).
Definition throw {A} (msg : jsstr) : Eff A := fun log => (Throw msg, log).
Definition bind {A B} (m : Eff A) (f : A -> Eff B) : Eff B :=
  fun log =>
    match m log with
    | (Return a, log') => f a log'
    | (Throw msg, log') => (Throw msg, log')
    end.

Notation "x <- m ;; k" := (bind m (fun x => k))
  (at level 100, m at next level, right associativity).

Section Entry.
Context {host : Host}.
(** What the decoders make of a file. *)
Variables decodeRTF decodeDOCX : file -> outcome (list paragraph).

Definition parseRTF (f : file) : Eff (list paragraph) :=
  fun log => (decodeRTF f, log ++ [DecodeRTF f]).
Definition parseDOCX (f : file) : Eff (list paragraph) :=
  fun log => (decodeDOCX f, log ++ [DecodeDOCX f]).

(** [(name.split(".").pop() || "").toLowerCase()] *)
Definition extension (name : jsstr) : jsstr :=
  toLowerCase (or_else (last (split_unit (u ".") name) []) []).

Definition parseImportFile (file : option file) : Eff result :=
  match file with
  | None => throw (lit "No file selected")
  | Some file =>
      let name := or_else (name file) (lit "Imported") in
      let fallbackTitle := filenameToTitle name in
      let ext := extension name in
      paragraphs <-
        (if eqb ext (lit "rtf") || includes (type file) (lit "rtf") then
           parseRTF file
         else if eqb ext (lit "docx")
                 || includes (type file) (lit "officedocument") then
           parseDOCX file
         else throw (lit "Unsupported file type. Please use .docx or .rtf")) ;;
      ret (splitFromParagraphs paragraphs fallbackTitle)
  end.
End Entry.

End Importer.

(** ** Vocabulary of the statements *)

Module Shape.
Import Str Regex Editor Importer.

(** The last code unit before the position reached after [m]. *)
Fixpoint lastp (prev : option N) (m : jsstr) : option N :=
  match m with
  | [] => prev
  | x :: m' => lastp (Some x) m'
  end.

(** Length of the longest prefix whose code units satisfy [p]. *)
Fixpoint span (p : N -> bool) (s : jsstr) : nat :=
  match s with
  | [] => 0
  | x :: s' => if p x then S (span p s') else 0
  end.

(** What a pattern matches: [Mat ic r prev m f] says that [r] matches
    the code units [m], preceded by [prev] and followed by [f]. *)
Inductive Mat (ic : bool) : re -> option N -> jsstr -> jsstr -> Prop :=
| MEps p f : Mat ic Eps p [] f
| MOne c p x f : has ic c x = true -> Mat ic (One c) p [x] f
| MSeq a b p m1 m2 f :
    Mat ic a p m1 (m2 ++ f) -> Mat ic b (lastp p m1) m2 f ->
    Mat ic (Seq a b) p (m1 ++ m2) f
| MAltL a b p m f : Mat ic a p m f -> Mat ic (Alt a b) p m f
| MAltR a b p m f : Mat ic b p m f -> Mat ic (Alt a b) p m f
| MOptY c p x f : has ic c x = true -> Mat ic (Opt c) p [x] f
| MOptN c p f : Mat ic (Opt c) p [] f
| MMany n c p m f :
    forallb (has ic c) m = true -> n <= length m -> Mat ic (Many n c) p m f
| MBol f : Mat ic Bol None [] f
| MEol p : Mat ic Eol p [] []
| MWordB p f :
    xorb (wordp p) (wordp (hd_error f)) = true -> Mat ic WordB p [] f.

(** [s] has a match of [r] somewhere. *)
Definition Matches (r : regexp) (s : jsstr) : Prop :=
  exists pre m f,
    s = pre ++ m ++ f /\ Mat (ignoreCase r) (pattern r) (lastp None pre) m f.

Definition allWhite (s : jsstr) : Prop := Forall (fun c => isWhite c = true) s.

(** The words of a string: its maximal runs without white space. *)
Definition flush (cur : jsstr) : list jsstr :=
  match cur with [] => [] | _ :: _ => [cur] end.

Fixpoint words_go (cur : jsstr) (s : jsstr) : list jsstr :=
  match s with
  | [] => flush cur
  | x :: s' =>
      if isWhite x then flush cur ++ words_go [] s'
      else words_go (cur ++ [x]) s'
  end.

Definition words (s : jsstr) : list jsstr := words_go [] s.

(** Runs of white space collapsed to one space, from left to right;
    [inrun] tells that the position is inside a run. *)
Fixpoint squeeze (inrun : bool) (s : jsstr) : jsstr :=
  match s with
  | [] => []
  | x :: s' =>
      if isWhite x then (if inrun then squeeze true s' else 32%N :: squeeze true s')
      else x :: squeeze false s'
  end.

(** The shape of a chapter heading in the words of the specification:
    the keyword, white space, a number token, a word boundary. *)
Definition isDigits (tok : jsstr) : Prop :=
  tok <> [] /\ Forall (fun c => (48 <= c <= 57)%N) tok.

Definition isRoman (tok : jsstr) : Prop :=
  tok <> [] /\ Forall (fun c => In (downcase c) (lit "ivxlcdm")) tok.

Definition numberWords : list String.string :=
  ["one"; "two"; "three"; "four"; "five"; "six"; "seven"; "eight"; "nine";
   "ten"; "eleven"; "twelve"]%string.

Definition isNumberWord (tok : jsstr) : Prop :=
  exists w, In w numberWords /\ map downcase tok = lit w.

Definition chapterShape (t : jsstr) : Prop :=
  exists kw ws tok rest,
    t = kw ++ ws ++ tok ++ rest
    /\ (map downcase kw = lit "chapter" \/ map downcase kw = lit "chap.")
    /\ ws <> [] /\ allWhite ws
    /\ (isDigits tok \/ isRoman tok \/ isNumberWord tok)
    /\ wordp (hd_error rest) = false.

(** A style that names a heading of level [d]: "heading", optional white
    space and the digit, anywhere in the string. *)
Definition headingStyle (digits : list N) (s : jsstr) : Prop :=
  exists pre ws d post,
    s = pre ++ lit "heading" ++ ws ++ [d] ++ post
    /\ allWhite ws /\ In d digits.

(** Ends with a full stop, an exclamation mark or a question mark. *)
Definition endsSentence (s : jsstr) : Prop :=
  exists pre c, s = pre ++ [c] /\ In c [u "."; u "!"; u "?"].

(** The text matches the chapter, part or front-matter pattern. *)
Definition headingPattern (t : jsstr) : Prop :=
  Matches CHAPTER_RE t \/ Matches PART_RE t \/ Matches FRONT_RE t.

(** When a paragraph that is not a heading counts as the subtitle of the
    draft [cur]. *)
Definition subtitleCondition (cur : draft) (t : jsstr) : Prop :=
  body cur = [] /\ clean t <> [] /\ length (clean t) <= 60
  /\ ~ endsSentence (clean t) /\ headingPattern (clean (title cur)).

(** When the first paragraph is taken as the title of the novel. *)
Definition titleCondition {host : Host} (first : paragraph) : Prop :=
  clean (text first) <> [] /\ length (clean (text first)) <= 80
  /\ ~ headingPattern (clean (text first))
  /\ (toLowerCase (style first) = lit "title"
      \/ headingStyle [u "1"] (toLowerCase (style first))).

(** The draft that a paragraph outside a heading falls into: the current
    one, or a new one with a numbered title. *)
Definition openDraft (st : state) : draft :=
  match current st with
  | Some c => c
  | None => {| title := chapterN (length (done st) + 1); body := [] |}
  end.

(** The extension of a file name: what follows its last dot.  A name
    without a dot has no extension. *)
Definition fileExtension (name ext : jsstr) : Prop :=
  (exists base, name = base ++ u "." :: ext) /\ ~ In (u ".") ext.

(** [s] contains [w]. *)
Definition contains (s w : jsstr) : Prop := exists pre post, s = pre ++ w ++ post.

(** The file is RTF, or DOCX, by extension (in any case of its letters)
    or by media type. *)
Definition looksRTF {host : Host} (f : file) : Prop :=
  (exists ext, fileExtension (name f) ext /\ toLowerCase ext = lit "rtf")
  \/ contains (type f) (lit "rtf").

Definition looksDOCX {host : Host} (f : file) : Prop :=
  (exists ext, fileExtension (name f) ext /\ toLowerCase ext = lit "docx")
  \/ contains (type f) (lit "officedocument").

(** The name of the file has no dot, so no extension, and is itself the
    word [e] in some case of its letters. *)
Definition bareName {host : Host} (f : file) (e : jsstr) : Prop :=
  ~ In (u ".") (name f) /\ toLowerCase (name f) = e.

(** What the entry point returns once a decoder has run. *)
Definition imported {host : Host} (f : file)
           (decoded : outcome (list paragraph)) : outcome result :=
  match decoded with
  | Return paragraphs =>
      Return (splitFromParagraphs paragraphs
                (filenameToTitle (or_else (name f) (lit "Imported"))))
  | Throw msg => Throw msg
  end.

(** No white space at either end. *)
Definition tight (s : jsstr) : Prop := trim s = s.

(** The document of an empty body: one paragraph without content. *)
Definition emptyDoc : node := Node (lit "doc") None (Some [emptyParagraph]).

(** Paragraphs of ASCII text, and the check that decides it. *)
Definition asciiParagraph (p : paragraph) : Prop :=
  isAscii (text p) /\ isAscii (style p).

Definition asciiUnits (s : jsstr) : bool := forallb (fun c => (c <? 128)%N) s.

Definition asciiParagraphs (ps : list paragraph) : bool :=
  forallb (fun p => asciiUnits (text p) && asciiUnits (style p)) ps.

(** A pattern whose matches are non-empty runs of white space. *)
Definition whiteOnly (r : regexp) : Prop :=
  forall prev m f,
    Mat (ignoreCase r) (pattern r) prev m f -> m <> [] /\ allWhite m.

End Shape.

(** ** importer.js: the decoders *)

Module Decoders.
Import Str Regex Editor Importer.

(** [s.replace(r, f)] for a regexp with the g flag and a callback [f] on
    the matched text; an empty match leaves the next code unit in place,
    as in [replace_go]. *)
Fixpoint replace_fn_go (r : regexp) (f : jsstr -> jsstr) (prev : option N)
         (skip : nat) (s : jsstr) : jsstr :=
  match s with
  | [] =>
      match skip, exec r prev [] with
      | O, Some _ => f []
      | _, _ => []
      end
  | x :: s' =>
      match skip with
      | S k => replace_fn_go r f (Some x) k s'
      | O =>
          match exec r prev s with
          | Some (S n) => f (firstn (S n) s) ++ replace_fn_go r f (Some x) n s'
          | Some O => f [] ++ x :: replace_fn_go r f (Some x) 0 s'
          | None => x :: replace_fn_go r f (Some x) 0 s'
          end
      end
  end.

Definition replace_fn (r : regexp) (f : jsstr -> jsstr) (s : jsstr) : jsstr :=
  replace_fn_go r f None 0 s.

(** The value of a hexadecimal digit, and [parseInt(h, 16)] on a string
    of hexadecimal digits. *)
Definition hexDigit (c : N) : N :=
  (if in_rng (u "0") (u "9") c then c - 48
   else if in_rng (u "a") (u "f") c then c - 87
   else c - 55)%N.

Definition parseHex (h : jsstr) : N :=
  fold_left (fun acc c => (16 * acc + hexDigit c)%N) h 0%N.

(** [String.fromCharCode(n)] *)
Definition fromCharCode (n : N) : jsstr := [(n mod 65536)%N].

Definition BACKSLASH : N := 92.

(** /\{\\\*[^{}]*\}/g *)
Definition HIDDEN_GROUP : regexp :=
  {| pattern := seqs [chr (u "{"); chr BACKSLASH; chr (u "*");
                      Many 0 (ncs [Ch (u "{"); Ch (u "}")]); chr (u "}")];
     ignoreCase := false |}.
(** /\\par[d]?/g *)
Definition PAR : regexp :=
  {| pattern := Seq (word (BACKSLASH :: lit "par")) (Opt (cs [Ch (u "d")]));
     ignoreCase := false |}.
(** /\\line/g, /\\tab/g *)
Definition LINE : regexp :=
  {| pattern := word (BACKSLASH :: lit "line"); ignoreCase := false |}.
Definition TAB_WORD : regexp :=
  {| pattern := word (BACKSLASH :: lit "tab"); ignoreCase := false |}.
(** /\\'([0-9a-fA-F]{2})/g *)
Definition hexClass : cset :=
  cs [Rng (u "0") (u "9"); Rng (u "a") (u "f"); Rng (u "A") (u "F")].
Definition HEX_ESCAPE : regexp :=
  {| pattern := seqs [chr BACKSLASH; chr (u "'"); One hexClass; One hexClass];
     ignoreCase := false |}.
(** /\\[a-zA-Z]+\d* ?/g *)
Definition CONTROL_WORD : regexp :=
  {| pattern := seqs [chr BACKSLASH;
                      Many 1 (cs [Rng (u "a") (u "z"); Rng (u "A") (u "Z")]);
                      Many 0 (cs [Rng (u "0") (u "9")]);
                      Opt (cs [Ch (u " ")])];
     ignoreCase := false |}.
(** /[{}]/g *)
Definition BRACES : regexp :=
  {| pattern := One (cs [Ch (u "{"); Ch (u "}")]); ignoreCase := false |}.
(** /\\~/g, /\\-/g, /\\_/g, /\\\n/g *)
Definition ESC_TILDE : regexp :=
  {| pattern := word [BACKSLASH; u "~"]; ignoreCase := false |}.
Definition ESC_HYPHEN : regexp :=
  {| pattern := word [BACKSLASH; u "-"]; ignoreCase := false |}.
Definition ESC_UNDERSCORE : regexp :=
  {| pattern := word [BACKSLASH; u "_"]; ignoreCase := false |}.
Definition ESC_NEWLINE : regexp :=
  {| pattern := word [BACKSLASH; LF]; ignoreCase := false |}.
(** /\u0000/g *)
Definition NUL : regexp := {| pattern := chr 0; ignoreCase := false |}.

(** The callback of the hex escapes: [h] is the capture, the two digits
    after the backslash and the quote of the match. *)
Definition decodeHex (matched : jsstr) : jsstr :=
  fromCharCode (parseHex (skipn 2 matched)).

Definition rtfToText (rtf : jsstr) : jsstr :=
  let s := or_else rtf [] in
  (* Remove hidden destination groups like {\*\...} *)
  let s := replace_all HIDDEN_GROUP [] s in
  (* Convert paragraph and line breaks *)
  let s := replace_all PAR [LF] s in
  let s := replace_all LINE [LF] s in
  let s := replace_all TAB_WORD [9%N] s in
  (* Decode hex escapes \'hh *)
  let s := replace_fn HEX_ESCAPE decodeHex s in
  (* Strip control words (e.g. \fs24, \b0) but keep spaces *)
  let s := replace_all CONTROL_WORD [] s in
  (* Remove braces *)
  let s := replace_all BRACES [] s in
  (* Unescape common sequences *)
  let s := replace_all ESC_TILDE (lit " ") s in
  let s := replace_all ESC_HYPHEN (lit "-") s in
  let s := replace_all ESC_UNDERSCORE (lit "-") s in
  let s := replace_all ESC_NEWLINE [LF] s in
  (* Normalise spacing *)
  let s := replace_all NUL [] s in
  let s := replace_all NL3 [LF; LF] s in
  trim s.

(** [parseRTF] once [file.text()] has given the text [txt]. *)
Definition rtfParagraphs (txt : jsstr) : list paragraph :=
  let plain := rtfToText txt in
  let paras := filter truthy (map trim (split NL2 plain)) in
  map (fun t => {| text := t; style := [] |}) paras.

(** /heading1/i, /heading2/i, /title/i *)
Definition HEADING1_ID : regexp :=
  {| pattern := word (lit "heading1"); ignoreCase := true |}.
Definition HEADING2_ID : regexp :=
  {| pattern := word (lit "heading2"); ignoreCase := true |}.
Definition TITLE_ID : regexp :=
  {| pattern := word (lit "title"); ignoreCase := true |}.

(** The style name that [parseDOCX] gives to a paragraph with the style
    id [style]: map style ids to friendly names. *)
Definition styleName (style : jsstr) : jsstr :=
  let styleName := style in
  let styleName := if test HEADING1_ID style then lit "Heading 1" else styleName in
  let styleName := if test HEADING2_ID style then lit "Heading 2" else styleName in
  let styleName := if test TITLE_ID style then lit "Title" else styleName in
  styleName.

(** /\s+\n/g *)
Definition WS_NL : regexp :=
  {| pattern := Seq (Many 1 (cs [White])) (chr LF); ignoreCase := false |}.

(** The end of [paragraphText] in [parseDOCX]: [out] is the array that
    the walk over the elements of the paragraph has filled. *)
Definition paragraphText (out : list jsstr) : jsstr :=
  trim (replace_all WS_NL [LF] (join [] out)).

(** The loop of [parseDOCX] over the paragraphs, each given by what
    [getStyle] returns for it and by the array of its walk. *)
Definition docxParagraphs (ps : list (jsstr * list jsstr)) : list paragraph :=
  flat_map
    (fun p =>
       let style := fst p in
       let text := paragraphText (snd p) in
       if negb (truthy (clean text)) then []
       else [{| text := text; style := styleName style |}])
    ps.

End Decoders.

(** ** export.js *)

Module Exporter.
Import Str Regex Editor Importer.

(** [s.replaceAll(c, rep)] for a search string of one code unit and a
    replacement without [$] patterns. *)
Definition replaceAll (c : N) (rep : jsstr) (s : jsstr) : jsstr :=
  flat_map (fun x => if (x =? c)%N then rep else [x]) s.

Definition escapeHtml (s : jsstr) : jsstr :=
  let s := or_else s [] in
  let s := replaceAll (u "&") (lit "&amp;") s in
  let s := replaceAll (u "<") (lit "&lt;") s in
  let s := replaceAll (u ">") (lit "&gt;") s in
  let s := replaceAll 34 (lit "&quot;") s in
  replaceAll (u "'") (lit "&#039;") s.

(** /[^a-z0-9\-\_\s]/gi *)
Definition UNSAFE : regexp :=
  {| pattern := One (ncs [Rng (u "a") (u "z"); Rng (u "0") (u "9");
                          Ch (u "-"); Ch (u "_"); White]);
     ignoreCase := true |}.

(** [s.slice(0, n)] *)
Definition slice0 (n : nat) (s : jsstr) : jsstr := firstn n s.

Definition safeFilename (name : jsstr) : jsstr :=
  or_else
    (slice0 80
       (replace_all WS_RUN (lit "_")
          (trim (replace_all UNSAFE [] (or_else name (lit "novel"))))))
    (lit "novel").

(** /\n\n+/ *)
Definition BLANK_LINES : regexp :=
  {| pattern := Seq (chr LF) (Many 1 (cs [Ch LF])); ignoreCase := false |}.

(** A chapter as the exporters receive it. *)
Record exported := { xtitle : jsstr; content : node }.

(** The paragraphs that [exportDOCX] hands to the docx library:
    [new Paragraph({ text, heading: HEADING_1 })],
    [new Paragraph({ children: [new TextRun(p)] })] and
    [new Paragraph({ text })]. *)
Inductive docxParagraph :=
| HeadingParagraph (text : jsstr)
| RunParagraph (p : jsstr)
| TextParagraph (text : jsstr).

(** The loop of [exportDOCX] that fills [docChildren]. *)
Definition docChildren (chapters : list exported) (includeHeadings : bool)
  : list docxParagraph :=
  flat_map
    (fun ch =>
       (if includeHeadings
        then [HeadingParagraph (or_else (xtitle ch) (lit "Untitled Chapter"))]
        else [])
       ++ (let text := editorToPlainText (content ch) in
           let paras := filter truthy (split BLANK_LINES text) in
           map RunParagraph paras)
       ++ [TextParagraph []])
    chapters.

End Exporter.

(** ** app.js: the word counts *)

Module Counter.
Import Str Regex Editor.

(** [s.match(r)] for a regexp with the g flag: the matched texts from
    left to right; [null], that the callers read as no match, is the
    empty list.  After an empty match the search goes on one code unit
    further, as in [replace_go]. *)
Fixpoint match_go (r : regexp) (prev : option N) (skip : nat) (s : jsstr)
  : list jsstr :=
  match s with
  | [] =>
      match skip, exec r prev [] with
      | O, Some _ => [[]]
      | _, _ => []
      end
  | x :: s' =>
      match skip with
      | S k => match_go r (Some x) k s'
      | O =>
          match exec r prev s with
          | Some (S n) => firstn (S n) s :: match_go r (Some x) n s'
          | Some O => [] :: match_go r (Some x) 0 s'
          | None => match_go r (Some x) 0 s'
          end
      end
  end.

Definition match_all (r : regexp) (s : jsstr) : list jsstr :=
  match_go r None 0 s.

(** /[A-Za-z0-9]+(?:'[A-Za-z0-9]+)?/g: the optional group is the choice
    between the group, tried first, and the empty pattern. *)
Definition alnum : cset :=
  cs [Rng (u "A") (u "Z"); Rng (u "a") (u "z"); Rng (u "0") (u "9")].
Definition WORD_RE : regexp :=
  {| pattern := Seq (Many 1 alnum)
                    (Alt (Seq (chr (u "'")) (Many 1 alnum)) Eps);
     ignoreCase := false |}.

Definition countWordsInString (s : jsstr) : nat :=
  if negb (truthy s) then 0
  else
    let m := match_all WORD_RE s in
    length m.

(** Nodes are objects here, so the guard [if (!node) return 0] never
    fires. *)
Fixpoint countWordsFromJson (n : node) : nat :=
  match n with
  | Node type text content =>
      if eqb type (lit "text") then
        countWordsInString (or_else (match text with Some t => t | None => [] end) [])
      else
        let each :=
          fix each (l : list node) (sum : nat) : nat :=
            match l with
            | [] => sum
            | child :: l' => each l' (sum + countWordsFromJson child)
            end in
        match content with
        | Some l => each l 0
        | None => 0
        end
  end.

End Counter.

(** ** More vocabulary *)

Module Terms.
Import Str Regex Editor Importer Shape Decoders Exporter.

(** The blocks of a body text, as [textToDoc] cuts them. *)
Definition blocksOf (text : jsstr) : list jsstr :=
  filter truthy
         (map trim (split NL2 (replace_all CR_RE [LF]
                                 (replace_all CRLF [LF] (or_else text []))))).

(** What [textToDoc] builds: text nodes that are not empty and hold no
    line break, hard breaks, paragraphs of these, and a document of
    paragraphs, or the empty document. *)
Definition isInline (n : node) : Prop :=
  n = hardBreak
  \/ exists t, n = textNode t /\ t <> [] /\ ~ In LF t /\ ~ In CR t.

Definition isCompiledParagraph (n : node) : Prop :=
  exists content,
    n = Node (lit "paragraph") None (Some content)
    /\ content <> [] /\ Forall isInline content.

Definition isCompiledDoc (d : node) : Prop :=
  d = emptyDoc
  \/ exists paragraphs,
      d = Node (lit "doc") None (Some paragraphs)
      /\ paragraphs <> [] /\ Forall isCompiledParagraph paragraphs.

(** No blank line: no two line feeds in a row. *)
Fixpoint noBlankLine (s : jsstr) : Prop :=
  match s with
  | x :: ((y :: _) as s') => ~ (x = LF /\ y = LF) /\ noBlankLine s'
  | _ => True
  end.

(** The code units of RTF markup: backslash, braces and NUL. *)
Definition markup : list N := [BACKSLASH; u "{"; u "}"; 0%N].

(** A pattern whose matches all begin with a unit of markup. *)
Definition needsMarkup (r : regexp) : Prop :=
  forall prev s n,
    exec r prev s = Some n -> exists x s', s = x :: s' /\ In x markup.

(** A pattern whose matches all begin with the unit [c], and a text
    without markup. *)
Definition beginsWith (r : regexp) (c : N) : Prop :=
  forall prev s n, exec r prev s = Some n -> exists s', s = c :: s'.

Definition plain (s : jsstr) : Prop := forall x, In x s -> ~ In x markup.

(** No three line feeds in a row. *)
Fixpoint noTripleLF (s : jsstr) : Prop :=
  match s with
  | [] => True
  | x :: s' => ~ (exists t, s = LF :: LF :: LF :: t) /\ noTripleLF s'
  end.

(** [s] holds [w] somewhere, in any case of its ASCII letters. *)
Definition containsFold (w s : jsstr) : Prop :=
  exists pre m post, s = pre ++ m ++ post /\ map upcase m = map upcase w.

(** The number words of a part heading, and a text in the shape of one:
    "part", white space, a number token, a word boundary. *)
Definition partWords : list String.string :=
  ["one"; "two"; "three"; "four"; "five"; "six"; "seven"; "eight"; "nine";
   "ten"]%string.

Definition partShape (t : jsstr) : Prop :=
  exists kw ws tok rest,
    t = kw ++ ws ++ tok ++ rest
    /\ map downcase kw = lit "part"
    /\ ws <> [] /\ allWhite ws
    /\ (isDigits tok \/ isRoman tok
        \/ exists w, In w partWords /\ map downcase tok = lit w)
    /\ wordp (hd_error rest) = false.

(** A text in the form of a chapter heading: "chapter", "chap" or
    "chap.", white space, a number token, a word boundary. *)
Definition chapterKeyword (kw : jsstr) : Prop :=
  map downcase kw = lit "chapter" \/ map downcase kw = lit "chap"
  \/ map downcase kw = lit "chap.".

Definition chapterForm (t : jsstr) : Prop :=
  exists kw ws tok rest,
    t = kw ++ ws ++ tok ++ rest
    /\ chapterKeyword kw
    /\ ws <> [] /\ allWhite ws
    /\ (isDigits tok \/ isRoman tok \/ isNumberWord tok)
    /\ wordp (hd_error rest) = false.

(** A tidy paragraph: not empty, no white space at its ends, no blank
    line and no carriage return. *)
Definition tidy (b : jsstr) : Prop :=
  b <> [] /\ tight b /\ noBlankLine b /\ ~ In CR b.

(** Every line feed of [s] follows a unit that is not white space; [e]
    is the unit before [s], if any. *)
Definition whiteBefore (e : option N) : bool :=
  match e with Some y => isWhite y | None => false end.

Fixpoint breaksFollow (e : option N) (s : jsstr) : Prop :=
  match s with
  | [] => True
  | x :: s' => (x = LF -> whiteBefore e = false) /\ breaksFollow (Some x) s'
  end.

(** No line of [t] ends with white space and no line is blank: before
    every line feed there is a unit that is not white space. *)
Definition cleanBreaks (t : jsstr) : Prop :=
  forall a b, t = a ++ LF :: b -> exists a' y, a = a' ++ [y] /\ isWhite y = false.

(** A code unit that no word of the word count goes across: neither a
    letter or digit nor the apostrophe. *)
Definition separator (x : N) : Prop :=
  has false Counter.alnum x = false /\ x <> u "'".

(** The units that the word count and the white-space words agree on. *)
Definition plainUnit (x : N) : Prop :=
  has false Counter.alnum x = true \/ isWhite x = true.

(** The front-matter words, and a text that begins with one of them, in
    any case, as a whole word. *)
Definition frontWords : list String.string :=
  ["prologue"; "epilogue"; "preface"; "foreword"; "afterword"]%string.

Definition frontShape (t : jsstr) : Prop :=
  exists kw rest,
    t = kw ++ rest
    /\ (exists w, In w frontWords /\ map downcase kw = lit w)
    /\ wordp (hd_error rest) = false.

(** A word: not empty, no white space. *)
Definition solid (w : jsstr) : Prop :=
  w <> [] /\ Forall (fun c => isWhite c = false) w.

(** A normalised string: non-empty words joined by single spaces. *)
Definition normalised (s : jsstr) : Prop := clean s = s.

(** The code units that [safeFilename] lets through. *)
Definition safeUnit (c : N) : bool :=
  isAsciiLower c || isAsciiUpper c || in_rng (u "0") (u "9") c
  || (c =? u "-")%N || (c =? u "_")%N.

(** The five characters that [escapeHtml] rewrites. *)
Definition htmlSpecial (c : N) : bool :=
  ((c =? u "&") || (c =? u "<") || (c =? u ">") || (c =? 34) || (c =? u "'"))%N.

(** One pass over the text, character by character. *)
Definition entity (c : N) : jsstr :=
  if (c =? u "&")%N then lit "&amp;"
  else if (c =? u "<")%N then lit "&lt;"
  else if (c =? u ">")%N then lit "&gt;"
  else if (c =? 34)%N then lit "&quot;"
  else if (c =? u "'")%N then lit "&#039;"
  else [c].

(** How many paragraphs of a list are heading-like. *)
Definition headings {host : Host} (paras : list paragraph) : nat :=
  length (filter (fun p => isHeadingLike (text p) (style p)) paras).

(** The paragraphs that the main loop of [splitFromParagraphs] sees. *)
Definition stream {host : Host} (paragraphs : list paragraph) : list paragraph :=
  snd (detectTitle (usable paragraphs) []).

End Terms.

(** * Properties *)

(** ** Strings *)

Module StrFacts.
Import Str Shape.

Lemma eqb_eq (a b : jsstr) : eqb a b = true <-> a = b.
Proof.
  unfold eqb. destruct (list_eq_dec N.eq_dec a b); split; congruence.
Qed.

Lemma eqb_neq (a b : jsstr) : eqb a b = false <-> a <> b.
Proof.
  unfold eqb. destruct (list_eq_dec N.eq_dec a b); split; congruence.
Qed.

Lemma eqb_refl (a : jsstr) : eqb a a = true.
Proof. now apply eqb_eq. Qed.

Lemma truthy_true (s : jsstr) : truthy s = true <-> s <> [].
Proof. destruct s; simpl; split; congruence. Qed.

Lemma truthy_false (s : jsstr) : truthy s = false <-> s = [].
Proof. destruct s; simpl; split; congruence. Qed.

Lemma or_else_nil (s : jsstr) : or_else s [] = s.
Proof. now destruct s. Qed.

Lemma length_zero (s : jsstr) : (length s =? 0) = negb (truthy s).
Proof. now destruct s. Qed.

Lemma upcase_downcase (x : N) : upcase (downcase x) = upcase x.
Proof.
  unfold upcase, downcase, isAsciiLower, isAsciiUpper.
  destruct (N.leb_spec 65 x), (N.leb_spec x 90); simpl;
    repeat match goal with
           | |- context [N.leb ?a ?b] => destruct (N.leb_spec a b); simpl
           end; lia.
Qed.

Lemma lastp_app (p : option N) (a b : jsstr) :
  lastp p (a ++ b) = lastp (lastp p a) b.
Proof. revert p. induction a; simpl; auto. Qed.

Lemma lastp_snoc (p : option N) (a : jsstr) (x : N) :
  lastp p (a ++ [x]) = Some x.
Proof. now rewrite lastp_app. Qed.

(** *** Words *)

Lemma flush_snoc (cur : jsstr) (x : N) : flush (cur ++ [x]) = [cur ++ [x]].
Proof. now destruct cur. Qed.

Lemma words_go_white (cur w s : jsstr) :
  allWhite w -> w <> [] -> words_go cur (w ++ s) = flush cur ++ words_go [] s.
Proof.
  intros Hw. revert cur. induction Hw as [|x w Hx Hw IH]; intros cur Hne.
  - congruence.
  - simpl. rewrite Hx. destruct w as [|y w].
    + reflexivity.
    + rewrite IH by discriminate. reflexivity.
Qed.

Lemma words_go_white_nil (w s : jsstr) :
  allWhite w -> words_go [] (w ++ s) = words_go [] s.
Proof.
  intros Hw. destruct w as [|x w]; [reflexivity|].
  now rewrite words_go_white.
Qed.

Lemma words_go_split (cur a : jsstr) (x : N) (b : jsstr) :
  isWhite x = true ->
  words_go cur (a ++ x :: b) = words_go cur a ++ words_go [] b.
Proof.
  intros Hx. revert cur. induction a as [|y a IH]; intros cur; simpl.
  - now rewrite Hx.
  - destruct (isWhite y).
    + now rewrite IH, app_assoc.
    + apply IH.
Qed.

Lemma words_split (a : jsstr) (x : N) (b : jsstr) :
  isWhite x = true -> words (a ++ x :: b) = words a ++ words b.
Proof. apply words_go_split. Qed.

Lemma words_white (w : jsstr) : allWhite w -> words w = [].
Proof.
  intros Hw. unfold words. rewrite <- (app_nil_r w).
  now rewrite words_go_white_nil.
Qed.

Lemma words_go_nonempty (cur s : jsstr) :
  Forall (fun w => w <> []) (words_go cur s).
Proof.
  revert cur. induction s as [|x s IH]; intros cur; simpl.
  - destruct cur; simpl; constructor; [discriminate|constructor].
  - destruct (isWhite x).
    + apply Forall_app. split; [|apply IH].
      destruct cur; simpl; constructor; [discriminate|constructor].
    + apply IH.
Qed.

Lemma words_go_pending (cur s : jsstr) : cur <> [] -> words_go cur s <> [].
Proof.
  revert cur. induction s as [|y s IH]; intros cur Hne; simpl.
  - destruct cur; [congruence|discriminate].
  - destruct (isWhite y).
    + destruct cur; [congruence|discriminate].
    + apply IH. now destruct cur.
Qed.

Lemma words_nil_white (s : jsstr) : words s = [] -> allWhite s.
Proof.
  unfold words. induction s as [|x s IH]; simpl; intros H.
  - constructor.
  - destruct (isWhite x) eqn:Hx.
    + constructor; [exact Hx|apply IH, H].
    + exfalso. revert H. now apply words_go_pending.
Qed.

(** *** Trimming *)

Lemma trimEnd_app (a b : jsstr) :
  trimEnd (a ++ b) = match trimEnd b with [] => trimEnd a | r => a ++ r end.
Proof.
  induction a as [|x a IH]; simpl.
  - now destruct (trimEnd b).
  - rewrite IH. destruct (trimEnd b) as [|y r]; [reflexivity|].
    destruct (a ++ y :: r) eqn:E; [destruct a; discriminate|reflexivity].
Qed.

Lemma trimEnd_snoc_keep (a : jsstr) (x : N) :
  isWhite x = false -> trimEnd (a ++ [x]) = a ++ [x].
Proof. intros Hx. rewrite trimEnd_app. simpl. now rewrite Hx. Qed.

Lemma words_go_trimStart (s : jsstr) : words (trimStart s) = words s.
Proof.
  unfold words. induction s as [|x s IH]; simpl; [reflexivity|].
  destruct (isWhite x) eqn:Hx; simpl; [exact IH|]. now rewrite Hx.
Qed.

Lemma words_go_trimEnd (cur s : jsstr) :
  words_go cur (trimEnd s) = words_go cur s.
Proof.
  revert cur. induction s as [|x s IH]; intros cur; simpl; [reflexivity|].
  destruct (trimEnd s) as [|y r] eqn:E.
  - destruct (isWhite x) eqn:Hx; simpl.
    + rewrite <- (IH []). simpl. now rewrite app_nil_r.
    + rewrite Hx. now rewrite <- IH.
  - simpl. destruct (isWhite x) eqn:Hx.
    + f_equal. rewrite <- IH. reflexivity.
    + rewrite <- IH. reflexivity.
Qed.

Lemma words_trim (s : jsstr) : words (trim s) = words s.
Proof.
  unfold trim, words. rewrite words_go_trimEnd. apply words_go_trimStart.
Qed.

Lemma trimStart_white (s : jsstr) : allWhite s -> trimStart s = [].
Proof. induction 1 as [|x s Hx _ IH]; simpl; [reflexivity|now rewrite Hx]. Qed.

Lemma trim_white (s : jsstr) : allWhite s -> trim s = [].
Proof. intros H. unfold trim. now rewrite trimStart_white. Qed.

End StrFacts.

(** ** The matcher agrees with what patterns match *)

Module RegexFacts.
Import Str Regex Shape StrFacts.

Section Sound.
Variable ic : bool.
Variable A : Type.
Implicit Types (k : cont A) (prev : option N) (s m f : jsstr).

Lemma many_sound p n prev s k a :
  many p n prev s k = Some a ->
  exists m f, s = m ++ f /\ forallb p m = true /\ n <= length m
              /\ k (lastp prev m) f = Some a.
Proof.
  revert n prev. induction s as [|x s IH]; intros n prev; simpl.
  - destruct n; [|discriminate]. intros H.
    exists [], []. simpl. auto.
  - assert (Hstop : match n with 0 => k prev (x :: s) | S _ => None end = Some a ->
                    exists m f, x :: s = m ++ f /\ forallb p m = true
                                /\ n <= length m /\ k (lastp prev m) f = Some a).
    { destruct n; [|discriminate]. intros H. exists [], (x :: s). simpl. auto. }
    destruct (p x) eqn:Hp; [|exact Hstop].
    destruct (many p (Nat.pred n) (Some x) s k) as [a'|] eqn:E; [|exact Hstop].
    intros H. injection H as ->.
    destruct (IH _ _ E) as (m & f & -> & Hall & Hn & Hk).
    exists (x :: m), f. simpl. rewrite Hp, Hall. repeat split; auto. lia.
Qed.

Lemma many_complete p n prev m f k a :
  forallb p m = true -> n <= length m -> k (lastp prev m) f = Some a ->
  exists a', many p n prev (m ++ f) k = Some a'.
Proof.
  revert n prev. induction m as [|x m IH]; intros n prev Hall Hn Hk; simpl in *.
  - assert (n = 0) by lia. subst n.
    destruct f as [|y f]; simpl; [eauto|].
    destruct (p y); [|eauto].
    destruct (many p 0 (Some y) f k); eauto.
  - apply andb_true_iff in Hall as [Hp Hall]. rewrite Hp.
    destruct (IH (Nat.pred n) (Some x) Hall ltac:(lia) Hk) as [a' ->]. eauto.
Qed.

Lemma run_sound r prev s k a :
  run ic r prev s k = Some a ->
  exists m f, s = m ++ f /\ Mat ic r prev m f /\ k (lastp prev m) f = Some a.
Proof.
  revert prev s k a.
  induction r as [|c|r1 IH1 r2 IH2|r1 IH1 r2 IH2|c|n c| | |];
    intros prev s k a; simpl.
  - intros H. exists [], s. repeat split; auto. constructor.
  - destruct s as [|x s]; simpl; [discriminate|].
    destruct (has ic c x) eqn:Hc; [|discriminate]. intros H.
    exists [x], s. repeat split; auto. now constructor.
  - intros H. apply IH1 in H as (m1 & f1 & -> & H1 & H).
    apply IH2 in H as (m2 & f & -> & H2 & H).
    exists (m1 ++ m2), f. rewrite app_assoc, lastp_app.
    repeat split; auto. now constructor.
  - destruct (run ic r1 prev s k) as [a'|] eqn:E.
    + intros H. injection H as ->. apply IH1 in E as (m & f & -> & H1 & H).
      exists m, f. repeat split; auto. now apply MAltL.
    + intros H. apply IH2 in H as (m & f & -> & H2 & H).
      exists m, f. repeat split; auto. now apply MAltR.
  - destruct (one (has ic c) s k) as [a'|] eqn:E.
    + intros H. injection H as ->. destruct s as [|x s]; simpl in E; [discriminate|].
      destruct (has ic c x) eqn:Hc; [|discriminate].
      exists [x], s. repeat split; auto. now apply MOptY.
    + intros H. exists [], s. repeat split; auto. apply MOptN.
  - intros H. apply many_sound in H as (m & f & -> & Hall & Hn & H).
    exists m, f. repeat split; auto. now constructor.
  - destruct prev; [discriminate|]. intros H.
    exists [], s. repeat split; auto. constructor.
  - destruct s; [|discriminate]. intros H.
    exists [], []. repeat split; auto. constructor.
  - destruct (xorb (wordp prev) (wordp (hd_error s))) eqn:E; [|discriminate].
    intros H. exists [], s. repeat split; auto. now constructor.
Qed.

Lemma run_complete r prev m f :
  Mat ic r prev m f ->
  forall k a, k (lastp prev m) f = Some a ->
              exists a', run ic r prev (m ++ f) k = Some a'.
Proof.
  induction 1 as [p f|c p x f Hc|a b p m1 m2 f _ IH1 _ IH2|a b p m f _ IH
                 |a b p m f _ IH|c p x f Hc|c p f|n c p m f Hall Hn|f|p|p f Hb];
    intros k a0 Hk; simpl in *.
  - eauto.
  - rewrite Hc. eauto.
  - rewrite <- app_assoc. rewrite lastp_app in Hk.
    destruct (IH2 _ _ Hk) as [a' Ha'].
    exact (IH1 (fun p' s' => run ic b p' s' k) a' Ha').
  - destruct (IH _ _ Hk) as [a' ->]. eauto.
  - destruct (run ic a p (m ++ f) k); eauto.
  - rewrite Hc, Hk. eauto.
  - destruct (one (has ic c) f k); eauto.
  - eapply many_complete; eauto.
  - eauto.
  - eauto.
  - rewrite Hb. eauto.
Qed.
End Sound.

Lemma exec_sound (r : regexp) prev s n :
  exec r prev s = Some n ->
  exists m f, s = m ++ f /\ Mat (ignoreCase r) (pattern r) prev m f /\ n = length m.
Proof.
  unfold exec. intros H. apply run_sound in H as (m & f & -> & HM & H).
  exists m, f. repeat split; auto. injection H as <-.
  rewrite length_app. lia.
Qed.

Lemma exec_complete (r : regexp) prev m f :
  Mat (ignoreCase r) (pattern r) prev m f -> exec r prev (m ++ f) <> None.
Proof.
  intros HM. unfold exec.
  destruct (run_complete HM (fun _ rest => Some (length (m ++ f) - length rest))
                         eq_refl) as [a' ->].
  discriminate.
Qed.

Lemma search_spec (r : regexp) prev s :
  search r prev s = true <->
  exists pre m f, s = pre ++ m ++ f
                  /\ Mat (ignoreCase r) (pattern r) (lastp prev pre) m f.
Proof.
  split.
  - revert prev. induction s as [|x s IH]; intros prev; simpl.
    + destruct (exec r prev []) eqn:E; [|discriminate]. intros _.
      apply exec_sound in E as (m & f & E & HM & _). exists [], m, f. auto.
    + destruct (exec r prev (x :: s)) eqn:E.
      * intros _. apply exec_sound in E as (m & f & E & HM & _).
        exists [], m, f. auto.
      * intros H. apply IH in H as (pre & m & f & -> & HM).
        exists (x :: pre), m, f. auto.
  - intros (pre & m & f & -> & HM). revert prev HM.
    induction pre as [|x pre IH]; intros prev HM; simpl in *.
    + apply exec_complete in HM.
      destruct (m ++ f); simpl; destruct (exec r prev _); congruence.
    + destruct (exec r prev (x :: pre ++ m ++ f)); auto.
  Qed.

Lemma test_Matches (r : regexp) s : test r s = true <-> Matches r s.
Proof. apply search_spec. Qed.

End RegexFacts.

(** ** Scanning: global replace and split *)

Module ScanFacts.
Import Str Regex Shape StrFacts RegexFacts.

Lemma span_le p (s : jsstr) : span p s <= length s.
Proof. induction s as [|x s IH]; simpl; [lia|]. destruct (p x); simpl; lia. Qed.

Lemma span_forallb p (s : jsstr) : forallb p (firstn (span p s) s) = true.
Proof.
  induction s as [|x s IH]; simpl; [reflexivity|].
  destruct (p x) eqn:Hp; simpl; [now rewrite Hp|reflexivity].
Qed.

(** A greedy class quantifier at the end of a pattern takes the whole run. *)
Lemma many_top (A : Type) p n prev (s : jsstr) (g : jsstr -> A) :
  many p n prev s (fun _ rest => Some (g rest)) =
  if n <=? span p s then Some (g (skipn (span p s) s)) else None.
Proof.
  revert n prev. induction s as [|x s IH]; intros n prev; simpl.
  - now destruct n.
  - destruct (p x) eqn:Hp; simpl.
    + rewrite IH. destruct n as [|n]; simpl.
      * reflexivity.
      * destruct (n <=? span p s); reflexivity.
    + now destruct n.
Qed.

Lemma exec_many ic n c prev (s : jsstr) :
  exec {| pattern := Many n c; ignoreCase := ic |} prev s =
  if n <=? span (has ic c) s then Some (span (has ic c) s) else None.
Proof.
  unfold exec. simpl. rewrite many_top.
  destruct (n <=? span (has ic c) s); [|reflexivity].
  f_equal. rewrite length_skipn. pose proof (span_le (has ic c) s). lia.
Qed.

Lemma exec_one ic c prev (s : jsstr) :
  exec {| pattern := One c; ignoreCase := ic |} prev s =
  match s with
  | x :: _ => if has ic c x then Some 1 else None
  | [] => None
  end.
Proof.
  unfold exec. cbn [run pattern ignoreCase]. unfold one.
  destruct s as [|x s]; [reflexivity|].
  destruct (has ic c x); [|reflexivity]. f_equal. cbn [length]. lia.
Qed.

Section WhiteOnly.
Variable r : regexp.
Hypothesis Hr : whiteOnly r.

Lemma whiteOnly_exec prev (s : jsstr) n :
  exec r prev s = Some n ->
  0 < n /\ n <= length s /\ allWhite (firstn n s).
Proof.
  intros H. apply exec_sound in H as (m & f & -> & HM & ->).
  apply Hr in HM as [Hne Hw]. rewrite length_app.
  rewrite firstn_app, Nat.sub_diag, firstn_all. simpl. rewrite app_nil_r.
  repeat split; auto; [|lia]. destruct m; [congruence|simpl; lia].
Qed.

Lemma whiteOnly_exec_nil prev : exec r prev [] = None.
Proof.
  destruct (exec r prev []) eqn:E; [|reflexivity].
  apply whiteOnly_exec in E. simpl in E. lia.
Qed.

Lemma replace_go_words (rep : jsstr) :
  allWhite rep -> rep <> [] ->
  forall s,
    (forall prev cur,
        words_go cur (replace_go r rep prev 0 s) = words_go cur s)
    /\ (forall prev skip,
           skip <= length s -> allWhite (firstn skip s) ->
           words_go [] (replace_go r rep prev skip s) = words_go [] s).
Proof.
  intros Hrep Hne. induction s as [|x s [IHA IHB]].
  - assert (HA : forall prev cur,
               words_go cur (replace_go r rep prev 0 []) = words_go cur []).
    { intros prev cur. simpl. now rewrite whiteOnly_exec_nil. }
    split; [exact HA|]. intros prev skip Hs _. simpl in Hs.
    assert (skip = 0) by lia. subst. apply HA.
  - assert (HA : forall prev cur,
               words_go cur (replace_go r rep prev 0 (x :: s))
               = words_go cur (x :: s)).
    { intros prev cur. simpl. destruct (exec r prev (x :: s)) as [[|n]|] eqn:E.
      - apply whiteOnly_exec in E. lia.
      - apply whiteOnly_exec in E as (_ & Hn & Hw). simpl in Hn, Hw.
        inversion Hw as [|? ? Hx Hw']; subst.
        rewrite Hx, words_go_white by assumption.
        f_equal. apply IHB; [lia|assumption].
      - simpl. destruct (isWhite x); [now rewrite IHA|apply IHA]. }
    split; [exact HA|]. intros prev [|skip] Hs Hw; [apply HA|].
    simpl in *. inversion Hw as [|? ? Hx Hw']; subst. rewrite Hx. simpl.
    apply IHB; [lia|assumption].
Qed.

Lemma replace_all_words (rep s : jsstr) :
  allWhite rep -> rep <> [] -> words (replace_all r rep s) = words s.
Proof.
  intros Hrep Hne. apply (proj1 (replace_go_words Hrep Hne s)).
Qed.

Lemma split_go_words :
  forall s,
    (forall prev cur,
        concat (map words (split_go r prev 0 cur s)) = words (cur ++ s))
    /\ (forall prev skip,
           skip <= length s -> allWhite (firstn skip s) ->
           concat (map words (split_go r prev skip [] s)) = words s).
Proof.
  induction s as [|x s [IHA IHB]].
  - assert (HA : forall prev cur,
               concat (map words (split_go r prev 0 cur [])) = words (cur ++ [])).
    { intros prev cur. simpl. now rewrite !app_nil_r. }
    split; [exact HA|]. intros prev skip Hs _. simpl in Hs.
    assert (skip = 0) by lia. subst. apply HA.
  - assert (HA : forall prev cur,
               concat (map words (split_go r prev 0 cur (x :: s)))
               = words (cur ++ x :: s)).
    { intros prev cur. simpl. destruct (exec r prev (x :: s)) as [[|n]|] eqn:E.
      - apply whiteOnly_exec in E. lia.
      - apply whiteOnly_exec in E as (_ & Hn & Hw). simpl in Hn, Hw.
        inversion Hw as [|? ? Hx Hw']; subst. simpl.
        rewrite words_split by assumption. f_equal.
        apply IHB; [lia|assumption].
      - rewrite IHA, <- app_assoc. reflexivity. }
    split; [exact HA|]. intros prev [|skip] Hs Hw; [apply (HA prev [])|].
    simpl in *. inversion Hw as [|? ? Hx Hw']; subst.
    rewrite IHB by (lia || assumption).
    change (x :: s) with ([] ++ x :: s). now rewrite words_split.
Qed.

Lemma split_words (s : jsstr) : concat (map words (split r s)) = words s.
Proof.
  destruct s as [|x s]; simpl.
  - now rewrite whiteOnly_exec_nil.
  - apply (proj1 (split_go_words (x :: s)) None []).
Qed.
End WhiteOnly.

End ScanFacts.

(** ** [clean]: white-space normalisation *)

Module CleanFacts.
Import Str Regex Editor Importer Shape StrFacts RegexFacts ScanFacts.

Lemma has_white ic (x : N) : has ic (cs [White]) x = isWhite x.
Proof. unfold has. simpl. now rewrite orb_false_r. Qed.

Lemma has_unit (c x : N) : has false (cs [Ch c]) x = (c =? x)%N.
Proof. unfold has. simpl. now rewrite orb_false_r. Qed.

Lemma span_ext p q (s : jsstr) : (forall x, p x = q x) -> span p s = span q s.
Proof.
  intros H. induction s as [|x s IH]; simpl; [reflexivity|].
  rewrite H, IH. reflexivity.
Qed.

Lemma exec_WS_RUN prev (s : jsstr) :
  exec WS_RUN prev s =
  if 1 <=? span isWhite s then Some (span isWhite s) else None.
Proof.
  unfold WS_RUN. rewrite exec_many.
  now rewrite (span_ext _ isWhite s (has_white false)).
Qed.

Lemma replace_WS_RUN (s : jsstr) :
  (forall prev, replace_go WS_RUN (lit " ") prev 0 s = squeeze false s)
  /\ (forall prev, replace_go WS_RUN (lit " ") prev (span isWhite s) s
                   = squeeze true s).
Proof.
  induction s as [|x s [IHA IHB]].
  - split; intros prev; cbn [replace_go span]; now rewrite exec_WS_RUN.
  - assert (HA : forall prev,
               replace_go WS_RUN (lit " ") prev 0 (x :: s) = squeeze false (x :: s)).
    { intros prev. cbn [replace_go]. rewrite exec_WS_RUN. cbn [span squeeze].
      destruct (isWhite x).
      - simpl. now rewrite IHB.
      - simpl. now rewrite IHA. }
    split; [exact HA|]. intros prev. cbn [span].
    destruct (isWhite x) eqn:Hx.
    + cbn [replace_go squeeze]. rewrite Hx. apply IHB.
    + rewrite HA. cbn [squeeze]. now rewrite Hx.
Qed.

Lemma squeeze_true_head (s : jsstr) :
  match squeeze true s with [] => True | y :: _ => isWhite y = false end.
Proof.
  induction s as [|x s IH]; simpl; [exact I|].
  destruct (isWhite x) eqn:Hx; auto.
Qed.

Lemma trimStart_squeeze (s : jsstr) :
  trimStart (squeeze false s) = squeeze true s.
Proof.
  destruct s as [|x s]; simpl; [reflexivity|].
  destruct (isWhite x) eqn:Hx; simpl.
  - pose proof (squeeze_true_head s) as H.
    destruct (squeeze true s) as [|y r]; simpl; [reflexivity|now rewrite H].
  - now rewrite Hx.
Qed.

Lemma trimEnd_solid (cur : jsstr) :
  Forall (fun c => isWhite c = false) cur -> trimEnd cur = cur.
Proof.
  induction 1 as [|x cur Hx _ IH]; simpl; [reflexivity|].
  rewrite IH, Hx. now destruct cur.
Qed.

Lemma join_nil (sep : jsstr) (l : list jsstr) :
  Forall (fun w => w <> []) l -> join sep l = [] -> l = [].
Proof.
  destruct 1 as [|w l Hw Hl]; [reflexivity|]. simpl.
  destruct l; intros H; [congruence|].
  apply app_eq_nil in H as [H _]. congruence.
Qed.

Lemma join_cons (sep a : jsstr) (l : list jsstr) :
  join sep (a :: l) = match l with [] => a | _ :: _ => a ++ sep ++ join sep l end.
Proof. reflexivity. Qed.

Lemma trimEnd_squeeze (s : jsstr) :
  (forall cur, cur <> [] -> Forall (fun c => isWhite c = false) cur ->
               trimEnd (cur ++ squeeze false s) = join [32%N] (words_go cur s))
  /\ trimEnd (squeeze true s) = join [32%N] (words_go [] s).
Proof.
  induction s as [|x s [IHA IHB]].
  - split; [|reflexivity]. intros cur Hne Hcur. simpl.
    rewrite app_nil_r, trimEnd_solid by assumption. now destruct cur.
  - split.
    + intros cur Hne Hcur. simpl. destruct (isWhite x) eqn:Hx.
      * rewrite trimEnd_app. simpl. rewrite IHB.
        destruct cur as [|c cur]; [congruence|]. cbn [flush app].
        rewrite join_cons.
        destruct (words_go [] s) as [|w ws] eqn:E.
        -- simpl. apply (trimEnd_solid Hcur).
        -- destruct (join [32%N] (w :: ws)) eqn:J.
           ++ apply join_nil in J; [discriminate|].
              rewrite <- E. apply words_go_nonempty.
           ++ reflexivity.
      * change (cur ++ x :: squeeze false s) with (cur ++ [x] ++ squeeze false s).
        rewrite app_assoc. apply IHA.
        -- now destruct cur.
        -- apply Forall_app. split; [assumption|]. now constructor.
    + simpl. destruct (isWhite x) eqn:Hx; [exact IHB|].
      apply (IHA [x]); [discriminate|]. now constructor.
Qed.

(** [clean] keeps the words of a string and joins them by one space. *)
Lemma clean_words (s : jsstr) : clean s = join [32%N] (words s).
Proof.
  unfold clean, replace_all, trim. rewrite or_else_nil.
  rewrite (proj1 (replace_WS_RUN s)), trimStart_squeeze.
  apply trimEnd_squeeze.
Qed.

Lemma clean_nil_iff (s : jsstr) : clean s = [] <-> allWhite s.
Proof.
  rewrite clean_words. split.
  - intros H. apply join_nil in H; [|apply words_go_nonempty].
    now apply words_nil_white.
  - intros H. now rewrite words_white.
Qed.

Lemma clean_same_words (a b : jsstr) : words a = words b -> clean a = clean b.
Proof. rewrite !clean_words. now intros ->. Qed.

(** The patterns that the compiler and the projection scan with match
    white space only. *)
Lemma whiteOnly_many n c ic :
  0 < n -> (forall x, has ic c x = true -> isWhite x = true) ->
  whiteOnly {| pattern := Many n c; ignoreCase := ic |}.
Proof.
  intros Hn Hc prev m f HM. simpl in HM. inversion HM; subst. split.
  - destruct m; simpl in *; [lia|discriminate].
  - apply Forall_forall. intros x Hx. apply Hc.
    eapply forallb_forall; eauto.
Qed.

Lemma unit_LF (x : N) : has false (cs [Ch LF]) x = true -> isWhite x = true.
Proof. rewrite has_unit. intros H. apply N.eqb_eq in H. now subst. Qed.

Lemma whiteOnly_NL2 : whiteOnly NL2.
Proof. apply whiteOnly_many; [lia|exact unit_LF]. Qed.

Lemma whiteOnly_NL3 : whiteOnly NL3.
Proof. apply whiteOnly_many; [lia|exact unit_LF]. Qed.

Lemma Mat_chr ic c prev m f :
  Mat ic (chr c) prev m f -> exists x, m = [x] /\ has ic (cs [Ch c]) x = true.
Proof. unfold chr. intros H. inversion H; subst. eauto. Qed.

Lemma whiteOnly_CR : whiteOnly CR_RE.
Proof.
  intros prev m f HM. simpl in HM. apply Mat_chr in HM as (x & -> & Hx).
  rewrite has_unit in Hx. apply N.eqb_eq in Hx. subst.
  split; [discriminate|]. now repeat constructor.
Qed.

Lemma whiteOnly_CRLF : whiteOnly CRLF.
Proof.
  intros prev m f HM. simpl in HM. inversion HM; subst.
  repeat match goal with
         | H : Mat _ (chr _) _ _ _ |- _ => apply Mat_chr in H as (? & -> & H)
         end.
  rewrite has_unit in *.
  repeat match goal with H : (_ =? _)%N = true |- _ => apply N.eqb_eq in H end.
  subst. split; [discriminate|]. now repeat constructor.
Qed.

End CleanFacts.

(** ** The projection and the compiler *)

Module DocFacts.
Import Str Regex Editor Importer Shape StrFacts RegexFacts ScanFacts CleanFacts.

(** Induction on documents, with the hypothesis for every child. *)
Lemma node_induction (P : node -> Prop) :
  (forall type text, P (Node type text None)) ->
  (forall type text l, Forall P l -> P (Node type text (Some l))) ->
  forall n, P n.
Proof.
  intros Hnone Hsome.
  fix IH 1. intros [type text [l|]]; [|apply Hnone].
  apply Hsome. induction l as [|c l IHl]; constructor; [apply IH|exact IHl].
Qed.

Lemma push_if_app b x (lines : list jsstr) :
  push_if b x lines = lines ++ (if b then [x] else []).
Proof. destruct b; simpl; [reflexivity|now rewrite app_nil_r]. Qed.

(** The loop over the children of a node. *)
Lemma walk_eq type text content (lines : list jsstr) :
  walk (Node type text content) lines =
  if eqb type (lit "text") then
    lines ++ [or_else (match text with Some t => t | None => [] end) []]
  else
    push_if (eqb type (lit "listItem")) [LF]
      (push_if (eqb type (lit "heading") || eqb type (lit "blockquote")) [LF]
         (fold_left (fun acc child => walk child acc)
            (match content with Some l => l | None => [] end)
            (push_if (eqb type (lit "hardBreak")) [LF]
               (push_if (eqb type (lit "paragraph")) [LF] lines)))).
Proof.
  cbn [walk]. destruct (eqb type (lit "text")); [reflexivity|].
  do 2 f_equal. destruct content as [l|]; [|reflexivity].
  generalize (push_if (eqb type (lit "hardBreak")) [LF]
                (push_if (eqb type (lit "paragraph")) [LF] lines)).
  induction l as [|c l IH]; intros acc; simpl; [reflexivity|apply IH].
Qed.

Lemma walk_children_app (l : list node) :
  Forall (fun c => forall lines, walk c lines = lines ++ walk c []) l ->
  forall lines,
    fold_left (fun acc child => walk child acc) l lines =
    lines ++ fold_left (fun acc child => walk child acc) l [].
Proof.
  induction 1 as [|c l Hc _ IH]; intros lines; simpl.
  - now rewrite app_nil_r.
  - rewrite IH, (IH (walk c [])), Hc. now rewrite app_assoc.
Qed.

(** [walk] only appends to [lines]: what it pushes does not depend on
    what is there already. *)
Lemma walk_app (n : node) (lines : list jsstr) :
  walk n lines = lines ++ walk n [].
Proof.
  revert lines. induction n as [type text|type text l IH] using node_induction;
    intros lines; rewrite !walk_eq;
    destruct (eqb type (lit "text")); try reflexivity.
  - rewrite !push_if_app. simpl. now rewrite <- !app_assoc.
  - rewrite !push_if_app. rewrite (walk_children_app IH).
    rewrite (walk_children_app IH (([] ++ _) ++ _)).
    simpl. now rewrite <- !app_assoc.
Qed.

Lemma join_empty (l : list jsstr) : join [] l = concat l.
Proof.
  induction l as [|a l IH]; [reflexivity|]. rewrite join_cons. cbn [concat].
  rewrite <- IH. destruct l; simpl; [now rewrite app_nil_r|reflexivity].
Qed.

Lemma split_unit_go_cons (c : N) (cur s : jsstr) :
  exists a l, split_unit_go c cur s = a :: l.
Proof.
  revert cur. induction s as [|x s IH]; intros cur; simpl; eauto.
  destruct (x =? c)%N; eauto.
Qed.

Lemma split_unit_go_join (c : N) (cur s : jsstr) :
  join [c] (split_unit_go c cur s) = cur ++ s.
Proof.
  revert cur. induction s as [|x s IH]; intros cur; simpl.
  - now rewrite app_nil_r.
  - destruct (N.eqb_spec x c) as [->|_].
    + rewrite join_cons, IH.
      now destruct (split_unit_go_cons c [] s) as (a & l & ->).
    + rewrite IH, <- app_assoc. reflexivity.
Qed.

Lemma split_unit_join (c : N) (s : jsstr) : join [c] (split_unit c s) = s.
Proof. apply split_unit_go_join. Qed.

(** What the nodes of one paragraph push. *)
Lemma walk_lines_content (ls : list jsstr) :
  concat (fold_left (fun acc child => walk child acc) (lines_content ls) [])
  = join [LF] ls.
Proof.
  induction ls as [|t rest IH]; [reflexivity|].
  cbn [lines_content]. rewrite !fold_left_app.
  rewrite walk_children_app by
      (apply Forall_forall; intros; apply walk_app).
  rewrite concat_app, IH, join_cons.
  assert (Ht : concat (fold_left (fun acc child => walk child acc)
                         (if truthy t then [textNode t] else []) []) = t).
  { destruct t; simpl; [reflexivity|]. now rewrite app_nil_r. }
  destruct rest as [|t' rest].
  - cbn [fold_left]. rewrite Ht. simpl. now rewrite app_nil_r.
  - cbn [fold_left]. rewrite (walk_app hardBreak), concat_app, Ht.
    now rewrite <- app_assoc.
Qed.

Lemma walk_paragraph (par : jsstr) :
  concat (walk (paragraphToTiptap par) []) = LF :: par.
Proof.
  unfold paragraphToTiptap. rewrite or_else_nil, walk_eq.
  change (eqb (lit "paragraph") (lit "text")) with false.
  change (eqb (lit "paragraph") (lit "listItem")) with false.
  change (eqb (lit "paragraph") (lit "heading")) with false.
  change (eqb (lit "paragraph") (lit "blockquote")) with false.
  change (eqb (lit "paragraph") (lit "hardBreak")) with false.
  change (eqb (lit "paragraph") (lit "paragraph")) with true.
  cbn [push_if orb app].
  pose proof (walk_lines_content (split_unit LF par)) as H.
  rewrite split_unit_join in H.
  destruct (lines_content (split_unit LF par)) as [|n l] eqn:E.
  - simpl in H. subst par. reflexivity.
  - rewrite walk_children_app by (apply Forall_forall; intros; apply walk_app).
    rewrite concat_app, H. reflexivity.
Qed.

Lemma walk_paragraphs (blocks : list jsstr) :
  concat (fold_left (fun acc child => walk child acc)
                    (map paragraphToTiptap blocks) [])
  = concat (map (cons LF) blocks).
Proof.
  induction blocks as [|b blocks IH]; [reflexivity|]. cbn [map fold_left concat].
  rewrite walk_children_app by (apply Forall_forall; intros; apply walk_app).
  rewrite concat_app, IH, walk_paragraph. reflexivity.
Qed.

Lemma words_cons_white (x : N) (s : jsstr) :
  isWhite x = true -> words (x :: s) = words s.
Proof. intros Hx. unfold words. simpl. now rewrite Hx. Qed.

Lemma words_paragraphs (blocks : list jsstr) :
  words (concat (map (cons LF) blocks)) = concat (map words blocks).
Proof.
  induction blocks as [|b blocks IH]; [reflexivity|].
  cbn [map concat]. rewrite <- app_comm_cons, words_cons_white by reflexivity.
  destruct blocks as [|b' blocks].
  - simpl. now rewrite !app_nil_r.
  - rewrite <- IH. cbn [map concat]. rewrite <- app_comm_cons.
    rewrite words_split by reflexivity.
    now rewrite (words_cons_white LF).
Qed.

Lemma words_blocks (pieces : list jsstr) :
  concat (map words (filter truthy (map trim pieces))) = concat (map words pieces).
Proof.
  induction pieces as [|p pieces IH]; [reflexivity|]. simpl.
  rewrite <- (words_trim p). destruct (trim p); simpl; now rewrite IH.
Qed.

(** The words of the projection of a compiled text are the words of the
    text. *)
Lemma words_round_trip (bodyText : jsstr) :
  words (editorToPlainText (textToDoc bodyText)) = words bodyText.
Proof.
  unfold editorToPlainText. rewrite words_trim.
  rewrite (replace_all_words whiteOnly_NL3) by (repeat constructor || discriminate).
  rewrite join_empty. unfold textToDoc. rewrite or_else_nil, walk_eq.
  change (eqb (lit "doc") (lit "text")) with false.
  change (eqb (lit "doc") (lit "listItem")) with false.
  change (eqb (lit "doc") (lit "heading")) with false.
  change (eqb (lit "doc") (lit "blockquote")) with false.
  change (eqb (lit "doc") (lit "hardBreak")) with false.
  change (eqb (lit "doc") (lit "paragraph")) with false.
  cbn [push_if orb].
  set (raw := replace_all CR_RE [LF] (replace_all CRLF [LF] bodyText)).
  assert (Hraw : words raw = words bodyText).
  { unfold raw.
    rewrite (replace_all_words whiteOnly_CR) by (repeat constructor || discriminate).
    apply (replace_all_words whiteOnly_CRLF); repeat constructor || discriminate. }
  rewrite <- Hraw, <- (split_words whiteOnly_NL2 raw), <- words_blocks.
  destruct (filter truthy (map trim (split NL2 raw))) as [|b blocks].
  - reflexivity.
  - rewrite walk_paragraphs. apply words_paragraphs.
Qed.

End DocFacts.

(** ** Matching the patterns of the importer *)

Module PatternFacts.
Import Str Regex Editor Importer Shape StrFacts RegexFacts ScanFacts CleanFacts.

Lemma Mat_seq ic a b p m1 m2 m f :
  m = m1 ++ m2 ->
  Mat ic a p m1 (m2 ++ f) -> Mat ic b (lastp p m1) m2 f ->
  Mat ic (Seq a b) p m f.
Proof. intros ->. apply MSeq. Qed.

Lemma Mat_alts ic r l p m f :
  In r l -> Mat ic r p m f -> Mat ic (alts l) p m f.
Proof.
  intros Hin HM. induction l as [|a l IH]; [destruct Hin|].
  destruct l as [|b l].
  - destruct Hin as [->|[]]. exact HM.
  - change (alts (a :: b :: l)) with (Alt a (alts (b :: l))).
    destruct Hin as [->|Hin]; [now apply MAltL|apply MAltR, IH, Hin].
Qed.

Lemma has_fold (x : N) : has true (cs [Ch (downcase x)]) x = true.
Proof.
  unfold has. simpl. rewrite upcase_downcase, N.eqb_refl. reflexivity.
Qed.

(** Under the i flag a literal matches any spelling of it. *)
Lemma Mat_word_fold (kw : jsstr) p f :
  Mat true (word (map downcase kw)) p kw f.
Proof.
  revert p. induction kw as [|x kw IH]; intros p; [constructor|].
  destruct kw as [|y kw].
  - apply MOne, has_fold.
  - change (word (map downcase (x :: y :: kw)))
      with (Seq (chr (downcase x)) (word (map downcase (y :: kw)))).
    apply (Mat_seq (m1 := [x]) (m2 := y :: kw)); [reflexivity| |apply IH].
    apply MOne, has_fold.
Qed.

Lemma has_exact (x : N) : has false (cs [Ch x]) x = true.
Proof. rewrite has_unit. apply N.eqb_refl. Qed.

Lemma Mat_word_exact (w : jsstr) p f : Mat false (word w) p w f.
Proof.
  revert p. induction w as [|x w IH]; intros p; [constructor|].
  destruct w as [|y w].
  - apply MOne, has_exact.
  - change (word (x :: y :: w)) with (Seq (chr x) (word (y :: w))).
    apply (Mat_seq (m1 := [x]) (m2 := y :: w)); [reflexivity| |apply IH].
    apply MOne, has_exact.
Qed.

Lemma Mat_word_inv (w : jsstr) p m f : Mat false (word w) p m f -> m = w.
Proof.
  revert p m. induction w as [|x w IH]; intros p m HM.
  - inversion HM. reflexivity.
  - destruct w as [|y w].
    + apply Mat_chr in HM as (z & -> & Hz). rewrite has_unit in Hz.
      apply N.eqb_eq in Hz. now subst.
    + change (word (x :: y :: w)) with (Seq (chr x) (word (y :: w))) in HM.
      inversion HM as [| |? ? ? m1 m2 ? H1 H2| | | | | | | |]; subst.
      apply Mat_chr in H1 as (z & -> & Hz). rewrite has_unit in Hz.
      apply N.eqb_eq in Hz. subst z. apply IH in H2. now subst.
Qed.

Lemma forallb_allWhite ic (ws : jsstr) :
  allWhite ws <-> forallb (has ic (cs [White])) ws = true.
Proof.
  rewrite forallb_forall. unfold allWhite. rewrite Forall_forall.
  split; intros H x Hx; specialize (H x Hx); now rewrite has_white in *.
Qed.

Lemma isWord_downcase (c : N) : isWord (downcase c) = true -> isWord c = true.
Proof.
  unfold downcase. destruct (isAsciiUpper c) eqn:E; [|auto].
  intros _. unfold isWord. unfold isAsciiUpper in E. now rewrite E.
Qed.

Lemma wordp_lastp (tok : jsstr) p :
  tok <> [] -> Forall (fun c => isWord c = true) tok ->
  wordp (lastp p tok) = true.
Proof.
  intros Hne H. revert p Hne. induction H as [|x tok Hx _ IH]; intros p Hne.
  - congruence.
  - simpl. destruct tok as [|y tok]; [exact Hx|]. apply IH. discriminate.
Qed.

(** The number token of a chapter or part heading. *)
Lemma token_digits (tok : jsstr) p f :
  isDigits tok -> Mat true digits p tok f /\ wordp (lastp p tok) = true.
Proof.
  intros [Hne H]. split.
  - apply MMany.
    + apply forallb_forall. intros x Hx.
      eapply Forall_forall in H; [|exact Hx]. cbv beta in H.
      assert (E : in_rng (u "0") (u "9") x = true).
      { unfold in_rng. change (u "0") with 48%N. change (u "9") with 57%N.
        apply andb_true_iff. split; apply N.leb_le; lia. }
      unfold has. cbn [negated items cs existsb item_has xorb].
      now rewrite E.
    + destruct tok; [congruence|simpl; lia].
  - apply wordp_lastp; [assumption|].
    eapply Forall_impl; [|exact H]. cbv beta. intros x Hx. unfold isWord.
    assert (E : ((48 <=? x) && (x <=? 57) = true)%N)
      by (apply andb_true_iff; split; apply N.leb_le; lia).
    rewrite E. now rewrite !orb_true_r.
Qed.

Lemma token_roman (tok : jsstr) p f :
  isRoman tok -> Mat true roman p tok f /\ wordp (lastp p tok) = true.
Proof.
  intros [Hne H]. split.
  - apply MMany.
    + apply forallb_forall. intros x Hx.
      eapply Forall_forall in H; [|exact Hx]. cbv beta in H.
      unfold has. cbn [negated items cs xorb]. apply existsb_exists.
      exists (Ch (downcase x)). split; [now apply in_map|].
      simpl. rewrite upcase_downcase. apply N.eqb_refl.
    + destruct tok; [congruence|simpl; lia].
  - apply wordp_lastp; [assumption|].
    eapply Forall_impl; [|exact H]. cbv beta. intros x Hx.
    apply isWord_downcase.
    assert (Hall : forallb isWord (lit "ivxlcdm") = true) by reflexivity.
    eapply forallb_forall in Hall; eauto.
Qed.

Lemma token_number (l : list String.string) (tok : jsstr) p f :
  forallb (fun w => truthy (lit w) && forallb isWord (lit w)) l = true ->
  (exists w, In w l /\ map downcase tok = lit w) ->
  (exists r, In r (literals l) /\ Mat true r p tok f)
  /\ wordp (lastp p tok) = true.
Proof.
  intros Hl (w & Hw & E). split.
  - exists (word (lit w)). split.
    + unfold literals. now apply (in_map (fun w => word (lit w))).
    + rewrite <- E. apply Mat_word_fold.
  - eapply forallb_forall in Hl; [|exact Hw]. apply andb_true_iff in Hl as [Hne Hall].
    rewrite <- E in Hne, Hall. apply wordp_lastp.
    + destruct tok; [discriminate|discriminate].
    + apply Forall_forall. intros x Hx. apply isWord_downcase.
      eapply forallb_forall in Hall; [exact Hall|]. now apply in_map.
Qed.

(** A heading in the shape of the specification matches CHAPTER_RE. *)
Lemma chapterShape_Matches (t : jsstr) : chapterShape t -> Matches CHAPTER_RE t.
Proof.
  intros (kw & ws & tok & rest & -> & Hkw & Hne & Hws & Htok & Hb).
  exists [], (kw ++ ws ++ tok), rest. split; [now rewrite <- !app_assoc|].
  unfold CHAPTER_RE. cbn [pattern ignoreCase seqs lastp].
  apply (Mat_seq (m1 := []) (m2 := kw ++ ws ++ tok)); [reflexivity|apply MBol|].
  cbn [lastp].
  apply (Mat_seq (m1 := kw) (m2 := ws ++ tok)); [reflexivity| |].
  { destruct Hkw as [Hkw|Hkw].
    - apply MAltL. rewrite <- Hkw. apply Mat_word_fold.
    - apply MAltR.
      change (lit "chap.") with [99; 104; 97; 112; 46]%N in Hkw.
      destruct kw as [|a [|b [|c [|d [|e [|? ?]]]]]]; try discriminate.
      injection Hkw as Ha Hb' Hc Hd He.
      apply (Mat_seq (m1 := [a; b; c; d]) (m2 := [e])); [reflexivity| |].
      + replace (lit "chap") with (map downcase [a; b; c; d])
          by (simpl; now rewrite Ha, Hb', Hc, Hd).
        apply Mat_word_fold.
      + apply MOptY. change (u ".") with 46%N. rewrite <- He. apply has_fold. }
  apply (Mat_seq (m1 := ws) (m2 := tok)); [reflexivity| |].
  { apply MMany; [now apply forallb_allWhite|]. destruct ws; [congruence|simpl; lia]. }
  set (p := lastp (lastp None kw) ws).
  assert (HT : Mat true
                 (alts (digits :: roman ::
                        literals ["one"; "two"; "three"; "four"; "five"; "six";
                                  "seven"; "eight"; "nine"; "ten"; "eleven";
                                  "twelve"]%string)) p tok ([] ++ rest)
               /\ wordp (lastp p tok) = true).
  { destruct Htok as [H|[H|H]].
    - destruct (token_digits p ([] ++ rest) H) as [HM Hw]. split; [|exact Hw].
      eapply Mat_alts; [|exact HM]. now left.
    - destruct (token_roman p ([] ++ rest) H) as [HM Hw]. split; [|exact Hw].
      eapply Mat_alts; [|exact HM]. right. now left.
    - destruct (@token_number numberWords tok p ([] ++ rest) eq_refl H)
        as [(r & Hin & HM) Hw].
      split; [|exact Hw]. eapply Mat_alts; [|exact HM]. right. right. exact Hin. }
  destruct HT as [HT Hw].
  apply (Mat_seq (m1 := tok) (m2 := [])); [now rewrite app_nil_r|exact HT|].
  apply (Mat_seq (m1 := []) (m2 := [])); [reflexivity| |].
  - apply MWordB. cbn [app]. now rewrite Hw, Hb.
  - apply MMany; [reflexivity|simpl; lia].
Qed.

Lemma has_units (ds : list N) (x : N) :
  has false (cs (map Ch ds)) x = true <-> In x ds.
Proof.
  unfold has. cbn [negated items cs xorb]. rewrite existsb_exists. split.
  - intros (i & Hi & Hx). apply in_map_iff in Hi as (d & <- & Hd).
    simpl in Hx. apply N.eqb_eq in Hx. now subst.
  - intros H. exists (Ch x). split; [now apply in_map|]. apply N.eqb_refl.
Qed.

(** /heading\s*(d)/ for the digits [ds]. *)
Lemma heading_Matches (ds : list N) (s : jsstr) :
  Matches {| pattern := seqs [word (lit "heading"); Many 0 (cs [White]);
                              One (cs (map Ch ds))];
             ignoreCase := false |} s
  <-> headingStyle ds s.
Proof.
  unfold Matches. cbn [pattern ignoreCase seqs]. split.
  - intros (pre & m & f & -> & HM).
    inversion HM as [| |? ? ? m1 m2 ? H1 H2| | | | | | | |]; subst.
    inversion H2 as [| |? ? ? m3 m4 ? H3 H4| | | | | | | |]; subst.
    apply (Mat_word_inv (lit "heading")) in H1. subst m1.
    inversion H3; subst. inversion H4; subst.
    exists pre, m3, x, f. repeat split.
    + now rewrite <- !app_assoc.
    + now apply (forallb_allWhite false).
    + now apply has_units.
  - intros (pre & ws & d & post & -> & Hws & Hd).
    exists pre, (lit "heading" ++ ws ++ [d]), post.
    split; [now rewrite <- !app_assoc|].
    apply (Mat_seq (m1 := lit "heading") (m2 := ws ++ [d]));
      [reflexivity|apply Mat_word_exact|].
    apply (Mat_seq (m1 := ws) (m2 := [d])); [reflexivity| |].
    + apply MMany; [now apply forallb_allWhite|lia].
    + apply MOne. now apply has_units.
Qed.

Lemma HEADING12_spec (s : jsstr) :
  test HEADING12 s = true <-> headingStyle [u "1"; u "2"] s.
Proof. rewrite test_Matches. apply (heading_Matches [u "1"; u "2"]). Qed.

Lemma HEADING1_spec (s : jsstr) :
  test HEADING1 s = true <-> headingStyle [u "1"] s.
Proof. rewrite test_Matches. apply (heading_Matches [u "1"]). Qed.

Lemma END_PUNCT_spec (s : jsstr) : test END_PUNCT s = true <-> endsSentence s.
Proof.
  rewrite test_Matches. unfold Matches, endsSentence, END_PUNCT.
  cbn [pattern ignoreCase]. split.
  - intros (pre & m & f & -> & HM).
    inversion HM as [| |? ? ? m1 m2 ? H1 H2| | | | | | | |]; subst.
    inversion H1; subst. inversion H2; subst.
    exists pre, x. split; [reflexivity|].
    now apply (has_units [u "."; u "!"; u "?"]).
  - intros (pre & c & -> & Hc). exists pre, [c], []. split; [reflexivity|].
    apply (Mat_seq (m1 := [c]) (m2 := [])); [reflexivity| |apply MEol].
    apply MOne. now apply (has_units [u "."; u "!"; u "?"]).
Qed.

Lemma headingPattern_spec (t : jsstr) :
  test CHAPTER_RE t || test PART_RE t || test FRONT_RE t = true
  <-> headingPattern t.
Proof.
  unfold headingPattern. rewrite !orb_true_iff, !test_Matches. tauto.
Qed.

Lemma has_not_AZ (x : N) :
  has false (ncs [Rng (u "A") (u "Z")]) x = negb (isAsciiUpper x).
Proof.
  unfold has, isAsciiUpper. cbn [negated items ncs existsb item_has andb].
  unfold in_rng. change (u "A") with 65%N. change (u "Z") with 90%N.
  now rewrite !orb_false_r.
Qed.

(** [t.replace(/[^A-Z]/g, "")] keeps the ASCII capitals of [t]. *)
Lemma replace_NOT_AZ (t : jsstr) :
  replace_all NOT_AZ [] t = filter isAsciiUpper t.
Proof.
  unfold replace_all. generalize (@None N).
  induction t as [|x t IH]; intros prev; cbn [replace_go filter].
  - unfold NOT_AZ. now rewrite exec_one.
  - unfold NOT_AZ at 1. rewrite exec_one, has_not_AZ.
    destruct (isAsciiUpper x); cbn [negb app]; now rewrite IH.
Qed.

End PatternFacts.

(** ** On ASCII text every host behaves like [asciiHost] *)

Module AsciiFacts.
Import Str Regex Editor Importer Shape StrFacts RegexFacts ScanFacts CleanFacts.

Lemma asciiHost_ok : HostAscii asciiHost.
Proof. split; reflexivity. Qed.

Lemma asciiUnits_ok (s : jsstr) : asciiUnits s = true -> isAscii s.
Proof.
  unfold asciiUnits, isAscii. rewrite forallb_forall, Forall_forall.
  intros H x Hx. apply N.ltb_lt. auto.
Qed.

Lemma asciiParagraphs_ok (ps : list paragraph) :
  asciiParagraphs ps = true -> Forall asciiParagraph ps.
Proof.
  unfold asciiParagraphs. rewrite forallb_forall, Forall_forall.
  intros H p Hp. specialize (H p Hp). apply andb_true_iff in H as [Ht Hs].
  split; now apply asciiUnits_ok.
Qed.

Lemma isAscii_words_go (cur s : jsstr) :
  isAscii cur -> isAscii s -> Forall isAscii (words_go cur s).
Proof.
  intros Hcur Hs. revert cur Hcur.
  induction Hs as [|x s Hx _ IH]; intros cur Hcur; simpl.
  - destruct cur; constructor; auto.
  - destruct (isWhite x).
    + apply Forall_app. split; [destruct cur; constructor; auto|].
      apply IH. constructor.
    + apply IH. apply Forall_app. split; [assumption|]. now constructor.
Qed.

Lemma isAscii_join (sep : jsstr) (l : list jsstr) :
  isAscii sep -> Forall isAscii l -> isAscii (join sep l).
Proof.
  intros Hsep. induction 1 as [|a l Ha Hl IH]; [constructor|].
  rewrite join_cons. destruct l; [assumption|].
  apply Forall_app. split; [assumption|]. apply Forall_app. now split.
Qed.

Lemma isAscii_clean (s : jsstr) : isAscii s -> isAscii (clean s).
Proof.
  intros H. rewrite clean_words. apply isAscii_join.
  - repeat constructor.
  - apply isAscii_words_go; [constructor|assumption].
Qed.

Section AnyHost.
Context {host : Host} {ok : HostAscii host}.

Lemma isAllCapsShort_ascii (s : jsstr) :
  isAscii s -> isAllCapsShort (host := host) s = isAllCapsShort (host := asciiHost) s.
Proof.
  intros H. unfold isAllCapsShort.
  now rewrite (toUpperCase_ascii (isAscii_clean H)).
Qed.

Lemma isStyleHeading_ascii (style : jsstr) :
  isAscii style ->
  isStyleHeading (host := host) style = isStyleHeading (host := asciiHost) style.
Proof.
  intros H. unfold isStyleHeading. rewrite or_else_nil.
  now rewrite (toLowerCase_ascii H).
Qed.

Lemma isHeadingLike_ascii (text style : jsstr) :
  isAscii text -> isAscii style ->
  isHeadingLike (host := host) text style
  = isHeadingLike (host := asciiHost) text style.
Proof.
  intros Ht Hs. unfold isHeadingLike.
  rewrite (isStyleHeading_ascii Hs).
  now rewrite (isAllCapsShort_ascii (isAscii_clean Ht)).
Qed.

Lemma isTitle_ascii (p : paragraph) :
  asciiParagraph p -> isTitle (host := host) p = isTitle (host := asciiHost) p.
Proof.
  intros [_ Hs]. unfold isTitle. rewrite or_else_nil.
  now rewrite (toLowerCase_ascii Hs).
Qed.

Lemma step_ascii (st : state) (p : paragraph) :
  asciiParagraph p -> step (host := host) st p = step (host := asciiHost) st p.
Proof.
  intros [Ht Hs]. unfold step. now rewrite (isHeadingLike_ascii Ht Hs).
Qed.

Lemma mainLoop_ascii (paras : list paragraph) :
  Forall asciiParagraph paras ->
  mainLoop (host := host) paras = mainLoop (host := asciiHost) paras.
Proof.
  unfold mainLoop. generalize {| done := []; current := None |}.
  intros st H. revert st.
  induction H as [|p paras Hp _ IH]; intros st; simpl; [reflexivity|].
  now rewrite (step_ascii _ Hp), IH.
Qed.

Lemma usable_ascii (ps : list paragraph) :
  Forall asciiParagraph ps -> Forall asciiParagraph (usable ps).
Proof.
  intros H. unfold usable.
  apply Forall_forall. intros p Hp. apply filter_In in Hp as [Hp _].
  apply in_map_iff in Hp as (q & <- & Hq).
  eapply Forall_forall in H; [|exact Hq]. destruct H as [Ht Hs].
  split; simpl; now rewrite or_else_nil.
Qed.

Lemma dropSpacers_ascii (ps : list paragraph) :
  Forall asciiParagraph ps -> Forall asciiParagraph (dropSpacers ps).
Proof.
  induction 1 as [|p ps Hp Hps IH]; simpl; [constructor|].
  destruct (negb _); [assumption|now constructor].
Qed.

(** On ASCII paragraphs the result does not depend on the host. *)
Lemma splitFromParagraphs_ascii (ps : list paragraph) (fallbackTitle : jsstr) :
  Forall asciiParagraph ps ->
  splitFromParagraphs (host := host) ps fallbackTitle
  = splitFromParagraphs (host := asciiHost) ps fallbackTitle.
Proof.
  intros H. apply usable_ascii in H. unfold splitFromParagraphs, detectTitle.
  destruct H as [|first rest Hfirst Hrest]; [reflexivity|].
  rewrite (isTitle_ascii Hfirst).
  destruct (isTitle first).
  - now rewrite (mainLoop_ascii (dropSpacers_ascii Hrest)).
  - rewrite (mainLoop_ascii (paras := first :: rest)) by now constructor.
    reflexivity.
Qed.
End AnyHost.

End AsciiFacts.

(** ** The heading classifier *)

Module HeadingFacts.
Import Str Regex Editor Importer Shape.
Import StrFacts RegexFacts ScanFacts CleanFacts PatternFacts AsciiFacts.

Section AnyHost.
Context {host : Host}.

Lemma isAllCapsShort_iff (s : jsstr) :
  isAllCapsShort s = true <->
  clean s <> [] /\ length (clean s) <= 44
  /\ 6 <= length (filter isAsciiUpper (clean s))
  /\ toUpperCase (clean s) = clean s.
Proof.
  unfold isAllCapsShort. rewrite replace_NOT_AZ.
  destruct (truthy (clean s)) eqn:Ht; cbn [negb].
  - apply truthy_true in Ht.
    destruct (Nat.ltb_spec 44 (length (clean s))) as [Hl|Hl].
    + split; [discriminate|]. intros (_ & H & _). lia.
    + rewrite andb_true_iff, Nat.leb_le, eqb_eq.
      split; [intros [H1 H2]|intros (_ & _ & H1 & H2)]; auto.
  - apply truthy_false in Ht. split; [discriminate|]. now intros [H _].
Qed.

Lemma isStyleHeading_iff (style : jsstr) :
  isStyleHeading style = true <->
  headingStyle [u "1"; u "2"] (toLowerCase style)
  \/ toLowerCase style = lit "title".
Proof.
  unfold isStyleHeading.
  now rewrite or_else_nil, orb_true_iff, HEADING12_spec, eqb_eq.
Qed.

Lemma isHeadingLike_blank (text style : jsstr) :
  clean text = [] -> isHeadingLike text style = false.
Proof. intros H. unfold isHeadingLike. now rewrite H. Qed.

Lemma isHeadingLike_rules (text style : jsstr) :
  clean text <> [] ->
  isHeadingLike text style =
  isStyleHeading style || test CHAPTER_RE (clean text)
  || test PART_RE (clean text) || test FRONT_RE (clean text)
  || isAllCapsShort (clean text).
Proof.
  intros H. unfold isHeadingLike. apply truthy_true in H. now rewrite H.
Qed.

Lemma isHeadingLike_style (text style : jsstr) :
  clean text <> [] -> isStyleHeading style = true ->
  isHeadingLike text style = true.
Proof. intros H Hs. now rewrite isHeadingLike_rules, Hs. Qed.

Lemma isHeadingLike_chapter (text style : jsstr) :
  chapterShape (clean text) -> isHeadingLike text style = true.
Proof.
  intros H. assert (Hne : clean text <> []).
  { destruct H as (kw & ws & tok & rest & E & Hkw & _). rewrite E.
    destruct kw; [|discriminate]. destruct Hkw; discriminate. }
  apply chapterShape_Matches, test_Matches in H.
  rewrite isHeadingLike_rules, H by assumption.
  now rewrite orb_true_r.
Qed.
End AnyHost.

End HeadingFacts.

(** ** Segmentation *)

Module SplitFacts.
Import Str Regex Editor Importer Shape.
Import StrFacts RegexFacts ScanFacts CleanFacts PatternFacts AsciiFacts HeadingFacts.

Lemma cleanup_length (i : nat) (l : list chapter) :
  length (cleanup i l) = length l.
Proof. revert i. induction l as [|c l IH]; intros i; simpl; auto. Qed.

Lemma usable_nil_iff (ps : list paragraph) :
  usable ps = [] <-> Forall (fun p => allWhite (text p)) ps.
Proof.
  unfold usable. induction ps as [|p ps IH]; simpl.
  - split; constructor.
  - rewrite or_else_nil, length_zero, negb_involutive.
    destruct (truthy (clean (text p))) eqn:E.
    + split; [discriminate|]. intros H. inversion H as [|? ? Hp _]; subst.
      apply clean_nil_iff in Hp. rewrite Hp in E. discriminate.
    + apply truthy_false, clean_nil_iff in E. rewrite IH.
      split; [now constructor|]. intros H. now inversion H.
Qed.



Lemma isSubtitle_iff (cur : draft) (t : jsstr) :
  isSubtitle cur t = true <-> subtitleCondition cur t.
Proof.
  unfold isSubtitle, subtitleCondition.
  rewrite !andb_true_iff, !negb_true_iff, headingPattern_spec, Nat.leb_le.
  rewrite Nat.eqb_eq, Nat.eqb_neq, !length_zero_iff_nil.
  rewrite <- END_PUNCT_spec.
  destruct (test END_PUNCT (clean t)); intuition congruence.
Qed.

Section AnyHost.
Context {host : Host}.

Lemma isTitle_iff (first : paragraph) :
  isTitle first = true <-> titleCondition first.
Proof.
  unfold isTitle, titleCondition.
  rewrite <- headingPattern_spec, or_else_nil.
  rewrite !andb_true_iff, !negb_true_iff, orb_true_iff.
  rewrite truthy_true, Nat.leb_le, eqb_eq, HEADING1_spec.
  destruct (test CHAPTER_RE (clean (text first))),
           (test PART_RE (clean (text first))),
           (test FRONT_RE (clean (text first))); simpl;
    intuition congruence.
Qed.

Lemma isTitle_heading (first : paragraph) :
  isTitle first = true -> isHeadingLike (text first) (style first) = true.
Proof.
  intros H. apply isTitle_iff in H as (Hne & _ & _ & Hs).
  apply isHeadingLike_style; [assumption|]. apply isStyleHeading_iff.
  destruct Hs as [Hs|(pre & ws & d & post & E & Hws & Hd)]; [now right|left].
  exists pre, ws, d, post. repeat split; auto.
  destruct Hd as [<-|[]]. now left.
Qed.

Lemma step_body (st : state) (p : paragraph) :
  isHeadingLike (text p) (style p) = false ->
  (subtitleCondition (openDraft st) (text p) ->
   step st p =
   {| done := done st;
      current := Some {| title := clean (title (openDraft st)) ++ lit ": "
                                  ++ clean (text p);
                         body := body (openDraft st) |} |})
  /\ (~ subtitleCondition (openDraft st) (text p) ->
      step st p =
      {| done := done st;
         current := Some {| title := title (openDraft st);
                            body := body (openDraft st) ++ [text p] |} |}).
Proof.
  intros Hh. unfold step. rewrite Hh. fold (openDraft st).
  split; intros H.
  - apply isSubtitle_iff in H. now rewrite H.
  - destruct (isSubtitle (openDraft st) (text p)) eqn:E; [|reflexivity].
    apply isSubtitle_iff in E. contradiction.
Qed.

(** Once a draft has a body, paragraphs outside headings go to it. *)
Lemma mainLoop_body (paras : list paragraph) (d : list chapter)
      (t : jsstr) (b : list jsstr) :
  b <> [] ->
  Forall (fun p => isHeadingLike (text p) (style p) = false) paras ->
  fold_left step paras
            {| done := d; current := Some {| title := t; body := b |} |}
  = {| done := d;
       current := Some {| title := t; body := b ++ map text paras |} |}.
Proof.
  intros Hb H. revert b Hb. induction H as [|p paras Hp _ IH]; intros b Hb.
  - simpl. now rewrite app_nil_r.
  - cbn [fold_left map].
    rewrite (proj2 (@step_body _ p Hp)).
    + cbn [openDraft current title body]. rewrite IH.
      * now rewrite <- app_assoc.
      * now destruct b.
    + intros (Hbody & _). cbn [openDraft current body] in Hbody. congruence.
Qed.

(** Without headings, and when the first paragraph is not taken as a
    subtitle, the result is one chapter with every paragraph. *)
Lemma no_heading_single_chapter (paragraphs : list paragraph)
      (fallbackTitle : jsstr) (first : paragraph) (rest : list paragraph) :
  usable paragraphs = first :: rest ->
  Forall (fun p => isHeadingLike (text p) (style p) = false) (first :: rest) ->
  ~ subtitleCondition {| title := lit "Chapter 1"; body := [] |} (text first) ->
  chapters (splitFromParagraphs paragraphs fallbackTitle)
  = [{| ctitle := lit "Chapter 1";
        doc := textToDoc (trim (join [LF; LF] (map text (first :: rest)))) |}].
Proof.
  intros Hu Hh Hsub. unfold splitFromParagraphs. rewrite Hu.
  inversion Hh as [|? ? Hfirst Hrest]; subst.
  unfold detectTitle. destruct (isTitle first) eqn:Ht.
  { apply isTitle_heading in Ht. congruence. }
  unfold mainLoop. cbn [fold_left].
  rewrite (proj2 (@step_body {| done := []; current := None |} first Hfirst))
    by exact Hsub.
  cbn [openDraft current done title body length app].
  rewrite (@mainLoop_body rest [] (chapterN (0 + 1)) [text first])
    by (discriminate || assumption).
  reflexivity.
Qed.
End AnyHost.

End SplitFacts.

(** ** Strings without white space at the ends *)

Module TightFacts.
Import Str Regex Editor Importer Shape StrFacts RegexFacts ScanFacts CleanFacts.

Lemma trimStart_head (s : jsstr) :
  match trimStart s with [] => True | h :: _ => isWhite h = false end.
Proof.
  induction s as [|x s IH]; simpl; [exact I|].
  destruct (isWhite x) eqn:Hx; [exact IH|exact Hx].
Qed.

Lemma trimEnd_prefix (s : jsstr) : exists t, s = trimEnd s ++ t.
Proof.
  induction s as [|x s [t IH]]; simpl; [now exists []|].
  destruct (trimEnd s) as [|y r].
  - destruct (isWhite x); [now exists (x :: s)|].
    exists t. simpl in *. now rewrite <- IH.
  - exists t. simpl in *. now rewrite <- IH.
Qed.

Lemma trimEnd_last (s : jsstr) :
  trimEnd s = [] \/ exists a z, trimEnd s = a ++ [z] /\ isWhite z = false.
Proof.
  induction s as [|x s IH]; simpl; [now left|].
  destruct (trimEnd s) as [|y r].
  - destruct (isWhite x) eqn:Hx; [now left|]. right. now exists [], x.
  - right. destruct IH as [IH|(a & z & E & Hz)]; [discriminate|].
    exists (x :: a), z. split; [|exact Hz]. simpl. now rewrite E.
Qed.

(** A trimmed string is empty, or begins and ends outside white space. *)
Lemma trim_ends (s : jsstr) :
  trim s = []
  \/ (exists h t, trim s = h :: t /\ isWhite h = false)
     /\ (exists a z, trim s = a ++ [z] /\ isWhite z = false).
Proof.
  unfold trim. destruct (trimEnd_last (trimStart s)) as [E|Hlast]; [now left|].
  right. split; [|exact Hlast].
  destruct (trimEnd_prefix (trimStart s)) as [t Ht].
  pose proof (trimStart_head s) as Hh.
  destruct (trimEnd (trimStart s)) as [|h r].
  - destruct Hlast as (a & z & E & _). now destruct a.
  - exists h, r. split; [reflexivity|]. rewrite Ht in Hh. exact Hh.
Qed.

Lemma squeeze_snoc (b : bool) (a : jsstr) (z : N) :
  isWhite z = false -> squeeze b (a ++ [z]) = squeeze b a ++ [z].
Proof.
  intros Hz. revert b. induction a as [|x a IH]; intros b; simpl.
  - now rewrite Hz.
  - destruct (isWhite x); [destruct b|]; now rewrite IH.
Qed.

Lemma squeeze_ends (s : jsstr) (h : N) (t a : jsstr) (z : N) :
  s = h :: t -> isWhite h = false -> s = a ++ [z] -> isWhite z = false ->
  trim (squeeze false s) = squeeze false s.
Proof.
  intros Eh Hh Ez Hz. unfold trim.
  assert (E1 : trimStart (squeeze false s) = squeeze false s).
  { rewrite Eh. simpl. rewrite Hh. simpl. now rewrite Hh. }
  rewrite E1, Ez, squeeze_snoc by assumption.
  now apply trimEnd_snoc_keep.
Qed.

(** On such a string, collapsing the runs of white space is all that
    [clean] does. *)
Lemma tight_collapse (s : jsstr) :
  tight s -> replace_all WS_RUN (lit " ") s = clean s.
Proof.
  unfold tight. intros Ht. unfold clean. rewrite or_else_nil.
  unfold replace_all. rewrite (proj1 (replace_WS_RUN s)).
  destruct (trim_ends s) as [E|[(h & t & Eh & Hh) (a & z & Ez & Hz)]];
    rewrite Ht in *.
  - subst s. reflexivity.
  - symmetry. now apply (@squeeze_ends s h t a z).
Qed.

Lemma trim_tight (s : jsstr) : tight (trim s).
Proof.
  unfold tight.
  destruct (trim_ends s) as [E|[(h & t & Eh & Hh) (a & z & Ez & Hz)]].
  - now rewrite E.
  - unfold trim at 1.
    assert (E1 : trimStart (trim s) = trim s)
      by (rewrite Eh; simpl; now rewrite Hh).
    rewrite E1, Ez. now apply trimEnd_snoc_keep.
Qed.

End TightFacts.

(** * The statements of the specification *)

Import Str Regex Editor Importer Shape.
Import StrFacts RegexFacts ScanFacts CleanFacts DocFacts PatternFacts.
Import AsciiFacts HeadingFacts SplitFacts TightFacts.

(** Evaluation of the classifier on an ASCII literal: any host agrees
    with [asciiHost] there, which computes. *)
Ltac ascii_side := apply asciiUnits_ok; reflexivity.
Ltac on_ascii :=
  first [ rewrite isHeadingLike_ascii by ascii_side
        | rewrite isAllCapsShort_ascii by ascii_side
        | rewrite isStyleHeading_ascii by ascii_side ];
  vm_compute; reflexivity.

(** ** The all-caps heuristic *)

(** C5. [isAllCapsShort s] (the specification's isShoutingHeading) is
    true exactly when the normalised string is non-empty, has at most 44
    code units, has at least 6 ASCII capitals A-Z and equals its own upper
    case; it is true for "THE END" and false for "A" and "the end". *)
Theorem isAllCapsShort_spec (host : Host) (ok : HostAscii host) :
  (forall s,
      isAllCapsShort s = true <->
      clean s <> [] /\ length (clean s) <= 44
      /\ 6 <= length (filter isAsciiUpper (clean s))
      /\ toUpperCase (clean s) = clean s)
  /\ isAllCapsShort (lit "THE END") = true
  /\ isAllCapsShort (lit "A") = false
  /\ isAllCapsShort (lit "the end") = false.
Proof.
  split; [exact isAllCapsShort_iff|]. repeat split; on_ascii.
Qed.

Lemma isAllCapsShort_spec_witness :
  isAllCapsShort (host := asciiHost) (lit "CHAPTER THE LAST") = true
  /\ clean (lit "CHAPTER THE LAST") <> []
  /\ isAllCapsShort (host := asciiHost) (lit "THE END") = true.
Proof.
  pose proof (isAllCapsShort_spec asciiHost_ok) as [H [H1 _]].
  split; [|split].
  - vm_compute. reflexivity.
  - apply (H (lit "CHAPTER THE LAST")). vm_compute. reflexivity.
  - exact H1.
Defined.

(** ** The heading classifier *)

(** C6. A text whose normalised form has the shape of a chapter heading
    (the keyword "chapter" or "chap." in any case, white space, a token of
    digits, of roman-numeral letters or a number word one to twelve, then a
    word boundary) is heading-like whatever the style; "Chapter 3" and
    "Chapter Three: The Arrival" are heading-like and "it was a dark
    night" is not. *)
Theorem chapter_heading_like (host : Host) (ok : HostAscii host) :
  (forall text style,
      chapterShape (clean text) -> isHeadingLike text style = true)
  /\ isHeadingLike (lit "Chapter 3") [] = true
  /\ isHeadingLike (lit "Chapter Three: The Arrival") [] = true
  /\ isHeadingLike (lit "it was a dark night") [] = false.
Proof.
  split; [exact isHeadingLike_chapter|]. repeat split.
  - apply isHeadingLike_chapter.
    exists (lit "Chapter"), (lit " "), (lit "3"), [].
    repeat split; try reflexivity; try discriminate.
    + now left.
    + repeat constructor.
    + left. split; [discriminate|]. repeat constructor; discriminate.
  - apply isHeadingLike_chapter.
    exists (lit "Chapter"), (lit " "), (lit "Three"), (lit ": The Arrival").
    repeat split; try reflexivity; try discriminate.
    + now left.
    + repeat constructor.
    + right. right. exists "three"%string. split; [|reflexivity].
      simpl. tauto.
  - on_ascii.
Qed.

Lemma chapter_heading_like_witness :
  chapterShape (clean (lit "  chap.   XIV -- Dawn"))
  /\ isHeadingLike (host := asciiHost) (lit "  chap.   XIV -- Dawn") (lit "Normal")
     = true.
Proof.
  assert (H : chapterShape (clean (lit "  chap.   XIV -- Dawn"))).
  { exists (lit "chap."), (lit " "), (lit "XIV"), (lit " -- Dawn").
    repeat split; try reflexivity; try discriminate.
    - now right.
    - repeat constructor.
    - right. left. split; [discriminate|]. repeat constructor; simpl; tauto. }
  split; [exact H|].
  exact (proj1 (chapter_heading_like asciiHost_ok) _ (lit "Normal") H).
Defined.

(** C7. A text that normalises to the empty string, that is, an empty
    text or one of white space only, is never heading-like, whatever the
    style. *)
Theorem blank_not_heading_like (host : Host) :
  (forall text, clean text = [] <-> allWhite text)
  /\ (forall text style, clean text = [] -> isHeadingLike text style = false).
Proof. split; [exact clean_nil_iff|exact isHeadingLike_blank]. Qed.

Lemma blank_not_heading_like_witness :
  clean (lit "   ") = []
  /\ isHeadingLike (host := asciiHost) (lit "   ") (lit "Heading 1") = false.
Proof.
  assert (H : clean (lit "   ") = []) by (vm_compute; reflexivity).
  split; [exact H|].
  exact (proj2 (blank_not_heading_like asciiHost) (lit "   ") (lit "Heading 1") H).
Defined.

(** C10. For a text that does not normalise to the empty string, the
    style rule fires whenever the lower-cased style contains "heading",
    optional white space and the digit 1 or 2 anywhere (so "Subheading 1"
    and "Heading 10" count), while the title rule needs the lower-cased
    style to be exactly "title" (so "Title Page" does not count). *)
Theorem style_heading_like (host : Host) (ok : HostAscii host) :
  (forall text style,
      clean text <> [] ->
      headingStyle [u "1"; u "2"] (toLowerCase style) ->
      isHeadingLike text style = true)
  /\ (forall text style,
         clean text <> [] -> toLowerCase style = lit "title" ->
         isHeadingLike text style = true)
  /\ (forall style,
         isStyleHeading style = true <->
         headingStyle [u "1"; u "2"] (toLowerCase style)
         \/ toLowerCase style = lit "title")
  /\ isHeadingLike (lit "x") (lit "Subheading 1") = true
  /\ isHeadingLike (lit "x") (lit "Heading 10") = true
  /\ isHeadingLike (lit "x") (lit "Title") = true
  /\ isStyleHeading (lit "Title Page") = false
  /\ isHeadingLike (lit "x") (lit "Title Page") = false.
Proof.
  split; [|split; [|split]].
  - intros text style Hne H. apply isHeadingLike_style; [assumption|].
    apply isStyleHeading_iff. now left.
  - intros text style Hne H. apply isHeadingLike_style; [assumption|].
    apply isStyleHeading_iff. now right.
  - exact isStyleHeading_iff.
  - repeat split; on_ascii.
Qed.

Lemma style_heading_like_witness :
  clean (lit "Once upon a time") <> []
  /\ headingStyle [u "1"; u "2"] (toLowerCase (Host := asciiHost) (lit "My Heading  2b"))
  /\ isHeadingLike (host := asciiHost) (lit "Once upon a time") (lit "My Heading  2b")
     = true.
Proof.
  assert (H1 : clean (lit "Once upon a time") <> [])
    by (vm_compute; discriminate).
  assert (H2 : headingStyle [u "1"; u "2"]
                 (toLowerCase (Host := asciiHost) (lit "My Heading  2b"))).
  { exists (lit "my "), (lit "  "), (u "2"), (lit "b").
    repeat split; [repeat constructor|simpl; tauto]. }
  split; [exact H1|split; [exact H2|]].
  exact (proj1 (style_heading_like asciiHost_ok) _ _ H1 H2).
Defined.

(** ** Compiler and projection *)

(** C8, as the code has it. Projecting the compiled body text and
    normalising white space (runs collapsed to one space and ends trimmed,
    as [clean] does) gives the body text normalised in the same way.  The
    projection is trimmed already, so that collapsing its runs is enough
    on that side; collapsing alone on both sides agrees for a body text
    without white space at its ends, and not for every body text.  The
    projection only appends to its buffer, so that projecting the same
    document twice gives the same string. *)
Theorem projection_round_trip :
  (forall bodyText,
      clean (editorToPlainText (textToDoc bodyText)) = clean bodyText)
  /\ (forall bodyText,
         replace_all WS_RUN (lit " ") (editorToPlainText (textToDoc bodyText))
         = clean bodyText)
  /\ (forall bodyText,
         tight bodyText ->
         replace_all WS_RUN (lit " ") (editorToPlainText (textToDoc bodyText))
         = replace_all WS_RUN (lit " ") bodyText)
  /\ (forall doc lines, walk doc lines = lines ++ walk doc [])
  /\ (forall doc,
         let first := editorToPlainText doc in
         let second := editorToPlainText doc in
         first = second).
Proof.
  assert (H : forall bodyText,
             clean (editorToPlainText (textToDoc bodyText)) = clean bodyText).
  { intros bodyText. apply clean_same_words, words_round_trip. }
  assert (H' : forall bodyText,
             replace_all WS_RUN (lit " ") (editorToPlainText (textToDoc bodyText))
             = clean bodyText).
  { intros bodyText. rewrite <- H. apply tight_collapse.
    unfold editorToPlainText. apply trim_tight. }
  split; [exact H|split; [exact H'|split; [|split]]].
  - intros bodyText Ht. rewrite H'. symmetry. now apply tight_collapse.
  - exact walk_app.
  - reflexivity.
Qed.

Lemma projection_round_trip_witness :
  tight (lit "It was  dawn.") 
  /\ replace_all WS_RUN (lit " ")
       (editorToPlainText (textToDoc (lit "It was  dawn.")))
     = lit "It was dawn.".
Proof.
  assert (H : tight (lit "It was  dawn.")) by (vm_compute; reflexivity).
  split; [exact H|].
  rewrite (proj1 (proj2 (proj2 projection_round_trip)) _ H).
  vm_compute. reflexivity.
Defined.

(** C8 as stated fails: with collapsing alone, and no trimming, the two
    sides differ on a body text that begins with white space.  The
    projection of the compiled " a" is "a", which collapses to "a", while
    " a" collapses to " a". *)
Lemma projection_collapse_differs :
  editorToPlainText (textToDoc (lit " a")) = lit "a"
  /\ replace_all WS_RUN (lit " ") (editorToPlainText (textToDoc (lit " a")))
     = lit "a"
  /\ replace_all WS_RUN (lit " ") (lit " a") = lit " a"
  /\ replace_all WS_RUN (lit " ") (editorToPlainText (textToDoc (lit " a")))
     <> replace_all WS_RUN (lit " ") (lit " a").
Proof. repeat split; vm_compute; (reflexivity || discriminate). Qed.

(** ** Segmentation *)

(** C1. [splitFromParagraphs] is total and its result has at least one
    chapter; when no paragraph is left by the filter, that chapter is
    titled "Chapter 1" and its document is the empty one, whose text is
    empty. *)
Theorem splitFromParagraphs_has_chapter (host : Host)
        (paragraphs : list paragraph) (fallbackTitle : jsstr) :
  1 <= length (chapters (splitFromParagraphs paragraphs fallbackTitle))
  /\ (usable paragraphs = [] <->
      Forall (fun p => allWhite (text p)) paragraphs)
  /\ (usable paragraphs = [] ->
      chapters (splitFromParagraphs paragraphs fallbackTitle)
      = [{| ctitle := lit "Chapter 1"; doc := emptyDoc |}]
      /\ editorToPlainText emptyDoc = []).
Proof.
  split; [|split; [apply usable_nil_iff|]].
  - unfold splitFromParagraphs.
    destruct (detectTitle (usable paragraphs) fallbackTitle) as [t paras].
    cbn [chapters]. rewrite cleanup_length.
    destruct (pushCurrent (mainLoop paras)); simpl; lia.
  - intros H. unfold splitFromParagraphs. rewrite H. split; reflexivity.
Qed.

Lemma splitFromParagraphs_has_chapter_witness :
  usable [{| text := lit "  "; style := lit "Title" |};
          {| text := []; style := [] |}] = []
  /\ chapters (splitFromParagraphs (host := asciiHost)
                 [{| text := lit "  "; style := lit "Title" |};
                  {| text := []; style := [] |}] (lit "Draft"))
     = [{| ctitle := lit "Chapter 1"; doc := emptyDoc |}].
Proof.
  assert (H : usable [{| text := lit "  "; style := lit "Title" |};
                      {| text := []; style := [] |}] = [])
    by (vm_compute; reflexivity).
  split; [exact H|].
  exact (proj1 (proj2 (proj2 (splitFromParagraphs_has_chapter
                                asciiHost _ (lit "Draft"))) H)).
Defined.

(** C2. On the paragraphs "Hello world" and "It rained all day.", none of
    them heading-like, the result is one chapter, but its title is
    "Chapter 1: Hello world" and its body holds the second paragraph only:
    the first paragraph was merged into the numbered title that the loop
    made up. *)
Theorem no_heading_first_line_swallowed (host : Host) (ok : HostAscii host) :
  let paragraphs := [{| text := lit "Hello world"; style := [] |};
                     {| text := lit "It rained all day."; style := [] |}] in
  Forall (fun p => isHeadingLike (text p) (style p) = false) paragraphs
  /\ splitFromParagraphs paragraphs (lit "Book")
     = {| novelTitle := lit "Book";
          chapters := [{| ctitle := lit "Chapter 1: Hello world";
                          doc := textToDoc (lit "It rained all day.") |}] |}.
Proof.
  split.
  - repeat constructor; on_ascii.
  - rewrite splitFromParagraphs_ascii by (apply asciiParagraphs_ok; reflexivity).
    vm_compute. reflexivity.
Qed.

Lemma no_heading_first_line_swallowed_witness :
  map ctitle
      (chapters (splitFromParagraphs (host := asciiHost)
                   [{| text := lit "Hello world"; style := [] |};
                    {| text := lit "It rained all day."; style := [] |}]
                   (lit "Book")))
  = [lit "Chapter 1: Hello world"].
Proof.
  rewrite (proj2 (no_heading_first_line_swallowed asciiHost_ok)).
  reflexivity.
Defined.







(** * Further properties of the code *)

Import Decoders Exporter Terms.

(** ** Normalised strings *)

Module NormalFacts.
Import Str Regex Editor Importer Shape Terms.
Import StrFacts RegexFacts ScanFacts CleanFacts TightFacts.

Lemma words_go_solid (cur w s : jsstr) :
  Forall (fun c => isWhite c = false) w ->
  words_go cur (w ++ s) = words_go (cur ++ w) s.
Proof.
  intros H. revert cur. induction H as [|x w Hx _ IH]; intros cur; simpl.
  - now rewrite app_nil_r.
  - rewrite Hx, IH, <- app_assoc. reflexivity.
Qed.

Lemma words_one (w : jsstr) : solid w -> words w = [w].
Proof.
  intros [Hne H]. unfold words.
  pose proof (words_go_solid [] [] H) as E. rewrite app_nil_r in E.
  rewrite E. simpl. now destruct w.
Qed.

Lemma words_join (ws : list jsstr) :
  Forall solid ws -> words (join [32%N] ws) = ws.
Proof.
  induction 1 as [|w ws Hw Hws IH]; [reflexivity|].
  rewrite join_cons. destruct ws as [|w' ws].
  - now apply words_one.
  - cbn [app]. rewrite words_split by reflexivity.
    now rewrite IH, words_one.
Qed.

Lemma words_go_are_solid (cur s : jsstr) :
  Forall (fun c => isWhite c = false) cur -> Forall solid (words_go cur s).
Proof.
  revert cur. induction s as [|x s IH]; intros cur Hcur; simpl.
  - destruct cur; constructor; [|constructor]. split; [discriminate|assumption].
  - destruct (isWhite x) eqn:Hx.
    + apply Forall_app. split; [|apply IH; constructor].
      destruct cur; constructor; [|constructor]. split; [discriminate|assumption].
    + apply IH. apply Forall_app. split; [assumption|]. now constructor.
Qed.

Lemma words_solid (s : jsstr) : Forall solid (words s).
Proof. apply words_go_are_solid. constructor. Qed.

Lemma clean_join (ws : list jsstr) :
  Forall solid ws -> clean (join [32%N] ws) = join [32%N] ws.
Proof. intros H. now rewrite clean_words, words_join. Qed.

Lemma clean_idem (s : jsstr) : clean (clean s) = clean s.
Proof. rewrite (clean_words s). apply clean_join, words_solid. Qed.

Lemma clean_tight (s : jsstr) : trim (clean s) = clean s.
Proof. unfold clean. apply trim_tight. Qed.

(** Decimal numerals. *)
Lemma digits_solid (d : Decimal.uint) :
  Forall (fun c => isWhite c = false)
         (lit (DecimalString.NilEmpty.string_of_uint d)).
Proof.
  induction d; [constructor|..];
    apply Forall_cons; [reflexivity|exact IHd| .. ]; try reflexivity; exact IHd.
Qed.

Lemma of_nat_solid (n : nat) : solid (of_nat n).
Proof.
  unfold of_nat, DecimalString.NilZero.string_of_uint. split.
  - destruct (Nat.to_uint n); discriminate.
  - destruct (Nat.to_uint n) eqn:E; try (rewrite <- E; apply digits_solid).
    repeat constructor.
Qed.

Lemma chapterN_normalised (n : nat) :
  chapterN n <> [] /\ clean (chapterN n) = chapterN n.
Proof.
  split; [discriminate|].
  change (chapterN n) with (join [32%N] [lit "Chapter"; of_nat n]).
  apply clean_join. constructor; [|constructor; [apply of_nat_solid|constructor]].
  split; [discriminate|]. repeat constructor.
Qed.

End NormalFacts.

(** X1. [clean] keeps the words of a string, the maximal runs without
    white space, and joins them by single spaces; so its result has no
    white space at the ends, and cleaning twice is cleaning once. *)
Theorem clean_normal_form (s : jsstr) :
  clean s = join [32%N] (words s)
  /\ Forall (fun w => w <> [] /\ Forall (fun c => isWhite c = false) w) (words s)
  /\ trim (clean s) = clean s
  /\ clean (clean s) = clean s.
Proof.
  split; [apply clean_words|split; [apply NormalFacts.words_solid|split]].
  - apply NormalFacts.clean_tight.
  - apply NormalFacts.clean_idem.
Qed.

(** ** The title from the file name *)

Module FilenameFacts.
Import Str Regex Editor Importer Shape Terms.
Import StrFacts RegexFacts ScanFacts CleanFacts PatternFacts.

Lemma has_not_unit (c x : N) : has false (ncs [Ch c]) x = negb (c =? x)%N.
Proof. unfold has. simpl. now rewrite orb_false_r. Qed.

Lemma forallb_not_unit (c : N) (e : jsstr) :
  forallb (has false (ncs [Ch c])) e = true <-> ~ In c e.
Proof.
  rewrite forallb_forall. split.
  - intros H Hin. specialize (H c Hin). rewrite has_not_unit, N.eqb_refl in H.
    discriminate.
  - intros H x Hx. rewrite has_not_unit. apply negb_true_iff, N.eqb_neq.
    intros ->. contradiction.
Qed.

(** /\.[^.]+$/ matches at a position exactly when what is left is a dot
    and a non-empty rest without dots; the match is all of it. *)
Lemma exec_EXTENSION_Some prev (s : jsstr) n :
  exec EXTENSION prev s = Some n ->
  exists e, s = u "." :: e /\ e <> [] /\ ~ In (u ".") e /\ n = length s.
Proof.
  intros H. apply exec_sound in H as (m & f & -> & HM & ->).
  unfold EXTENSION in HM. cbn [pattern ignoreCase seqs] in HM.
  inversion HM as [| |? ? ? m1 m2 ? H1 H2| | | | | | | |]; subst.
  inversion H2 as [| |? ? ? m3 m4 ? H3 H4| | | | | | | |]; subst.
  apply Mat_chr in H1 as (x & -> & Hx). rewrite has_unit in Hx.
  apply N.eqb_eq in Hx. subst x.
  inversion H4; subst. inversion H3 as [| | | | | | |? ? ? ? ? Hall Hn| | |]; subst.
  exists m3. rewrite !app_nil_r. repeat split.
  - intros ->. simpl in Hn. lia.
  - now apply forallb_not_unit.
Qed.

Lemma exec_EXTENSION_dot prev (e : jsstr) :
  e <> [] -> ~ In (u ".") e ->
  exec EXTENSION prev (u "." :: e) = Some (S (length e)).
Proof.
  intros Hne Hno.
  assert (HM : Mat false (pattern EXTENSION) prev (u "." :: e) []).
  { unfold EXTENSION. cbn [pattern seqs].
    apply (Mat_seq (m1 := [u "."]) (m2 := e)); [reflexivity|apply MOne, has_exact|].
    apply (Mat_seq (m1 := e) (m2 := [])); [now rewrite app_nil_r| |apply MEol].
    apply MMany; [now apply forallb_not_unit|]. destruct e; [congruence|simpl; lia]. }
  apply (exec_complete EXTENSION) in HM. rewrite app_nil_r in HM.
  destruct (exec EXTENSION prev (u "." :: e)) as [n|] eqn:E; [|congruence].
  apply exec_EXTENSION_Some in E as (_ & _ & _ & _ & ->). reflexivity.
Qed.

Lemma strip_none (s : jsstr) prev :
  ~ In (u ".") s -> replace_first_go EXTENSION [] prev s = s.
Proof.
  revert prev. induction s as [|x s IH]; intros prev Hno; cbn [replace_first_go].
  - destruct (exec EXTENSION prev []) eqn:E; [|reflexivity].
    apply exec_EXTENSION_Some in E as (e & E & _). discriminate.
  - destruct (exec EXTENSION prev (x :: s)) eqn:E.
    + apply exec_EXTENSION_Some in E as (e & E & _). injection E as -> _.
      exfalso. apply Hno. now left.
    + rewrite IH; [reflexivity|]. intros H. apply Hno. now right.
Qed.

Lemma strip_last (base e : jsstr) prev :
  e <> [] -> ~ In (u ".") e ->
  replace_first_go EXTENSION [] prev (base ++ u "." :: e) = base.
Proof.
  intros Hne Hno. revert prev. induction base as [|x base IH]; intros prev.
  - cbn [app replace_first_go]. rewrite exec_EXTENSION_dot by assumption.
    cbn [app skipn]. apply skipn_all.
  - cbn [app replace_first_go].
    destruct (exec EXTENSION prev (x :: base ++ u "." :: e)) eqn:E.
    + apply exec_EXTENSION_Some in E as (e' & E & _ & Hno' & _).
      injection E as _ E. exfalso. apply Hno'. rewrite <- E.
      apply in_or_app. right. now left.
    + now rewrite IH.
Qed.

End FilenameFacts.

(** X2. The title that [filenameToTitle] makes of a file name is never
    empty and is normalised: cleaning it again gives the same string. *)
Theorem filenameToTitle_normalised (name : jsstr) :
  filenameToTitle name <> []
  /\ clean (filenameToTitle name) = filenameToTitle name.
Proof.
  unfold filenameToTitle.
  destruct (clean (replace_first EXTENSION []
                     (or_else name (lit "Untitled Novel")))) as [|c t] eqn:E.
  - split; [discriminate|]. vm_compute. reflexivity.
  - cbn [or_else truthy]. split; [discriminate|].
    rewrite <- E. apply NormalFacts.clean_idem.
Qed.

(** X3. [filenameToTitle] removes the last extension only: for a name
    [base.ext] with a non-empty extension without dots the title is the
    normalised [base], and a name without a dot is normalised as it is;
    when nothing is left the title is "Untitled Novel". *)
Theorem filenameToTitle_extension :
  (forall base ext,
      ext <> [] -> ~ In (u ".") ext ->
      filenameToTitle (base ++ u "." :: ext)
      = match clean base with [] => lit "Untitled Novel" | t => t end)
  /\ (forall name,
         ~ In (u ".") name ->
         filenameToTitle name
         = match clean name with [] => lit "Untitled Novel" | t => t end).
Proof.
  split.
  - intros base ext Hne Hno. unfold filenameToTitle, replace_first.
    replace (or_else (base ++ u "." :: ext) (lit "Untitled Novel"))
      with (base ++ u "." :: ext) by now destruct base.
    rewrite FilenameFacts.strip_last by assumption. now destruct (clean base).
  - intros name Hno. unfold filenameToTitle, replace_first.
    destruct name as [|x name].
    + vm_compute. reflexivity.
    + cbn [or_else truthy]. rewrite FilenameFacts.strip_none by assumption.
      now destruct (clean (x :: name)).
Qed.

Lemma filenameToTitle_extension_witness :
  lit "docx" <> [] /\ ~ In (u ".") (lit "docx")
  /\ filenameToTitle (lit "my_manuscript.v2.docx") = lit "my_manuscript.v2".
Proof.
  assert (H1 : lit "docx" <> []) by discriminate.
  assert (H2 : ~ In (u ".") (lit "docx"))
    by (simpl; intros [H|[H|[H|[H|[]]]]]; discriminate).
  split; [exact H1|split; [exact H2|]].
  change (lit "my_manuscript.v2.docx")
    with (lit "my_manuscript.v2" ++ u "." :: lit "docx").
  rewrite (proj1 filenameToTitle_extension _ _ H1 H2).
  vm_compute. reflexivity.
Defined.

(** ** What the compiler builds *)

Module CompileFacts.
Import Str Regex Editor Importer Shape Terms.
Import StrFacts RegexFacts ScanFacts CleanFacts DocFacts TightFacts.

(** A global replace by a one-character pattern goes unit by unit. *)
Lemma replace_all_one ic c (rep s : jsstr) :
  replace_all {| pattern := One c; ignoreCase := ic |} rep s
  = flat_map (fun x => if has ic c x then rep else [x]) s.
Proof.
  unfold replace_all. generalize (@None N).
  induction s as [|x s IH]; intros prev; cbn [replace_go flat_map].
  - now rewrite exec_one.
  - rewrite exec_one. destruct (has ic c x); cbn [app]; now rewrite IH.
Qed.

Lemma no_CR_left (s : jsstr) : ~ In CR (replace_all CR_RE [LF] s).
Proof.
  unfold CR_RE, chr. rewrite replace_all_one. intros H.
  apply in_flat_map in H as (y & _ & H). rewrite has_unit in H.
  destruct (N.eqb_spec CR y) as [E|E]; destruct H as [H|[]]; [discriminate|].
  congruence.
Qed.

Lemma split_go_In (r : regexp) (s : jsstr) :
  forall prev skip cur p x,
    In p (split_go r prev skip cur s) -> In x p -> In x cur \/ In x s.
Proof.
  induction s as [|y s IH]; intros prev skip cur p x Hp Hx; simpl in Hp.
  - destruct Hp as [<-|[]]. now left.
  - destruct skip as [|k].
    + destruct (exec r prev (y :: s)) as [[|n]|].
      * destruct cur as [|c cur].
        -- apply IH with (x := x) in Hp; [|assumption].
           destruct Hp as [[<-|[]]|Hp]; right; [now left|now right].
        -- destruct Hp as [<-|Hp]; [now left|].
           apply IH with (x := x) in Hp; [|assumption].
           destruct Hp as [[<-|[]]|Hp]; right; [now left|now right].
      * destruct Hp as [<-|Hp]; [now left|].
        apply IH with (x := x) in Hp; [|assumption].
        destruct Hp as [[]|Hp]. right. now right.
      * apply IH with (x := x) in Hp; [|assumption].
        destruct Hp as [Hp|Hp]; [|right; now right].
        apply in_app_or in Hp as [Hp|[<-|[]]]; [now left|right; now left].
    + apply IH with (x := x) in Hp; [|assumption].
      destruct Hp as [Hp|Hp]; [now left|right; now right].
Qed.

Lemma split_In (r : regexp) (s p : jsstr) (x : N) :
  In p (split r s) -> In x p -> In x s.
Proof.
  destruct s as [|y s]; unfold split.
  - destruct (exec r None []); [intros []|]. intros [<-|[]] [].
  - intros Hp Hx. apply split_go_In with (x := x) in Hp; [|exact Hx].
    destruct Hp as [[]|H]. exact H.
Qed.

Lemma trimStart_In (s : jsstr) (x : N) : In x (trimStart s) -> In x s.
Proof.
  induction s as [|y s IH]; simpl; [auto|].
  destruct (isWhite y); [right; auto|auto].
Qed.

Lemma trimEnd_In (s : jsstr) (x : N) : In x (trimEnd s) -> In x s.
Proof.
  intros H. destruct (trimEnd_prefix s) as [t E]. rewrite E.
  apply in_or_app. now left.
Qed.

Lemma trim_In (s : jsstr) (x : N) : In x (trim s) -> In x s.
Proof. intros H. now apply trimStart_In, trimEnd_In. Qed.

Lemma split_unit_go_pieces (c : N) (s : jsstr) :
  forall cur l,
    In l (split_unit_go c cur s) ->
    (~ In c cur -> ~ In c l) /\ (forall x, In x l -> In x cur \/ In x s).
Proof.
  induction s as [|y s IH]; intros cur l Hl; simpl in Hl.
  - destruct Hl as [<-|[]]. split; auto.
  - destruct (N.eqb_spec y c) as [->|Hy].
    + destruct Hl as [<-|Hl]; [split; auto|].
      apply IH in Hl as [H1 H2]. split; [intros _; apply H1; auto|].
      intros x Hx. apply H2 in Hx as [[]|Hx]. right. now right.
    + apply IH in Hl as [H1 H2]. split.
      * intros Hc. apply H1. intros H. apply in_app_or in H as [H|[H|[]]]; auto.
      * intros x Hx. apply H2 in Hx as [Hx|Hx]; [|right; now right].
        apply in_app_or in Hx as [Hx|[<-|[]]]; [now left|right; now left].
Qed.

Lemma lines_content_inline (ls : list jsstr) :
  Forall (fun l => ~ In LF l /\ ~ In CR l) ls ->
  Forall isInline (lines_content ls).
Proof.
  induction 1 as [|t rest [H1 H2] _ IH]; [constructor|].
  cbn [lines_content]. apply Forall_app. split; [|apply Forall_app; split].
  - destruct t as [|c t]; [constructor|]. constructor; [|constructor].
    right. exists (c :: t). repeat split; auto. discriminate.
  - destruct rest; constructor; [now left|constructor].
  - exact IH.
Qed.

Lemma lines_content_nil (ls : list jsstr) :
  lines_content ls = [] -> join [LF] ls = [].
Proof.
  destruct ls as [|t rest]; [reflexivity|]. cbn [lines_content].
  destruct t; [|discriminate]. destruct rest; [reflexivity|discriminate].
Qed.

Lemma paragraphToTiptap_compiled (b : jsstr) :
  b <> [] -> ~ In CR b -> isCompiledParagraph (paragraphToTiptap b).
Proof.
  intros Hne Hcr. unfold paragraphToTiptap. rewrite or_else_nil.
  assert (Hin : Forall isInline (lines_content (split_unit LF b))).
  { apply lines_content_inline, Forall_forall. intros l Hl.
    apply split_unit_go_pieces in Hl as [H1 H2]. split; [now apply H1|].
    intros H. apply H2 in H as [[]|H]. contradiction. }
  destruct (lines_content (split_unit LF b)) as [|n l] eqn:E.
  - apply lines_content_nil in E. rewrite split_unit_join in E. contradiction.
  - exists (n :: l). repeat split; [discriminate|exact Hin].
Qed.

Lemma blocksOf_blocks (text b : jsstr) :
  In b (blocksOf text) -> b <> [] /\ trim b = b /\ ~ In CR b.
Proof.
  unfold blocksOf. intros H. apply filter_In in H as [H Hb].
  apply in_map_iff in H as (p & <- & Hp). split; [now apply truthy_true|].
  split; [apply trim_tight|]. intros Hx. apply trim_In in Hx.
  eapply split_In in Hx; [|exact Hp]. now apply no_CR_left in Hx.
Qed.

Lemma textToDoc_blocks (text : jsstr) :
  textToDoc text
  = Node (lit "doc") None
         (Some (match blocksOf text with
                | [] => [emptyParagraph]
                | _ :: _ => map paragraphToTiptap (blocksOf text)
                end)).
Proof. reflexivity. Qed.

Lemma words_blocksOf (text : jsstr) :
  concat (map words (blocksOf text)) = words text.
Proof.
  unfold blocksOf. rewrite words_blocks, (split_words whiteOnly_NL2).
  rewrite (replace_all_words whiteOnly_CR) by (repeat constructor || discriminate).
  rewrite (replace_all_words whiteOnly_CRLF) by (repeat constructor || discriminate).
  now rewrite or_else_nil.
Qed.

Lemma blocksOf_nil_iff (text : jsstr) : blocksOf text = [] <-> allWhite text.
Proof.
  split.
  - intros H. apply words_nil_white. rewrite <- words_blocksOf, H. reflexivity.
  - intros H. apply words_white in H. rewrite <- words_blocksOf in H.
    destruct (blocksOf text) as [|b bs] eqn:E; [reflexivity|exfalso].
    destruct (blocksOf_blocks text b) as (Hne & Ht & _); [rewrite E; now left|].
    simpl in H. apply app_eq_nil in H as [H _].
    apply words_nil_white, trim_white in H. congruence.
Qed.

Lemma textToDoc_compiled (text : jsstr) : isCompiledDoc (textToDoc text).
Proof.
  rewrite textToDoc_blocks.
  pose proof (blocksOf_blocks text) as H.
  destruct (blocksOf text) as [|b bs]; [now left|right].
  exists (map paragraphToTiptap (b :: bs)). repeat split; [discriminate|].
  apply Forall_forall. intros n Hn. apply in_map_iff in Hn as (c & <- & Hc).
  destruct (H c Hc) as (Hne & _ & Hcr). now apply paragraphToTiptap_compiled.
Qed.

End CompileFacts.

(** X4. [textToDoc] always builds a document of at least one paragraph:
    either the empty document, exactly when the text is white space only,
    or paragraphs of non-empty content in which every text node is
    non-empty and holds no line feed and no carriage return. *)
Theorem textToDoc_well_formed (text : jsstr) :
  isCompiledDoc (textToDoc text)
  /\ (textToDoc text = emptyDoc <-> allWhite text).
Proof.
  split; [apply CompileFacts.textToDoc_compiled|].
  rewrite <- CompileFacts.blocksOf_nil_iff, CompileFacts.textToDoc_blocks.
  destruct (blocksOf text) as [|b bs]; [split; reflexivity|].
  split; discriminate.
Qed.

(** ** The result of the segmentation *)

Module ResultFacts.
Import Str Regex Editor Importer Shape Terms.
Import StrFacts CleanFacts SplitFacts NormalFacts CompileFacts.

Lemma cleanup_well_formed (l : list chapter) :
  forall i,
    Forall (fun c => isCompiledDoc (doc c)) l ->
    Forall (fun c => ctitle c <> [] /\ clean (ctitle c) = ctitle c
                     /\ isCompiledDoc (doc c)) (cleanup i l).
Proof.
  induction l as [|c l IH]; intros i H; [constructor|].
  inversion H; subst. cbn [cleanup]. constructor; [|now apply IH].
  cbn [ctitle doc]. split; [|split; [|assumption]].
  - destruct (clean (ctitle c)); [apply chapterN_normalised|discriminate].
  - destruct (clean (ctitle c)) eqn:E; [apply chapterN_normalised|].
    cbn [or_else truthy]. rewrite <- E. apply clean_idem.
Qed.

Section AnyHost.
Context {host : Host}.

Lemma pushCurrent_docs (st : state) :
  Forall (fun c => isCompiledDoc (doc c)) (done st) ->
  Forall (fun c => isCompiledDoc (doc c)) (pushCurrent st).
Proof.
  intros H. unfold pushCurrent. destruct (current st); [|exact H].
  apply Forall_app. split; [exact H|]. constructor; [|constructor].
  apply textToDoc_compiled.
Qed.

Lemma step_docs (st : state) (p : paragraph) :
  Forall (fun c => isCompiledDoc (doc c)) (done st) ->
  Forall (fun c => isCompiledDoc (doc c)) (done (step st p)).
Proof.
  intros H. unfold step.
  destruct (isHeadingLike (text p) (style p)); [now apply pushCurrent_docs|].
  now destruct (isSubtitle _ _).
Qed.

Lemma mainLoop_docs (paras : list paragraph) :
  forall st,
    Forall (fun c => isCompiledDoc (doc c)) (done st) ->
    Forall (fun c => isCompiledDoc (doc c)) (done (fold_left step paras st)).
Proof.
  induction paras as [|p paras IH]; intros st H; [exact H|].
  cbn [fold_left]. now apply IH, step_docs.
Qed.

Lemma pushCurrent_length (st : state) :
  length (pushCurrent st)
  = length (done st) + match current st with Some _ => 1 | None => 0 end.
Proof.
  unfold pushCurrent. destruct (current st); [|lia].
  rewrite length_app. reflexivity.
Qed.

(** With a draft open, every heading-like paragraph adds one chapter and
    no other paragraph does. *)
Lemma mainLoop_count (paras : list paragraph) :
  forall st,
    current st <> None ->
    length (pushCurrent (fold_left step paras st))
    = length (pushCurrent st) + headings paras.
Proof.
  unfold headings.
  induction paras as [|p paras IH]; intros st Hc; cbn [fold_left filter].
  - simpl. lia.
  - assert (Hs : current (step st p) <> None
                 /\ length (pushCurrent (step st p))
                    = length (pushCurrent st)
                      + if isHeadingLike (text p) (style p) then 1 else 0).
    { unfold step. destruct (isHeadingLike (text p) (style p)).
      - split; [discriminate|]. rewrite (pushCurrent_length {| done := _ |}).
        simpl. lia.
      - destruct (current st) as [c|] eqn:E; [|congruence].
        destruct (isSubtitle c (text p)); split; try discriminate;
          rewrite !pushCurrent_length; cbn [done current]; rewrite E; lia. }
    destruct Hs as [Hc' Hl]. rewrite (IH _ Hc'), Hl.
    destruct (isHeadingLike (text p) (style p)); simpl; lia.
Qed.

Lemma first_step (p : paragraph) :
  current (step {| done := []; current := None |} p) <> None
  /\ length (pushCurrent (step {| done := []; current := None |} p)) = 1.
Proof.
  unfold step. destruct (isHeadingLike (text p) (style p)).
  - split; [discriminate|reflexivity].
  - cbn [current done]. destruct (isSubtitle _ _); split; try discriminate;
      rewrite pushCurrent_length; reflexivity.
Qed.

Lemma detectTitle_snd (l : list paragraph) (fallbackTitle : jsstr) :
  snd (detectTitle l fallbackTitle) = snd (detectTitle l []).
Proof. unfold detectTitle. destruct l; [reflexivity|]. now destruct (isTitle p). Qed.

Lemma detectTitle_fst (l : list paragraph) (fallbackTitle : jsstr) :
  fst (detectTitle l fallbackTitle) <> [].
Proof.
  unfold detectTitle.
  assert (H : or_else fallbackTitle (lit "Untitled Novel") <> [])
    by (destruct fallbackTitle; discriminate).
  destruct l as [|p l]; [exact H|]. destruct (isTitle p) eqn:E; [|exact H].
  cbn [fst]. unfold isTitle in E. apply truthy_true.
  now destruct (truthy (clean (text p))).
Qed.

End AnyHost.

End ResultFacts.

(** X5. The result of [splitFromParagraphs] is well formed whatever the
    input: the title of the novel is not empty, and every chapter has a
    non-empty, normalised title and a document as [textToDoc] builds
    them. *)
Theorem result_well_formed (host : Host) (paragraphs : list paragraph)
        (fallbackTitle : jsstr) :
  novelTitle (splitFromParagraphs paragraphs fallbackTitle) <> []
  /\ Forall (fun c => ctitle c <> [] /\ clean (ctitle c) = ctitle c
                      /\ isCompiledDoc (doc c))
            (chapters (splitFromParagraphs paragraphs fallbackTitle)).
Proof.
  unfold splitFromParagraphs.
  pose proof (ResultFacts.detectTitle_fst (usable paragraphs) fallbackTitle) as Ht.
  destruct (detectTitle (usable paragraphs) fallbackTitle) as [t paras].
  cbn [novelTitle chapters]. split; [exact Ht|].
  apply ResultFacts.cleanup_well_formed.
  assert (H : Forall (fun c => isCompiledDoc (doc c))
                     (pushCurrent (mainLoop paras))).
  { apply ResultFacts.pushCurrent_docs, ResultFacts.mainLoop_docs. constructor. }
  destruct (pushCurrent (mainLoop paras)); [|exact H].
  constructor; [|constructor]. apply CompileFacts.textToDoc_compiled.
Qed.

(** X6. The number of chapters: one for the first paragraph of the
    stream left by the title detection, whatever it is, and one more for
    every later paragraph that is heading-like; one chapter when the
    stream is empty. *)
Theorem chapter_count (host : Host) (paragraphs : list paragraph)
        (fallbackTitle : jsstr) :
  length (chapters (splitFromParagraphs paragraphs fallbackTitle))
  = match stream paragraphs with
    | [] => 1
    | _ :: rest => 1 + headings rest
    end.
Proof.
  unfold splitFromParagraphs, stream.
  rewrite <- (ResultFacts.detectTitle_snd (usable paragraphs) fallbackTitle).
  destruct (detectTitle (usable paragraphs) fallbackTitle) as [t paras].
  cbn [chapters snd]. rewrite cleanup_length.
  destruct paras as [|p rest]; [reflexivity|].
  unfold mainLoop. cbn [fold_left].
  destruct (ResultFacts.first_step p) as [Hc Hl].
  pose proof (ResultFacts.mainLoop_count rest _ Hc) as H. rewrite Hl in H.
  destruct (pushCurrent (fold_left step rest _)); simpl in *; lia.
Qed.

(** ** The projection of a compiled text, exactly *)

Module ProjectionFacts.
Import Str Regex Editor Importer Shape Terms Exporter.
Import StrFacts RegexFacts ScanFacts CleanFacts DocFacts TightFacts CompileFacts.

Lemma nbl_tail (x : N) (s : jsstr) : noBlankLine (x :: s) -> noBlankLine s.
Proof. destruct s; simpl; tauto. Qed.

Lemma nbl_app_l (a b : jsstr) : noBlankLine (a ++ b) -> noBlankLine a.
Proof.
  induction a as [|x a IH]; [now simpl|]. intros H.
  destruct a as [|y a]; [exact I|]. cbn [app noBlankLine] in *.
  destruct H as [H1 H2]. split; [exact H1|]. apply IH, H2.
Qed.

Lemma nbl_app_r (a b : jsstr) : noBlankLine (a ++ b) -> noBlankLine b.
Proof.
  induction a as [|x a IH]; [auto|]. intros H. apply IH.
  now apply nbl_tail in H.
Qed.

(** Two strings without blank line that overlap on [x] glue. *)
Lemma nbl_glue (a : jsstr) (x : N) (b : jsstr) :
  noBlankLine (a ++ [x]) -> noBlankLine (x :: b) -> noBlankLine (a ++ x :: b).
Proof.
  induction a as [|y a IH]; [auto|]. intros Ha Hb.
  destruct a as [|z a].
  - cbn [app noBlankLine] in *. tauto.
  - cbn [app noBlankLine] in *. destruct Ha as [H1 H2]. split; [exact H1|].
    now apply IH.
Qed.

Lemma nbl_snoc (a : jsstr) (x y : N) :
  noBlankLine (a ++ [x]) -> ~ (x = LF /\ y = LF) -> noBlankLine (a ++ [x; y]).
Proof. intros Ha H. apply nbl_glue; [exact Ha|]. simpl. tauto. Qed.

Lemma span_LF (s : jsstr) :
  span (has false (cs [Ch LF])) s
  = match s with
    | x :: s' => if (LF =? x)%N then S (span (has false (cs [Ch LF])) s') else 0
    | [] => 0
    end.
Proof. destruct s; simpl; [reflexivity|]. now rewrite has_unit. Qed.

Lemma nbl_span (s : jsstr) :
  noBlankLine s -> span (has false (cs [Ch LF])) s <= 1.
Proof.
  intros H. rewrite span_LF. destruct s as [|x s]; [lia|].
  destruct (N.eqb_spec LF x) as [<-|_]; [|lia].
  rewrite span_LF. destruct s as [|y s]; [lia|].
  destruct (N.eqb_spec LF y) as [<-|_]; [|lia].
  simpl in H. tauto.
Qed.

(** Without a blank line there is nothing for /\n{3,}/g to replace. *)
Lemma replace_NL3_none (rep s : jsstr) :
  noBlankLine s -> replace_all NL3 rep s = s.
Proof.
  unfold replace_all. generalize (@None N).
  induction s as [|x s IH]; intros prev H; cbn [replace_go].
  - unfold NL3. now rewrite exec_many.
  - unfold NL3 at 1. rewrite exec_many.
    pose proof (nbl_span _ H) as Hs.
    destruct (Nat.leb_spec 3 (span (has false (cs [Ch LF])) (x :: s))); [lia|].
    rewrite IH; [reflexivity|]. now apply nbl_tail in H.
Qed.

(** The pieces between the matches of /\n{2,}/ have no blank line. *)
Lemma split_NL2_pieces (s : jsstr) :
  (forall prev cur,
      noBlankLine (cur ++ firstn 1 s) ->
      Forall noBlankLine (split_go NL2 prev 0 cur s))
  /\ (forall prev skip, Forall noBlankLine (split_go NL2 prev skip [] s)).
Proof.
  induction s as [|x s [IHA IHB]].
  - split.
    + intros prev cur H. simpl in *. rewrite app_nil_r in H.
      constructor; [exact H|constructor].
    + intros prev skip. simpl. constructor; [exact I|constructor].
  - assert (HA : forall prev cur,
               noBlankLine (cur ++ firstn 1 (x :: s)) ->
               Forall noBlankLine (split_go NL2 prev 0 cur (x :: s))).
    { intros prev cur H. cbn [split_go firstn] in *.
      unfold NL2 at 1. rewrite exec_many.
      destruct (Nat.leb_spec 2 (span (has false (cs [Ch LF])) (x :: s)))
        as [Hs|Hs].
      - destruct (span _ (x :: s)) as [|n]; [lia|].
        constructor; [now apply nbl_app_l in H|apply IHB].
      - apply IHA. rewrite <- app_assoc. cbn [app].
        destruct s as [|y s]; [exact H|]. cbn [firstn].
        apply nbl_snoc; [exact H|]. intros [-> ->].
        rewrite span_LF, N.eqb_refl, span_LF, N.eqb_refl in Hs. lia. }
    split; [exact HA|]. intros prev [|skip]; [|apply IHB].
    apply HA. simpl. exact I.
Qed.

Lemma nbl_trim (s : jsstr) : noBlankLine s -> noBlankLine (trim s).
Proof.
  intros H. unfold trim.
  assert (Hs : noBlankLine (trimStart s)).
  { induction s as [|x s IH]; [exact I|]. simpl.
    destruct (isWhite x); [apply IH; now apply nbl_tail in H|exact H]. }
  destruct (trimEnd_prefix (trimStart s)) as [t E]. rewrite E in Hs.
  now apply nbl_app_l in Hs.
Qed.

Lemma blocksOf_nbl (text b : jsstr) : In b (blocksOf text) -> noBlankLine b.
Proof.
  unfold blocksOf. intros H. apply filter_In in H as [H _].
  apply in_map_iff in H as (p & <- & Hp). apply nbl_trim.
  generalize dependent Hp. generalize (replace_all CR_RE [LF]
    (replace_all CRLF [LF] (or_else text []))). intros raw Hp.
  destruct raw as [|x raw]; unfold split in Hp.
  - destruct (exec NL2 None []); [destruct Hp|]. destruct Hp as [<-|[]]. exact I.
  - eapply Forall_forall; [|exact Hp].
    apply (proj1 (split_NL2_pieces (x :: raw))). simpl. exact I.
Qed.

(** A string without white space at its ends, when it is not empty. *)
Lemma tight_ends (b : jsstr) :
  b <> [] -> trim b = b ->
  (exists h t, b = h :: t /\ isWhite h = false)
  /\ (exists a z, b = a ++ [z] /\ isWhite z = false).
Proof.
  intros Hne Ht. pose proof (trim_ends b) as H. rewrite Ht in H.
  destruct H as [E|H]; [congruence|exact H].
Qed.

(** Blocks joined by one line feed: no blank line, no white space at the
    ends. *)
Lemma join_blocks (bs : list jsstr) :
  bs <> [] ->
  Forall (fun b => b <> [] /\ trim b = b /\ noBlankLine b) bs ->
  (exists h t, join [LF] bs = h :: t /\ isWhite h = false)
  /\ (exists a z, join [LF] bs = a ++ [z] /\ isWhite z = false)
  /\ noBlankLine (join [LF] bs).
Proof.
  intros Hne H. revert Hne.
  induction H as [|b bs (Hb & Ht & Hn) Hbs IH]; intros Hne; [now destruct Hne|].
  destruct (tight_ends Hb Ht) as [(h & t & Eh & Hh) (a & z & Ez & Hz)].
  rewrite join_cons. destruct bs as [|b' bs].
  - repeat split; eauto.
  - destruct IH as ((h' & t' & Eh' & Hh') & (a' & z' & Ez' & Hz') & Hn');
      [discriminate|].
    split; [|split].
    + exists h, (t ++ [LF] ++ join [LF] (b' :: bs)). split; [|exact Hh].
      now rewrite Eh.
    + exists (b ++ [LF] ++ a'), z'. split; [|exact Hz'].
      rewrite Ez'. now rewrite <- !app_assoc.
    + rewrite Eh'. cbn [app]. apply nbl_glue.
      * rewrite Ez, <- app_assoc. cbn [app]. apply nbl_snoc.
        -- rewrite <- Ez. exact Hn.
        -- intros [-> _]. discriminate.
      * rewrite <- Eh'. cbn [noBlankLine].
        rewrite Eh' in *. split; [|exact Hn'].
        intros [_ ->]. discriminate.
Qed.

Lemma concat_blocks (bs : list jsstr) :
  bs <> [] -> concat (map (cons LF) bs) = LF :: join [LF] bs.
Proof.
  induction bs as [|b bs IH]; [congruence|]. intros _.
  cbn [map concat]. rewrite join_cons. destruct bs as [|b' bs].
  - simpl. now rewrite app_nil_r.
  - rewrite IH by discriminate. reflexivity.
Qed.

Lemma walk_textToDoc (text : jsstr) :
  join [] (walk (textToDoc text) [])
  = match blocksOf text with
    | [] => [LF]
    | _ :: _ => LF :: join [LF] (blocksOf text)
    end.
Proof.
  rewrite join_empty, textToDoc_blocks, walk_eq.
  change (eqb (lit "doc") (lit "text")) with false.
  change (eqb (lit "doc") (lit "listItem")) with false.
  change (eqb (lit "doc") (lit "heading")) with false.
  change (eqb (lit "doc") (lit "blockquote")) with false.
  change (eqb (lit "doc") (lit "hardBreak")) with false.
  change (eqb (lit "doc") (lit "paragraph")) with false.
  cbn [push_if orb].
  destruct (blocksOf text) as [|b bs]; [reflexivity|].
  rewrite walk_paragraphs. now apply concat_blocks.
Qed.

Lemma trim_LF_tight (s : jsstr) (h : N) (t a : jsstr) (z : N) :
  s = h :: t -> isWhite h = false -> s = a ++ [z] -> isWhite z = false ->
  trim (LF :: s) = s.
Proof.
  intros Eh Hh Ez Hz. unfold trim. cbn [trimStart].
  change (isWhite LF) with true. cbv iota.
  replace (trimStart s) with s by (rewrite Eh; simpl; now rewrite Hh).
  rewrite Ez. now apply trimEnd_snoc_keep.
Qed.

Lemma projection_exact (text : jsstr) :
  editorToPlainText (textToDoc text) = join [LF] (blocksOf text)
  /\ noBlankLine (join [LF] (blocksOf text)).
Proof.
  unfold editorToPlainText. rewrite walk_textToDoc.
  assert (H : Forall (fun b => b <> [] /\ trim b = b /\ noBlankLine b)
                     (blocksOf text)).
  { apply Forall_forall. intros b Hb.
    destruct (blocksOf_blocks text b Hb) as (H1 & H2 & _).
    repeat split; auto. now apply (blocksOf_nbl text). }
  destruct (blocksOf text) as [|b bs] eqn:E.
  - split; [|exact I]. vm_compute. reflexivity.
  - destruct (join_blocks (bs := b :: bs)) as
        ((h & t & Eh & Hh) & (a & z & Ez & Hz) & Hn); [discriminate|exact H|].
    split; [|exact Hn].
    rewrite replace_NL3_none.
    + now apply (@trim_LF_tight _ h t a z).
    + rewrite Eh in *. cbn [noBlankLine]. split; [|exact Hn].
      intros [_ ->]. discriminate.
Qed.

End ProjectionFacts.

(** X7. The projection of a compiled text is its blocks joined by single
    line feeds: the blocks are the non-blank pieces between runs of two or
    more line breaks, trimmed, so they are not empty, have no white space
    at the ends and no blank line inside, and neither has the projection:
    a paragraph break of the text becomes a single line feed. *)
Theorem projection_of_compiled (text : jsstr) :
  editorToPlainText (textToDoc text) = join [LF] (blocksOf text)
  /\ Forall (fun b => b <> [] /\ trim b = b /\ noBlankLine b) (blocksOf text)
  /\ noBlankLine (editorToPlainText (textToDoc text)).
Proof.
  destruct (ProjectionFacts.projection_exact text) as [E Hn].
  split; [exact E|split; [|now rewrite E]].
  apply Forall_forall. intros b Hb.
  destruct (CompileFacts.blocksOf_blocks text b Hb) as (H1 & H2 & _).
  repeat split; auto. now apply (ProjectionFacts.blocksOf_nbl text).
Qed.

(** X8. One compiled paragraph projects to a line feed followed by its
    text, whatever the text; so a paragraph text that is not empty, has no
    white space at its ends and no blank line comes back unchanged from
    [paragraphToTiptap] and [editorToPlainText]. *)
Theorem paragraph_round_trip :
  (forall par lines,
      join [] (walk (paragraphToTiptap par) lines) = join [] lines ++ LF :: par)
  /\ (forall par,
         par <> [] -> trim par = par -> noBlankLine par ->
         editorToPlainText (paragraphToTiptap par) = par).
Proof.
  assert (H : forall par, join [] (walk (paragraphToTiptap par) []) = LF :: par).
  { intros par. rewrite DocFacts.join_empty. apply DocFacts.walk_paragraph. }
  split.
  - intros par lines. rewrite DocFacts.walk_app, !DocFacts.join_empty, concat_app.
    now rewrite DocFacts.walk_paragraph.
  - intros par Hne Ht Hn. unfold editorToPlainText. rewrite H.
    destruct (ProjectionFacts.tight_ends Hne Ht)
      as [(h & t & Eh & Hh) (a & z & Ez & Hz)].
    rewrite ProjectionFacts.replace_NL3_none.
    + now apply (@ProjectionFacts.trim_LF_tight _ h t a z).
    + rewrite Eh in *. cbn [noBlankLine]. split; [|exact Hn].
      intros [_ ->]. discriminate.
Qed.

Lemma paragraph_round_trip_witness :
  let par := lit "It was dawn." ++ LF :: lit "She walked in." in
  par <> [] /\ trim par = par /\ noBlankLine par
  /\ editorToPlainText (paragraphToTiptap par) = par.
Proof.
  intros par.
  assert (H1 : par <> []) by discriminate.
  assert (H2 : trim par = par) by (vm_compute; reflexivity).
  assert (H3 : noBlankLine par)
    by (vm_compute; repeat split; intros [A B]; discriminate).
  split; [exact H1|split; [exact H2|split; [exact H3|]]].
  exact (proj2 paragraph_round_trip par H1 H2 H3).
Defined.

(** ** The DOCX export *)

Module ExportFacts.
Import Str Regex Editor Importer Shape Terms Exporter.
Import StrFacts RegexFacts ScanFacts CleanFacts PatternFacts ProjectionFacts.

(** /\n\n+/ matches only at two line feeds. *)
Lemma exec_BLANK_LINES prev (s : jsstr) n :
  exec BLANK_LINES prev s = Some n -> exists s', s = LF :: LF :: s'.
Proof.
  intros H. apply exec_sound in H as (m & f & -> & HM & _).
  unfold BLANK_LINES in HM. cbn [pattern ignoreCase] in HM.
  inversion HM as [| |? ? ? m1 m2 ? H1 H2| | | | | | | |]; subst.
  apply Mat_chr in H1 as (x & -> & Hx). rewrite has_unit in Hx.
  apply N.eqb_eq in Hx. subst x.
  inversion H2 as [| | | | | | |? ? ? ? ? Hall Hn| | |]; subst.
  destruct m2 as [|y m2]; [simpl in Hn; lia|].
  simpl in Hall. apply andb_true_iff in Hall as [Hy _].
  rewrite has_unit in Hy. apply N.eqb_eq in Hy. subst y.
  now exists (m2 ++ f).
Qed.

Lemma split_go_no_blank (s : jsstr) :
  forall prev cur,
    noBlankLine s -> split_go BLANK_LINES prev 0 cur s = [cur ++ s].
Proof.
  induction s as [|x s IH]; intros prev cur H; cbn [split_go].
  - now rewrite app_nil_r.
  - destruct (exec BLANK_LINES prev (x :: s)) eqn:E.
    + apply exec_BLANK_LINES in E as (s' & E). injection E as -> ->.
      simpl in H. tauto.
    + rewrite IH by (now apply nbl_tail in H). now rewrite <- app_assoc.
Qed.

(** A text without blank line is one paragraph for the exporters, or
    none when it is empty. *)
Lemma paras_no_blank (text : jsstr) :
  noBlankLine text ->
  filter truthy (split BLANK_LINES text)
  = match text with [] => [] | _ :: _ => [text] end.
Proof.
  intros H. destruct text as [|x text]; unfold split.
  - destruct (exec BLANK_LINES None []) eqn:E; [|reflexivity].
    apply exec_BLANK_LINES in E as (s' & E). discriminate.
  - now rewrite split_go_no_blank.
Qed.

End ExportFacts.

(** X9. [exportDOCX] gives a chapter whose content was compiled by
    [textToDoc] at most one text paragraph: the heading when headings are
    asked for, the whole projection as a single run when it is not empty
    (the paragraphs of the chapter are separated by one line feed only, so
    that /\n\n+/ finds nothing to split at), and the empty paragraph that
    closes every chapter. *)
Theorem docx_of_compiled (chapters : list exported) (includeHeadings : bool) :
  (forall ch, In ch chapters -> exists text, content ch = textToDoc text) ->
  docChildren chapters includeHeadings
  = flat_map
      (fun ch =>
         (if includeHeadings
          then [HeadingParagraph (or_else (xtitle ch) (lit "Untitled Chapter"))]
          else [])
         ++ match editorToPlainText (content ch) with
            | [] => []
            | _ :: _ => [RunParagraph (editorToPlainText (content ch))]
            end
         ++ [TextParagraph []])
      chapters.
Proof.
  intros H. unfold docChildren.
  induction chapters as [|ch chapters IH]; [reflexivity|].
  cbn [flat_map]. rewrite IH by (intros c Hc; apply H; now right).
  do 2 f_equal.
  destruct (H ch (or_introl eq_refl)) as [text E]. rewrite E.
  rewrite ExportFacts.paras_no_blank
    by (rewrite (proj1 (ProjectionFacts.projection_exact text));
        apply ProjectionFacts.projection_exact).
  now destruct (editorToPlainText (textToDoc text)).
Qed.

Lemma docx_of_compiled_witness :
  let chapters :=
    [{| xtitle := lit "Chapter 1";
        content := textToDoc (lit "It was dawn." ++ [LF; LF] ++ lit "She walked in.") |}] in
  (forall ch, In ch chapters -> exists text, content ch = textToDoc text)
  /\ docChildren chapters true
     = [HeadingParagraph (lit "Chapter 1");
        RunParagraph (lit "It was dawn." ++ [LF] ++ lit "She walked in.");
        TextParagraph []].
Proof.
  intros chapters.
  assert (H : forall ch, In ch chapters -> exists text, content ch = textToDoc text).
  { intros ch [<-|[]]. eexists. reflexivity. }
  split; [exact H|].
  rewrite (docx_of_compiled chapters true H). vm_compute. reflexivity.
Defined.

(** ** Escaping HTML *)

Module EscapeFacts.
Import Str Regex Editor Importer Shape Terms Exporter.

Lemma flat_map_comp (A B C : Type) (f : B -> list C) (g : A -> list B) (l : list A) :
  flat_map f (flat_map g l) = flat_map (fun x => flat_map f (g x)) l.
Proof.
  induction l as [|x l IH]; [reflexivity|]. simpl.
  now rewrite flat_map_app, IH.
Qed.

(** The six shapes of an escaped character. *)
Lemma entity_cases (c : N) :
  (htmlSpecial c = false /\ entity c = [c])
  \/ (c = u "&" /\ entity c = lit "&amp;")
  \/ (c = u "<" /\ entity c = lit "&lt;")
  \/ (c = u ">" /\ entity c = lit "&gt;")
  \/ (c = 34%N /\ entity c = lit "&quot;")
  \/ (c = u "'" /\ entity c = lit "&#039;").
Proof.
  unfold entity, htmlSpecial.
  destruct (N.eqb_spec c (u "&")) as [->|H1]; [tauto|].
  destruct (N.eqb_spec c (u "<")) as [->|H2]; [tauto|].
  destruct (N.eqb_spec c (u ">")) as [->|H3]; [tauto|].
  destruct (N.eqb_spec c 34) as [->|H4]; [tauto|].
  destruct (N.eqb_spec c (u "'")) as [->|H5]; [tauto|].
  left. split; reflexivity.
Qed.

(** The five passes of [escapeHtml], "&" first, do to one character
    what [entity] does. *)
Lemma passes_entity (c : N) :
  replaceAll (u "'") (lit "&#039;")
    (replaceAll 34 (lit "&quot;")
       (replaceAll (u ">") (lit "&gt;")
          (replaceAll (u "<") (lit "&lt;")
             (replaceAll (u "&") (lit "&amp;") [c]))))
  = entity c.
Proof.
  destruct (entity_cases c) as [[H E]|[[-> E]|[[-> E]|[[-> E]|[[-> E]|[-> E]]]]]];
    rewrite E; try reflexivity.
  unfold htmlSpecial in H. apply orb_false_iff in H as [H H5].
  apply orb_false_iff in H as [H H4]. apply orb_false_iff in H as [H H3].
  apply orb_false_iff in H as [H1 H2].
  unfold replaceAll. cbn [flat_map app]. rewrite H1. cbn [flat_map app].
  rewrite H2. cbn [flat_map app]. rewrite H3. cbn [flat_map app].
  rewrite H4. cbn [flat_map app]. now rewrite H5.
Qed.

Lemma replaceAll_app (c : N) (rep a b : jsstr) :
  replaceAll c rep (a ++ b) = replaceAll c rep a ++ replaceAll c rep b.
Proof. apply flat_map_app. Qed.

Lemma escapeHtml_one_pass (s : jsstr) : escapeHtml s = flat_map entity s.
Proof.
  unfold escapeHtml. rewrite StrFacts.or_else_nil.
  induction s as [|c s IH]; [reflexivity|].
  change (c :: s) with ([c] ++ s). rewrite !replaceAll_app, IH.
  rewrite passes_entity. reflexivity.
Qed.

(** The entities are a prefix code. *)
Lemma entity_prefix (x y : N) (r r' : jsstr) :
  entity x ++ r = entity y ++ r' -> x = y /\ r = r'.
Proof.
  destruct (entity_cases x) as [[Hx Ex]|[[-> Ex]|[[-> Ex]|[[-> Ex]|[[-> Ex]|[-> Ex]]]]]];
    destruct (entity_cases y) as [[Hy Ey]|[[-> Ey]|[[-> Ey]|[[-> Ey]|[[-> Ey]|[-> Ey]]]]]];
    rewrite ?Ex, ?Ey; intros H; simpl in H;
    try discriminate H;
    try (injection H as E1 E2; subst; split; reflexivity);
    try (injection H as E1 E2; subst; vm_compute in Hx; discriminate Hx);
    try (injection H as E1 E2; subst; vm_compute in Hy; discriminate Hy);
    try (injection H as E1; subst; split; reflexivity).
Qed.

End EscapeFacts.

(** X10. [escapeHtml], five replacements in a row with "&" first, is one
    pass that writes each of & < > " ' as its entity and copies every
    other character: nothing is escaped twice.  So it goes through
    concatenation, its result has none of < > " ' left, and two different
    texts never get the same escaped text. *)
Theorem escapeHtml_spec :
  (forall s, escapeHtml s = flat_map entity s)
  /\ (forall a b, escapeHtml (a ++ b) = escapeHtml a ++ escapeHtml b)
  /\ (forall s c, In c (escapeHtml s) ->
                  c <> u "<" /\ c <> u ">" /\ c <> 34%N /\ c <> u "'")
  /\ (forall a b, escapeHtml a = escapeHtml b -> a = b).
Proof.
  split; [exact EscapeFacts.escapeHtml_one_pass|split; [|split]].
  - intros a b. rewrite !EscapeFacts.escapeHtml_one_pass. apply flat_map_app.
  - intros s c H. rewrite EscapeFacts.escapeHtml_one_pass in H.
    apply in_flat_map in H as (x & _ & H).
    destruct (EscapeFacts.entity_cases x)
      as [[Hx E]|[[-> E]|[[-> E]|[[-> E]|[[-> E]|[-> E]]]]]];
      rewrite E in H.
    + destruct H as [<-|[]]. unfold htmlSpecial in Hx.
      repeat (apply orb_false_iff in Hx as [Hx ?]).
      repeat match goal with H : (_ =? _)%N = false |- _ =>
                               apply N.eqb_neq in H end.
      auto.
    + simpl in H. repeat (destruct H as [<-|H]; [repeat split; discriminate|]).
      destruct H.
    + simpl in H. repeat (destruct H as [<-|H]; [repeat split; discriminate|]).
      destruct H.
    + simpl in H. repeat (destruct H as [<-|H]; [repeat split; discriminate|]).
      destruct H.
    + simpl in H. repeat (destruct H as [<-|H]; [repeat split; discriminate|]).
      destruct H.
    + simpl in H. repeat (destruct H as [<-|H]; [repeat split; discriminate|]).
      destruct H.
  - intros a b. rewrite !EscapeFacts.escapeHtml_one_pass.
    revert b. induction a as [|x a IH]; intros [|y b] H; simpl in H.
    + reflexivity.
    + destruct (EscapeFacts.entity_cases y)
        as [[_ E]|[[_ E]|[[_ E]|[[_ E]|[[_ E]|[_ E]]]]]];
        rewrite E in H; discriminate.
    + destruct (EscapeFacts.entity_cases x)
        as [[_ E]|[[_ E]|[[_ E]|[[_ E]|[[_ E]|[_ E]]]]]];
        rewrite E in H; discriminate.
    + apply EscapeFacts.entity_prefix in H as [-> H]. f_equal. now apply IH.
Qed.

Lemma escapeHtml_spec_witness :
  In (u "&") (escapeHtml (lit "a<b"))
  /\ u "&" <> u "<"
  /\ escapeHtml (lit "R&D") = escapeHtml (lit "R&D")
  /\ lit "R&D" = lit "R&D".
Proof.
  assert (H1 : In (u "&") (escapeHtml (lit "a<b"))) by (vm_compute; tauto).
  assert (H2 : escapeHtml (lit "R&D") = escapeHtml (lit "R&D")) by reflexivity.
  split; [exact H1|].
  split; [exact (proj1 (proj1 (proj2 (proj2 escapeHtml_spec)) _ _ H1))|].
  split; [exact H2|].
  exact (proj2 (proj2 (proj2 escapeHtml_spec)) _ _ H2).
Defined.

(** ** File names for the downloads *)

Module SafeFacts.
Import Str Regex Editor Importer Shape Terms Exporter.
Import StrFacts RegexFacts ScanFacts CleanFacts CompileFacts.

Ltac to_arith :=
  repeat rewrite ?orb_true_iff, ?andb_true_iff, ?orb_false_iff, ?andb_false_iff,
    ?N.leb_le, ?N.leb_gt, ?N.eqb_eq, ?N.eqb_neq in *.

Lemma fold_letters (x : N) :
  in_rng 97 122 x || true && in_rng 97 122 (swapcase x)
  = isAsciiLower x || isAsciiUpper x.
Proof.
  apply eq_true_iff_eq. unfold swapcase.
  destruct (isAsciiLower x) eqn:E1; [|destruct (isAsciiUpper x) eqn:E2];
    unfold in_rng, isAsciiLower, isAsciiUpper in *; to_arith; lia.
Qed.

Lemma fold_digits (x : N) :
  in_rng 48 57 x || true && in_rng 48 57 (swapcase x) = in_rng 48 57 x.
Proof.
  apply eq_true_iff_eq. unfold swapcase.
  destruct (isAsciiLower x) eqn:E1; [|destruct (isAsciiUpper x) eqn:E2];
    unfold in_rng, isAsciiLower, isAsciiUpper in *; to_arith; lia.
Qed.

Lemma fold_sign (c x : N) :
  (c < 65)%N \/ (90 < c < 97)%N -> (upcase c =? upcase x)%N = (x =? c)%N.
Proof.
  intros Hc. apply eq_true_iff_eq. unfold upcase.
  destruct (isAsciiLower c) eqn:E0; destruct (isAsciiLower x) eqn:E1;
    unfold isAsciiLower in *; to_arith; lia.
Qed.

(** What /[^a-z0-9\-\_\s]/gi leaves: letters of both cases, digits,
    hyphen, underscore and white space. *)
Lemma has_UNSAFE (x : N) :
  has true (ncs [Rng (u "a") (u "z"); Rng (u "0") (u "9");
                 Ch (u "-"); Ch (u "_"); White]) x
  = negb (safeUnit x || isWhite x).
Proof.
  unfold has, safeUnit. cbn [negated items ncs existsb item_has].
  change (u "a") with 97%N. change (u "z") with 122%N.
  change (u "0") with 48%N. change (u "9") with 57%N.
  change (u "-") with 45%N. change (u "_") with 95%N.
  rewrite fold_letters, fold_digits, !fold_sign by lia.
  rewrite orb_false_r, !orb_assoc. reflexivity.
Qed.

Lemma safe_not_white (x : N) : safeUnit x = true -> isWhite x = false.
Proof.
  unfold safeUnit, isWhite, in_rng, isAsciiLower, isAsciiUpper.
  change (u "0") with 48%N. change (u "9") with 57%N.
  change (u "-") with 45%N. change (u "_") with 95%N.
  intros H. to_arith. lia.
Qed.

Lemma strip_UNSAFE (s : jsstr) :
  replace_all UNSAFE [] s = filter (fun x => safeUnit x || isWhite x) s.
Proof.
  unfold UNSAFE. rewrite replace_all_one.
  induction s as [|x s IH]; [reflexivity|]. cbn [flat_map filter].
  rewrite has_UNSAFE, IH. now destruct (safeUnit x || isWhite x).
Qed.

(** The units that /\s+/g leaves in place are outside white space. *)
Lemma replace_WS_units (P : N -> Prop) (rep s : jsstr) :
  Forall P rep ->
  (forall x, In x s -> isWhite x = false -> P x) ->
  forall prev skip, Forall P (replace_go WS_RUN rep prev skip s).
Proof.
  intros Hrep. induction s as [|x s IH]; intros H prev skip; cbn [replace_go].
  - destruct skip; [|constructor]. destruct (exec WS_RUN prev []); [exact Hrep|constructor].
  - assert (Hs : forall x0, In x0 s -> isWhite x0 = false -> P x0)
      by (intros; apply H; [now right|assumption]).
    destruct skip as [|k]; [|now apply IH].
    rewrite exec_WS_RUN. cbn [span].
    destruct (isWhite x) eqn:Hx.
    + cbn [Nat.leb]. apply Forall_app. split; [exact Hrep|now apply IH].
    + cbn [Nat.leb]. constructor; [apply H; [now left|exact Hx]|now apply IH].
Qed.

Lemma replace_WS_none (rep s : jsstr) :
  Forall (fun x => isWhite x = false) s -> replace_all WS_RUN rep s = s.
Proof.
  unfold replace_all. generalize (@None N). intros prev H. revert prev.
  induction H as [|x s Hx _ IH]; intros prev; cbn [replace_go].
  - now rewrite exec_WS_RUN.
  - rewrite exec_WS_RUN. cbn [span]. rewrite Hx. cbn [Nat.leb]. now rewrite IH.
Qed.

Lemma Forall_firstn (A : Type) (P : A -> Prop) (n : nat) (l : list A) :
  Forall P l -> Forall P (firstn n l).
Proof.
  intros H. rewrite <- (firstn_skipn n l) in H. now apply Forall_app in H.
Qed.

Lemma safe_units (name : jsstr) :
  Forall (fun c => safeUnit c = true)
         (replace_all WS_RUN (lit "_")
            (trim (replace_all UNSAFE [] name))).
Proof.
  apply replace_WS_units; [repeat constructor|].
  intros x Hx Hw. apply trim_In in Hx. rewrite strip_UNSAFE in Hx.
  apply filter_In in Hx as [_ Hx]. rewrite Hw, orb_false_r in Hx. exact Hx.
Qed.

Lemma trim_solid (s : jsstr) :
  Forall (fun x => isWhite x = false) s -> trim s = s.
Proof.
  intros H. unfold trim.
  replace (trimStart s) with s; [now apply trimEnd_solid|].
  destruct H as [|x s Hx _]; [reflexivity|]. simpl. now rewrite Hx.
Qed.

Lemma safe_fixed (name : jsstr) :
  name <> [] -> length name <= 80 ->
  Forall (fun c => safeUnit c = true) name ->
  safeFilename name = name.
Proof.
  intros Hne Hl H. unfold safeFilename, slice0.
  assert (Hw : Forall (fun x => isWhite x = false) name)
    by (eapply Forall_impl; [|exact H]; apply safe_not_white).
  replace (or_else name (lit "novel")) with name by now destruct name.
  rewrite strip_UNSAFE.
  replace (filter (fun x => safeUnit x || isWhite x) name) with name.
  - rewrite trim_solid, replace_WS_none, firstn_all2 by assumption.
    now destruct name.
  - clear Hne Hl Hw. induction H as [|x s Hx _ IH]; [reflexivity|].
    simpl. rewrite Hx. simpl. now rewrite <- IH.
Qed.

End SafeFacts.

(** X11. The file name that [safeFilename] makes is never empty, has at
    most 80 code units and only ASCII letters, digits, hyphens and
    underscores; a name that is already like that is left as it is, so
    that making a name safe twice is making it safe once. *)
Theorem safeFilename_safe :
  (forall name,
      safeFilename name <> [] /\ length (safeFilename name) <= 80
      /\ Forall (fun c => safeUnit c = true) (safeFilename name))
  /\ (forall name,
         name <> [] -> length name <= 80 ->
         Forall (fun c => safeUnit c = true) name ->
         safeFilename name = name)
  /\ (forall name, safeFilename (safeFilename name) = safeFilename name).
Proof.
  assert (H : forall name,
             safeFilename name <> [] /\ length (safeFilename name) <= 80
             /\ Forall (fun c => safeUnit c = true) (safeFilename name)).
  { intros name. unfold safeFilename, slice0.
    pose proof (SafeFacts.safe_units (or_else name (lit "novel"))) as Hs.
    apply (SafeFacts.Forall_firstn 80) in Hs.
    pose proof (firstn_le_length 80
                  (replace_all WS_RUN (lit "_")
                     (trim (replace_all UNSAFE [] (or_else name (lit "novel"))))))
      as Hl.
    destruct (firstn 80 _) as [|c t].
    - repeat split; [discriminate|simpl; lia|repeat constructor].
    - cbn [or_else truthy]. repeat split; [discriminate|exact Hl|exact Hs]. }
  split; [exact H|split; [exact SafeFacts.safe_fixed|]].
  intros name. destruct (H name) as (H1 & H2 & H3).
  now apply SafeFacts.safe_fixed.
Qed.

Lemma safeFilename_safe_witness :
  lit "My_Novel-2" <> [] /\ length (lit "My_Novel-2") <= 80
  /\ Forall (fun c => safeUnit c = true) (lit "My_Novel-2")
  /\ safeFilename (lit "My_Novel-2") = lit "My_Novel-2".
Proof.
  assert (H1 : lit "My_Novel-2" <> []) by discriminate.
  assert (H2 : length (lit "My_Novel-2") <= 80) by (simpl; lia).
  assert (H3 : Forall (fun c => safeUnit c = true) (lit "My_Novel-2"))
    by (repeat constructor).
  split; [exact H1|split; [exact H2|split; [exact H3|]]].
  exact (proj1 (proj2 safeFilename_safe) _ H1 H2 H3).
Defined.

(** ** The RTF decoder *)

Module RtfFacts.
Import Str Regex Editor Importer Shape Terms Decoders.
Import StrFacts RegexFacts ScanFacts CleanFacts PatternFacts CompileFacts.
Import TightFacts ProjectionFacts.

(** What a global replace writes comes from the text or from the
    replacement. *)
Lemma replace_go_In (r : regexp) (rep s : jsstr) (x : N) :
  forall prev skip,
    In x (replace_go r rep prev skip s) -> In x rep \/ In x s.
Proof.
  induction s as [|y s IH]; intros prev skip H; cbn [replace_go] in H.
  - destruct skip; [|destruct H]. destruct (exec r prev []); [now left|destruct H].
  - destruct skip as [|k].
    + destruct (exec r prev (y :: s)) as [[|n]|].
      * apply in_app_or in H as [H|[<-|H]]; [now left|right; now left|].
        apply IH in H as [H|H]; [now left|right; now right].
      * apply in_app_or in H as [H|H]; [now left|].
        apply IH in H as [H|H]; [now left|right; now right].
      * destruct H as [<-|H]; [right; now left|].
        apply IH in H as [H|H]; [now left|right; now right].
    + apply IH in H as [H|H]; [now left|right; now right].
Qed.

Lemma replace_all_In (r : regexp) (rep s : jsstr) (x : N) :
  In x (replace_all r rep s) -> In x rep \/ In x s.
Proof. apply replace_go_In. Qed.

(** Where nothing matches, nothing is replaced. *)
Lemma replace_go_none (r : regexp) (rep s : jsstr) :
  (forall prev pre suf, s = pre ++ suf -> exec r prev suf = None) ->
  forall prev, replace_go r rep prev 0 s = s.
Proof.
  induction s as [|x s IH]; intros H prev; cbn [replace_go].
  - now rewrite (H prev [] []).
  - rewrite (H prev [] (x :: s)) by reflexivity. f_equal. apply IH.
    intros prev' pre suf ->. now apply (H prev' (x :: pre)).
Qed.

Lemma replace_fn_go_none (r : regexp) (f : jsstr -> jsstr) (s : jsstr) :
  (forall prev pre suf, s = pre ++ suf -> exec r prev suf = None) ->
  forall prev, replace_fn_go r f prev 0 s = s.
Proof.
  induction s as [|x s IH]; intros H prev; cbn [replace_fn_go].
  - now rewrite (H prev [] []).
  - rewrite (H prev [] (x :: s)) by reflexivity. f_equal. apply IH.
    intros prev' pre suf ->. now apply (H prev' (x :: pre)).
Qed.

Lemma plain_no_match (r : regexp) (s : jsstr) :
  needsMarkup r -> (forall x, In x s -> ~ In x markup) ->
  forall prev pre suf, s = pre ++ suf -> exec r prev suf = None.
Proof.
  intros Hr Hs prev pre suf ->.
  destruct (exec r prev suf) eqn:E; [|reflexivity].
  apply Hr in E as (x & s' & -> & Hx). exfalso.
  apply (Hs x); [|exact Hx]. apply in_or_app. right. now left.
Qed.

Lemma has_items (l : list item) (x : N) :
  has false (cs l) x = true -> exists i, In i l /\ item_has false x i = true.
Proof. unfold has. cbn [negated items cs xorb]. apply existsb_exists. Qed.

(** The first unit of a match of a pattern that begins with a literal. *)
Ltac dig H :=
  lazymatch type of H with
  | Mat _ (Seq _ _) _ _ _ =>
      let H1 := fresh "H" in
      let H2 := fresh "H" in
      inversion H as [| |? ? ? ? ? ? H1 H2| | | | | | | |]; subst; clear H H2;
      dig H1
  | Mat _ (One _) _ _ _ =>
      let Hc := fresh "Hc" in
      inversion H as [|? ? ? ? Hc| | | | | | | | |]; subst; clear H;
      apply has_items in Hc as (? & Hc & ?)
  end.

Ltac needs_markup :=
  intros prev s n H; apply exec_sound in H as (m & f & -> & HM & _);
  cbv in HM; dig HM;
  repeat match goal with
         | H : In _ (_ :: _) |- _ => destruct H as [<-|H]
         | H : In _ [] |- _ => destruct H
         end;
  match goal with
  | H : item_has false ?x (Ch ?c) = true |- _ =>
      cbn [item_has] in H; apply N.eqb_eq in H; subst x
  end;
  (eexists; eexists; split; [reflexivity|cbv; tauto]).

Lemma needs_HIDDEN_GROUP : needsMarkup HIDDEN_GROUP.
Proof. needs_markup. Qed.
Lemma needs_PAR : needsMarkup PAR.
Proof. needs_markup. Qed.
Lemma needs_LINE : needsMarkup LINE.
Proof. needs_markup. Qed.
Lemma needs_TAB_WORD : needsMarkup TAB_WORD.
Proof. needs_markup. Qed.
Lemma needs_HEX_ESCAPE : needsMarkup HEX_ESCAPE.
Proof. needs_markup. Qed.
Lemma needs_CONTROL_WORD : needsMarkup CONTROL_WORD.
Proof. needs_markup. Qed.
Lemma needs_BRACES : needsMarkup BRACES.
Proof. needs_markup. Qed.
Lemma needs_ESC_TILDE : needsMarkup ESC_TILDE.
Proof. needs_markup. Qed.
Lemma needs_ESC_HYPHEN : needsMarkup ESC_HYPHEN.
Proof. needs_markup. Qed.
Lemma needs_ESC_UNDERSCORE : needsMarkup ESC_UNDERSCORE.
Proof. needs_markup. Qed.
Lemma needs_ESC_NEWLINE : needsMarkup ESC_NEWLINE.
Proof. needs_markup. Qed.
Lemma needs_NUL : needsMarkup NUL.
Proof. needs_markup. Qed.

Lemma replace_plain (r : regexp) (rep s : jsstr) :
  needsMarkup r -> (forall x, In x s -> ~ In x markup) ->
  replace_all r rep s = s.
Proof.
  intros Hr Hs. apply replace_go_none. now apply plain_no_match.
Qed.

Lemma replace_fn_plain (r : regexp) (f : jsstr -> jsstr) (s : jsstr) :
  needsMarkup r -> (forall x, In x s -> ~ In x markup) ->
  replace_fn r f s = s.
Proof.
  intros Hr Hs. apply replace_fn_go_none. now apply plain_no_match.
Qed.

End RtfFacts.

(** ** Runs of line feeds *)

Module SpacingFacts.
Import Str Regex Editor Importer Shape Terms Decoders.
Import StrFacts RegexFacts ScanFacts CleanFacts CompileFacts TightFacts.
Import ProjectionFacts.

Lemma exec_NL3 prev (s : jsstr) :
  exec NL3 prev s =
  if 3 <=? span (has false (cs [Ch LF])) s
  then Some (span (has false (cs [Ch LF])) s) else None.
Proof. unfold NL3. apply exec_many. Qed.

Lemma triple_span (s t : jsstr) : s = LF :: LF :: LF :: t -> 3 <= span (has false (cs [Ch LF])) s.
Proof. intros ->. rewrite !span_LF. simpl. lia. Qed.

Lemma noTriple_tail (x : N) (s : jsstr) : noTripleLF (x :: s) -> noTripleLF s.
Proof. now intros [_ H]. Qed.

Lemma noTriple_cons (x : N) (s : jsstr) :
  span (has false (cs [Ch LF])) (x :: s) < 3 -> noTripleLF s -> noTripleLF (x :: s).
Proof.
  intros Hs H. split; [|exact H]. intros [t E].
  apply triple_span in E. lia.
Qed.

(** The replacement of /\n{3,}/g by two line feeds leaves no run of
    three: the second part is the state after a match, when the rest of
    its run is being dropped. *)
Lemma collapse_go (s : jsstr) :
  (forall prev,
      noTripleLF (replace_go NL3 [LF; LF] prev 0 s)
      /\ span (has false (cs [Ch LF])) (replace_go NL3 [LF; LF] prev 0 s) <= span (has false (cs [Ch LF])) s)
  /\ (forall prev,
         noTripleLF (replace_go NL3 [LF; LF] prev (span (has false (cs [Ch LF])) s) s)
         /\ span (has false (cs [Ch LF])) (replace_go NL3 [LF; LF] prev (span (has false (cs [Ch LF])) s) s) = 0).
Proof.
  induction s as [|x s [IH1 IH2]].
  - assert (E : forall prev, replace_go NL3 [LF; LF] prev 0 [] = []).
    { intros prev. cbn [replace_go]. now rewrite exec_NL3. }
    split; intros prev; simpl span; rewrite E; simpl; auto.
  - split; intros prev.
    + cbn [replace_go]. rewrite exec_NL3.
      destruct (Nat.leb_spec 3 (span (has false (cs [Ch LF])) (x :: s))) as [H3|H3].
      * rewrite span_LF in H3 |- *.
        destruct (N.eqb_spec LF x) as [<-|_]; [|lia].
        destruct (IH2 (Some LF)) as [Hn H0].
        set (o := replace_go NL3 [LF; LF] (Some LF) (span (has false (cs [Ch LF])) s) s) in *.
        cbn [app]. split.
        -- apply noTriple_cons;
             [rewrite (span_LF (LF :: LF :: o)), (span_LF (LF :: o)),
                N.eqb_refl; lia|].
           apply noTriple_cons;
             [rewrite (span_LF (LF :: o)), N.eqb_refl; lia|exact Hn].
        -- rewrite (span_LF (LF :: LF :: o)), (span_LF (LF :: o)),
             N.eqb_refl. lia.
      * destruct (IH1 (Some x)) as [Hn Hle].
        set (o := replace_go NL3 [LF; LF] (Some x) 0 s) in *.
        assert (Hs : span (has false (cs [Ch LF])) (x :: o) <= span (has false (cs [Ch LF])) (x :: s)).
        { rewrite (span_LF (x :: o)), (span_LF (x :: s)).
          destruct (LF =? x)%N; lia. }
        split; [|exact Hs]. apply noTriple_cons; [lia|exact Hn].
    + rewrite span_LF. destruct (N.eqb_spec LF x) as [<-|Hx].
      * cbn [replace_go]. apply IH2.
      * cbn [replace_go]. rewrite exec_NL3.
        assert (E0 : span (has false (cs [Ch LF])) (x :: s) = 0).
        { rewrite span_LF. destruct (N.eqb_spec LF x); [contradiction|reflexivity]. }
        rewrite E0. simpl Nat.leb. cbv iota.
        destruct (IH1 (Some x)) as [Hn _].
        assert (E1 : span (has false (cs [Ch LF]))
                       (x :: replace_go NL3 [LF; LF] (Some x) 0 s) = 0).
        { rewrite span_LF.
          destruct (N.eqb_spec LF x); [contradiction|reflexivity]. }
        split; [|exact E1]. apply noTriple_cons; [lia|exact Hn].
Qed.

Lemma noTriple_prefix (a b : jsstr) : noTripleLF (a ++ b) -> noTripleLF a.
Proof.
  induction a as [|x a IH]; [now intros _|]. intros [H1 H2]. split.
  - intros [t E]. apply H1. exists (t ++ b).
    injection E as Ex Ea. subst x a. reflexivity.
  - now apply IH.
Qed.

Lemma noTriple_trim (s : jsstr) : noTripleLF s -> noTripleLF (trim s).
Proof.
  intros H. unfold trim.
  assert (Hs : noTripleLF (trimStart s)).
  { induction s as [|x s IH]; [exact I|]. simpl.
    destruct (isWhite x); [apply IH; now apply noTriple_tail in H|exact H]. }
  destruct (trimEnd_prefix (trimStart s)) as [t E]. rewrite E in Hs.
  now apply noTriple_prefix in Hs.
Qed.

Lemma collapse_trim (s : jsstr) :
  tight (trim (replace_all NL3 [LF; LF] s))
  /\ noTripleLF (trim (replace_all NL3 [LF; LF] s)).
Proof.
  split; [apply trim_tight|]. apply noTriple_trim.
  apply (proj1 (collapse_go s) None).
Qed.

Lemma span_triple (s : jsstr) :
  3 <= span (has false (cs [Ch LF])) s -> exists t, s = LF :: LF :: LF :: t.
Proof.
  intros H. rewrite span_LF in H. destruct s as [|a s]; [lia|].
  destruct (N.eqb_spec LF a) as [<-|_]; [|lia].
  rewrite span_LF in H. destruct s as [|b s]; [lia|].
  destruct (N.eqb_spec LF b) as [<-|_]; [|lia].
  rewrite span_LF in H. destruct s as [|c s]; [lia|].
  destruct (N.eqb_spec LF c) as [<-|_]; [|lia].
  now exists s.
Qed.

(** Where no three line feeds follow each other the replacement of
    /\n{3,}/g finds nothing. *)
Lemma replace_NL3_fixed (rep s : jsstr) :
  noTripleLF s -> replace_all NL3 rep s = s.
Proof.
  unfold replace_all. generalize (@None N).
  induction s as [|x s IH]; intros prev H; cbn [replace_go].
  - now rewrite exec_NL3.
  - rewrite exec_NL3.
    destruct (Nat.leb_spec 3 (span (has false (cs [Ch LF])) (x :: s))) as [H3|_].
    + apply span_triple in H3. now destruct H as [H _].
    + rewrite IH; [reflexivity|]. now apply noTriple_tail in H.
Qed.

Lemma not_In_trim (x : N) (s : jsstr) : ~ In x s -> ~ In x (trim s).
Proof. intros H Hx. apply H. revert Hx. apply trim_In. Qed.

Lemma tight_not_blank (s : jsstr) : s <> [] -> tight s -> clean s <> [].
Proof.
  intros Hne Ht Hc. apply clean_nil_iff in Hc.
  pose proof (trim_ends s) as H. rewrite Ht in H.
  destruct H as [E|[(h & t & -> & Hh) _]]; [contradiction|].
  inversion Hc; subst. congruence.
Qed.

End SpacingFacts.

Import StrFacts CleanFacts TightFacts CompileFacts ProjectionFacts.
Import RtfFacts SpacingFacts.

(** X12.  Text without RTF markup passes the decoder unchanged, up to
    the spacing rules: when the input holds no backslash, no brace and no
    NUL, [rtfToText] only collapses runs of three or more line feeds to
    two and trims the ends. *)
Theorem rtfToText_plain (rtf : jsstr) :
  (forall x, In x rtf -> ~ In x markup) ->
  rtfToText rtf = trim (replace_all NL3 [LF; LF] rtf).
Proof.
  intros H. unfold rtfToText. rewrite or_else_nil.
  rewrite (@replace_plain HIDDEN_GROUP [] rtf needs_HIDDEN_GROUP H).
  rewrite (@replace_plain PAR [LF] rtf needs_PAR H).
  rewrite (@replace_plain LINE [LF] rtf needs_LINE H).
  rewrite (@replace_plain TAB_WORD [9%N] rtf needs_TAB_WORD H).
  rewrite (@replace_fn_plain HEX_ESCAPE decodeHex rtf needs_HEX_ESCAPE H).
  rewrite (@replace_plain CONTROL_WORD [] rtf needs_CONTROL_WORD H).
  rewrite (@replace_plain BRACES [] rtf needs_BRACES H).
  rewrite (@replace_plain ESC_TILDE (lit " ") rtf needs_ESC_TILDE H).
  rewrite (@replace_plain ESC_HYPHEN (lit "-") rtf needs_ESC_HYPHEN H).
  rewrite (@replace_plain ESC_UNDERSCORE (lit "-") rtf needs_ESC_UNDERSCORE H).
  rewrite (@replace_plain ESC_NEWLINE [LF] rtf needs_ESC_NEWLINE H).
  now rewrite (@replace_plain NUL [] rtf needs_NUL H).
Qed.

Lemma rtfToText_plain_witness :
  rtfToText (lit "One." ++ [LF; LF; LF; LF] ++ lit "Two. ")
  = lit "One." ++ [LF; LF] ++ lit "Two.".
Proof.
  rewrite rtfToText_plain; [reflexivity|].
  intros x Hx Hm. cbv in Hx, Hm.
  repeat match goal with
         | H : _ \/ _ |- _ => destruct H as [H|H]
         end; try contradiction; subst; discriminate.
Defined.

(** X13.  Whatever the input, the text that [rtfToText] returns holds no
    brace and no NUL, has no white space at either end, and never has
    three line feeds in a row. *)
Theorem rtfToText_output (rtf : jsstr) :
  ~ In (u "{") (rtfToText rtf)
  /\ ~ In (u "}") (rtfToText rtf)
  /\ ~ In 0%N (rtfToText rtf)
  /\ tight (rtfToText rtf)
  /\ noTripleLF (rtfToText rtf).
Proof.
  unfold rtfToText.
  set (s6 := replace_all CONTROL_WORD [] _).
  assert (Hb : forall x, In x (replace_all BRACES [] s6) ->
                         x <> u "{" /\ x <> u "}").
  { intros x Hx. unfold BRACES in Hx. rewrite replace_all_one in Hx.
    apply in_flat_map in Hx as (y & _ & Hy).
    destruct (has false (cs [Ch (u "{"); Ch (u "}")]) y) eqn:E; [destruct Hy|].
    destruct Hy as [<-|[]].
    split; intros ->; vm_compute in E; discriminate. }
  set (s7 := replace_all BRACES [] s6) in *.
  assert (Hb' : forall x, 
             In x (replace_all ESC_NEWLINE [LF]
                     (replace_all ESC_UNDERSCORE (lit "-")
                        (replace_all ESC_HYPHEN (lit "-")
                           (replace_all ESC_TILDE (lit " ") s7)))) ->
             x <> u "{" /\ x <> u "}").
  { intros x Hx.
    apply replace_all_In in Hx as [[<-|[]]|Hx]; [split; discriminate|].
    apply replace_all_In in Hx as [[<-|[]]|Hx]; [split; discriminate|].
    apply replace_all_In in Hx as [[<-|[]]|Hx]; [split; discriminate|].
    apply replace_all_In in Hx as [[<-|[]]|Hx]; [split; discriminate|].
    now apply Hb. }
  set (s11 := replace_all ESC_NEWLINE [LF] _) in *.
  assert (Hn : forall x, In x (replace_all NUL [] s11) ->
                         x <> u "{" /\ x <> u "}" /\ x <> 0%N).
  { intros x Hx. pose proof Hx as Hx'.
    apply replace_all_In in Hx' as [[]|Hx']. apply Hb' in Hx' as [H1 H2].
    split; [exact H1|split; [exact H2|]].
    unfold NUL, chr in Hx. rewrite replace_all_one in Hx.
    apply in_flat_map in Hx as (y & _ & Hy). rewrite has_unit in Hy.
    destruct (N.eqb_spec 0 y) as [E|E]; [destruct Hy|].
    destruct Hy as [<-|[]]. congruence. }
  set (s12 := replace_all NUL [] s11) in *.
  assert (Hf : forall x, In x (trim (replace_all NL3 [LF; LF] s12)) ->
                         x <> u "{" /\ x <> u "}" /\ x <> 0%N).
  { intros x Hx. apply trim_In in Hx.
    apply replace_all_In in Hx as [[<-|[<-|[]]]|Hx];
      [repeat split; discriminate..|]. now apply Hn. }
  split; [intros H; now apply Hf in H as (H & _ & _)|].
  split; [intros H; now apply Hf in H as (_ & H & _)|].
  split; [intros H; now apply Hf in H as (_ & _ & H)|].
  apply collapse_trim.
Qed.

(** X14.  Every paragraph that [parseRTF] builds has an empty style and
    a text that is not empty, has no white space at its ends and no blank
    line; the filter at the start of [splitFromParagraphs] keeps all of
    them unchanged. *)
Theorem rtfParagraphs_usable (txt : jsstr) :
  Forall (fun p => style p = [] /\ text p <> [] /\ tight (text p)
                   /\ noBlankLine (text p))
         (rtfParagraphs txt)
  /\ usable (rtfParagraphs txt) = rtfParagraphs txt.
Proof.
  assert (H : Forall (fun p => style p = [] /\ text p <> [] /\ tight (text p)
                               /\ noBlankLine (text p))
                     (rtfParagraphs txt)).
  { unfold rtfParagraphs. apply Forall_forall. intros p Hp.
    apply in_map_iff in Hp as (t & <- & Ht). cbn [text style].
    apply filter_In in Ht as [Ht Hne].
    apply in_map_iff in Ht as (piece & <- & Hpiece).
    split; [reflexivity|]. split; [now destruct (trim piece)|].
    split; [apply trim_tight|]. apply nbl_trim.
    assert (Hall : Forall noBlankLine (split NL2 (rtfToText txt))).
    { unfold split. destruct (rtfToText txt) as [|x s] eqn:E.
      - unfold NL2. rewrite exec_many. simpl. repeat constructor.
      - apply (proj2 (split_NL2_pieces (x :: s))). }
    rewrite Forall_forall in Hall. now apply Hall. }
  split; [exact H|].
  unfold usable. induction H as [|[t st] ps (Hst & Hne & Ht & _) _ IH];
    [reflexivity|].
  cbn [text style] in *. subst st. cbn [map filter text style].
  rewrite or_else_nil.
  pose proof (tight_not_blank Hne Ht) as Hc.
  destruct (clean t) as [|c r] eqn:E; [contradiction|].
  cbn [length Nat.eqb negb]. unfold or_else at 1. cbn [truthy]. now rewrite IH.
Qed.

(** X15.  The plain text of any document, whatever its nodes, has no
    white space at either end and never three line feeds in a row; it is
    a fixed point of the spacing rules that [editorToPlainText] ends
    with. *)
Theorem projection_shape (jsonDoc : node) :
  tight (editorToPlainText jsonDoc)
  /\ noTripleLF (editorToPlainText jsonDoc)
  /\ trim (replace_all NL3 [LF; LF] (editorToPlainText jsonDoc))
     = editorToPlainText jsonDoc.
Proof.
  unfold editorToPlainText.
  destruct (collapse_trim (join [] (walk jsonDoc []))) as [Ht Hn].
  split; [exact Ht|split; [exact Hn|]].
  rewrite (@replace_NL3_fixed [LF; LF] _ Hn). exact Ht.
Qed.

(** ** Titles and styles *)

Module StyleFacts.
Import Str Regex Editor Importer Shape Terms Decoders.
Import StrFacts RegexFacts ScanFacts CleanFacts PatternFacts AsciiFacts.
Import HeadingFacts SplitFacts.

Section AnyHost.
Context {host : Host} (ok : HostAscii host).

Lemma toLowerCase_nil : toLowerCase [] = [].
Proof. now rewrite (toLowerCase_ascii (s := [])) by constructor. Qed.




End AnyHost.

(** Under the i flag a literal matches its spellings and nothing else. *)
Lemma Mat_word_fold_inv (w : jsstr) p m f :
  Mat true (word w) p m f -> map upcase m = map upcase w.
Proof.
  revert p m. induction w as [|x w IH]; intros p m HM.
  - inversion HM. reflexivity.
  - destruct w as [|y w].
    + apply Mat_chr in HM as (z & -> & Hz). unfold has in Hz. simpl in Hz.
      rewrite orb_false_r in Hz. apply N.eqb_eq in Hz. simpl. now rewrite Hz.
    + change (word (x :: y :: w)) with (Seq (chr x) (word (y :: w))) in HM.
      inversion HM as [| |? ? ? m1 m2 ? H1 H2| | | | | | | |]; subst.
      apply Mat_chr in H1 as (z & -> & Hz). unfold has in Hz. simpl in Hz.
      rewrite orb_false_r in Hz. apply N.eqb_eq in Hz.
      apply IH in H2. cbn [app map]. now rewrite Hz, H2.
Qed.

Lemma Mat_word_fold_any (w m : jsstr) p f :
  map upcase m = map upcase w -> Mat true (word w) p m f.
Proof.
  revert p m. induction w as [|x w IH]; intros p m E.
  - destruct m; [constructor|discriminate].
  - destruct m as [|z m]; [discriminate|]. injection E as Ez E.
    assert (Hz : has true (cs [Ch x]) z = true).
    { unfold has. simpl. now rewrite Ez, N.eqb_refl. }
    destruct w as [|y w].
    + destruct m; [|discriminate]. now apply MOne.
    + change (word (x :: y :: w)) with (Seq (chr x) (word (y :: w))).
      apply (Mat_seq (m1 := [z]) (m2 := m)); [reflexivity| |now apply IH].
      now apply MOne.
Qed.

Lemma test_fold (w s : jsstr) :
  test {| pattern := word w; ignoreCase := true |} s = true
  <-> containsFold w s.
Proof.
  rewrite test_Matches. unfold Matches, containsFold. cbn [pattern ignoreCase].
  split; intros (pre & m & f & E & H); exists pre, m, f; (split; [exact E|]).
  - now apply Mat_word_fold_inv in H.
  - now apply Mat_word_fold_any.
Qed.

Lemma test_fold_false (w s : jsstr) :
  test {| pattern := word w; ignoreCase := true |} s = false
  <-> ~ containsFold w s.
Proof. rewrite <- test_fold. now destruct (test _ s). Qed.

Lemma styleName_cases (style : jsstr) :
  styleName style =
  if test TITLE_ID style then lit "Title"
  else if test HEADING2_ID style then lit "Heading 2"
  else if test HEADING1_ID style then lit "Heading 1"
  else style.
Proof.
  unfold styleName.
  now destruct (test TITLE_ID style), (test HEADING2_ID style),
               (test HEADING1_ID style).
Qed.

End StyleFacts.

Import AsciiFacts HeadingFacts SplitFacts StyleFacts.



(** X17.  The style name that [parseDOCX] gives to a style id: "Title"
    when the id contains "title" in any case, else "Heading 2" when it
    contains "heading2", else "Heading 1" when it contains "heading1",
    else the id itself. *)
Theorem styleName_spec (style : jsstr) :
  (containsFold (lit "title") style -> styleName style = lit "Title")
  /\ (~ containsFold (lit "title") style ->
      containsFold (lit "heading2") style ->
      styleName style = lit "Heading 2")
  /\ (~ containsFold (lit "title") style ->
      ~ containsFold (lit "heading2") style ->
      containsFold (lit "heading1") style ->
      styleName style = lit "Heading 1")
  /\ (~ containsFold (lit "title") style ->
      ~ containsFold (lit "heading2") style ->
      ~ containsFold (lit "heading1") style ->
      styleName style = style).
Proof.
  rewrite styleName_cases. unfold TITLE_ID, HEADING2_ID, HEADING1_ID.
  split; [|split; [|split]].
  - intros H. apply test_fold in H. now rewrite H.
  - intros H1 H2. apply test_fold_false in H1. apply test_fold in H2.
    now rewrite H1, H2.
  - intros H1 H2 H3. apply test_fold_false in H1, H2. apply test_fold in H3.
    now rewrite H1, H2, H3.
  - intros H1 H2 H3. apply test_fold_false in H1, H2, H3.
    now rewrite H1, H2, H3.
Qed.

Lemma styleName_spec_witness :
  containsFold (lit "title") (lit "Subtitle")
  /\ styleName (lit "Subtitle") = lit "Title"
  /\ ~ containsFold (lit "title") (lit "Heading2Char")
  /\ containsFold (lit "heading2") (lit "Heading2Char")
  /\ styleName (lit "Heading2Char") = lit "Heading 2"
  /\ ~ containsFold (lit "heading1") (lit "Normal")
  /\ styleName (lit "Normal") = lit "Normal".
Proof.
  assert (H : containsFold (lit "title") (lit "Subtitle")).
  { exists (lit "Sub"), (lit "title"), []. split; reflexivity. }
  assert (N1 : ~ containsFold (lit "title") (lit "Heading2Char"))
    by (apply test_fold_false; reflexivity).
  assert (H2 : containsFold (lit "heading2") (lit "Heading2Char")).
  { exists [], (lit "Heading2"), (lit "Char"). split; reflexivity. }
  assert (N2 : ~ containsFold (lit "title") (lit "Normal"))
    by (apply test_fold_false; reflexivity).
  assert (N3 : ~ containsFold (lit "heading2") (lit "Normal"))
    by (apply test_fold_false; reflexivity).
  assert (N4 : ~ containsFold (lit "heading1") (lit "Normal"))
    by (apply test_fold_false; reflexivity).
  split; [exact H|].
  split; [exact (proj1 (styleName_spec (lit "Subtitle")) H)|].
  split; [exact N1|]. split; [exact H2|].
  split; [exact (proj1 (proj2 (styleName_spec (lit "Heading2Char"))) N1 H2)|].
  split; [exact N4|].
  exact (proj2 (proj2 (proj2 (styleName_spec (lit "Normal")))) N2 N3 N4).
Defined.

(** X18.  What the style mapping of [parseDOCX] means for the splitter: a
    paragraph whose style id contains "title", "heading1" or "heading2"
    in any case is heading-like as soon as its text is not blank, and
    when the id contains "title", or does not contain "heading2", a short
    first paragraph of that kind that matches no heading pattern is taken
    as the title of the novel. *)
Theorem docx_style_heading (host : Host) (ok : HostAscii host)
        (style text : jsstr) :
  containsFold (lit "title") style \/ containsFold (lit "heading1") style
  \/ containsFold (lit "heading2") style ->
  isStyleHeading (styleName style) = true
  /\ (clean text <> [] -> isHeadingLike text (styleName style) = true)
  /\ (containsFold (lit "title") style
      \/ ~ containsFold (lit "heading2") style ->
      clean text <> [] -> length (clean text) <= 80 ->
      ~ headingPattern (clean text) ->
      isTitle {| text := text; style := styleName style |} = true).
Proof.
  intros H. rewrite styleName_cases.
  unfold TITLE_ID, HEADING2_ID, HEADING1_ID.
  assert (Lt : toLowerCase (lit "Title") = lit "title")
    by (rewrite toLowerCase_ascii; [reflexivity|now apply asciiUnits_ok]).
  assert (L1 : toLowerCase (lit "Heading 1") = lit "heading 1")
    by (rewrite toLowerCase_ascii; [reflexivity|now apply asciiUnits_ok]).
  assert (L2 : toLowerCase (lit "Heading 2") = lit "heading 2")
    by (rewrite toLowerCase_ascii; [reflexivity|now apply asciiUnits_ok]).
  assert (S1 : isStyleHeading (lit "Title") = true)
    by (apply isStyleHeading_iff; now right).
  assert (S2 : isStyleHeading (lit "Heading 2") = true).
  { apply isStyleHeading_iff. left. rewrite L2.
    exists [], [32%N], (u "2"), []. split; [reflexivity|].
    split; [now repeat constructor|right; now left]. }
  assert (S3 : isStyleHeading (lit "Heading 1") = true).
  { apply isStyleHeading_iff. left. rewrite L1.
    exists [], [32%N], (u "1"), []. split; [reflexivity|].
    split; [now repeat constructor|now left]. }
  assert (T1 : forall st,
             toLowerCase st = lit "title"
             \/ headingStyle [u "1"] (toLowerCase st) ->
             clean text <> [] -> length (clean text) <= 80 ->
             ~ headingPattern (clean text) ->
             isTitle {| text := text; style := st |} = true).
  { intros st Hst Hne Hlen Hpat. apply isTitle_iff. unfold titleCondition.
    cbn [Importer.text Importer.style]. auto. }
  destruct (test {| pattern := word (lit "title"); ignoreCase := true |} style)
    eqn:Et.
  { split; [exact S1|]. split; [intros Hne; now apply isHeadingLike_style|].
    intros _. apply T1. now left. }
  destruct (test {| pattern := word (lit "heading2"); ignoreCase := true |} style)
    eqn:E2.
  { split; [exact S2|]. split; [intros Hne; now apply isHeadingLike_style|].
    intros [Ht|Hn2].
    - apply test_fold in Ht. congruence.
    - apply test_fold in E2. contradiction. }
  destruct (test {| pattern := word (lit "heading1"); ignoreCase := true |} style)
    eqn:E1.
  { split; [exact S3|]. split; [intros Hne; now apply isHeadingLike_style|].
    intros _. apply T1. right. rewrite L1.
    exists [], [32%N], (u "1"), []. split; [reflexivity|].
    split; [now repeat constructor|now left]. }
  apply test_fold_false in Et, E2, E1. tauto.
Qed.

Lemma docx_style_heading_witness :
  containsFold (lit "title") (lit "BookTitlePage")
  /\ isStyleHeading (host := asciiHost) (styleName (lit "BookTitlePage")) = true
  /\ ~ headingPattern (clean (lit "My Book"))
  /\ isTitle (host := asciiHost)
       {| text := lit "My Book"; style := styleName (lit "BookTitlePage") |}
     = true.
Proof.
  assert (H : containsFold (lit "title") (lit "BookTitlePage")).
  { exists (lit "Book"), (lit "Title"), (lit "Page"). split; reflexivity. }
  assert (H1 : clean (lit "My Book") <> []) by discriminate.
  assert (H2 : length (clean (lit "My Book")) <= 80) by (vm_compute; lia).
  assert (H3 : ~ headingPattern (clean (lit "My Book"))).
  { intros H3. apply headingPattern_spec in H3. vm_compute in H3.
    discriminate. }
  pose proof (@docx_style_heading asciiHost asciiHost_ok
                (lit "BookTitlePage") (lit "My Book") (or_introl H)) as G.
  split; [exact H|]. split; [exact (proj1 G)|]. split; [exact H3|].
  exact (proj2 (proj2 G) (or_introl H) H1 H2 H3).
Defined.

(** ** Front matter *)

Module FrontFacts.
Import Str Regex Editor Importer Shape Terms.
Import StrFacts RegexFacts ScanFacts CleanFacts PatternFacts HeadingFacts.
Import SplitFacts StyleFacts.

Lemma fold_lower (x c : N) :
  isAsciiLower c = true -> upcase x = upcase c ->
  downcase x = c /\ isWord x = true.
Proof.
  unfold upcase, downcase, isWord, isAsciiLower, isAsciiUpper. intros Hc.
  rewrite Hc. apply andb_true_iff in Hc as [H1 H2].
  apply N.leb_le in H1, H2.
  destruct (N.leb_spec 97 x), (N.leb_spec x 122), (N.leb_spec 65 x),
           (N.leb_spec x 90), (N.leb_spec 48 x), (N.leb_spec x 57);
    cbn [andb orb]; intros E; split; try reflexivity; try lia.
Qed.

Lemma fold_lower_all (m w : jsstr) :
  forallb isAsciiLower w = true -> map upcase m = map upcase w ->
  map downcase m = w /\ Forall (fun c => isWord c = true) m.
Proof.
  revert m. induction w as [|c w IH]; intros m Hw E.
  - destruct m; [now split|discriminate].
  - destruct m as [|x m]; [discriminate|]. injection E as Ex E.
    cbn [forallb] in Hw. apply andb_true_iff in Hw as [Hc Hw].
    destruct (@fold_lower x c Hc Ex) as [Hd Hx].
    destruct (IH m Hw E) as [Hm Hall].
    split; [cbn [map]; now rewrite Hd, Hm|now constructor].
Qed.

Lemma lastp_None (pre : jsstr) : lastp None pre = None -> pre = [].
Proof.
  destruct pre as [|x pre]; [reflexivity|]. simpl. generalize x.
  induction pre as [|y pre IH]; intros z H; [discriminate|]. now apply IH in H.
Qed.

Lemma Mat_alts_inv ic (l : list re) p m f :
  l <> [] -> Mat ic (alts l) p m f -> exists r, In r l /\ Mat ic r p m f.
Proof.
  induction l as [|a l IH]; intros Hne HM; [contradiction|].
  destruct l as [|b l].
  - exists a. split; [now left|exact HM].
  - change (alts (a :: b :: l)) with (Alt a (alts (b :: l))) in HM.
    inversion HM; subst.
    + exists a. split; [now left|assumption].
    + destruct IH as (r & Hr & Hm); [discriminate|assumption|].
      exists r. split; [now right|assumption].
Qed.

Lemma Mat_Seq_inv ic a b p m f :
  Mat ic (Seq a b) p m f ->
  exists m1 m2,
    m = m1 ++ m2 /\ Mat ic a p m1 (m2 ++ f) /\ Mat ic b (lastp p m1) m2 f.
Proof. intros H. inversion H; subst. eauto. Qed.

Lemma Mat_Bol_inv ic p m f : Mat ic Bol p m f -> p = None /\ m = [].
Proof. intros H. inversion H; subst. auto. Qed.

Lemma Mat_WordB_inv ic p m f :
  Mat ic WordB p m f ->
  m = [] /\ xorb (wordp p) (wordp (hd_error f)) = true.
Proof. intros H. inversion H; subst. auto. Qed.

Lemma FRONT_Matches (t : jsstr) : Matches FRONT_RE t <-> frontShape t.
Proof.
  unfold Matches, FRONT_RE. cbn [pattern ignoreCase seqs]. split.
  - intros (pre & m & f & -> & HM).
    apply Mat_Seq_inv in HM as (m1 & m2 & -> & H1 & H2).
    apply Mat_Bol_inv in H1 as [Hp ->]. apply lastp_None in Hp. subst pre.
    cbn [lastp app] in *.
    apply Mat_Seq_inv in H2 as (kw & m3 & -> & H3 & H4).
    apply Mat_Seq_inv in H4 as (m4 & m5 & -> & H5 & _).
    apply Mat_WordB_inv in H5 as [-> Hb]. cbn [app lastp] in *.
    apply Mat_alts_inv in H3 as (r & Hr & HMr); [|discriminate].
    apply in_map_iff in Hr as (w & <- & Hw).
    apply Mat_word_fold_inv in HMr.
    assert (Hlow : forallb isAsciiLower (lit w) = true).
    { revert Hw. clear. cbv [In].
      intros [<-|[<-|[<-|[<-|[<-|[]]]]]]; reflexivity. }
    destruct (@fold_lower_all _ _ Hlow HMr) as [Hd Hall].
    assert (Hne : kw <> []).
    { intros ->. revert Hd Hw. clear. cbv [In].
      intros Hd [<-|[<-|[<-|[<-|[<-|[]]]]]]; discriminate. }
    rewrite (@wordp_lastp kw None Hne Hall) in Hb.
    exists kw, (m5 ++ f). split; [now rewrite <- app_assoc|].
    split; [now exists w|]. now destruct (wordp (hd_error (m5 ++ f))).
  - intros (kw & rest & -> & Hkw & Hb).
    exists [], kw, rest. split; [reflexivity|]. cbn [lastp].
    apply (Mat_seq (m1 := []) (m2 := kw)); [reflexivity|apply MBol|].
    cbn [lastp].
    destruct (@token_number frontWords kw None ([] ++ rest) eq_refl Hkw)
      as [(r & Hin & HM) Hw].
    apply (Mat_seq (m1 := kw) (m2 := [])); [now rewrite app_nil_r| |].
    + eapply Mat_alts; [exact Hin|exact HM].
    + apply (Mat_seq (m1 := []) (m2 := [])); [reflexivity| |].
      * apply MWordB. cbn [app]. now rewrite Hw, Hb.
      * apply MMany; [reflexivity|simpl; lia].
Qed.

End FrontFacts.

Import FrontFacts.

(** X19.  The front-matter pattern: a text matches it exactly when it
    begins with prologue, epilogue, preface, foreword or afterword, in
    any case, followed by the end of the text or by something that is not
    a letter, a digit or an underscore.  A paragraph whose cleaned text
    is of that shape is heading-like whatever its style, and is never
    taken as the title of the novel. *)
Theorem front_matter_heading (host : Host) :
  (forall t, test FRONT_RE t = true <-> frontShape t)
  /\ (forall text style,
         frontShape (clean text) -> isHeadingLike text style = true)
  /\ (forall p, frontShape (clean (text p)) -> isTitle p = false).
Proof.
  assert (G : forall t, test FRONT_RE t = true <-> frontShape t).
  { intros t. rewrite test_Matches. apply FRONT_Matches. }
  split; [exact G|]. split.
  - intros text style H.
    assert (Hne : clean text <> []).
    { destruct H as (kw & rest & E & (w & Hw & Hd) & _). rewrite E.
      destruct kw; [|discriminate]. revert Hd Hw. clear. cbv [frontWords In].
      intros Hd [<-|[<-|[<-|[<-|[<-|[]]]]]]; discriminate. }
    apply G in H. rewrite isHeadingLike_rules, H by assumption.
    now rewrite orb_true_r.
  - intros p H. apply G in H. unfold isTitle. rewrite H.
    cbn [negb]. now rewrite andb_false_r.
Qed.

Lemma front_matter_heading_witness :
  frontShape (clean (lit " PROLOGUE:  the storm "))
  /\ isHeadingLike (host := asciiHost) (lit " PROLOGUE:  the storm ") [] = true.
Proof.
  assert (H : frontShape (clean (lit " PROLOGUE:  the storm "))).
  { exists (lit "PROLOGUE"), (lit ": the storm").
    split; [reflexivity|]. split; [|reflexivity].
    exists "prologue"%string. split; [now left|reflexivity]. }
  split; [exact H|].
  exact (proj1 (proj2 (front_matter_heading asciiHost)) _ [] H).
Defined.

(** ** The word counts *)

Module CountFacts.
Import Str Regex Editor Importer Shape Terms Counter.
Import StrFacts RegexFacts ScanFacts CleanFacts DocFacts CompileFacts.

(** A greedy class quantifier takes the whole run when what follows
    accepts at its end. *)
Lemma many_greedy (A : Type) p n prev (s : jsstr) (k : cont A) :
  (forall p', k p' (skipn (span p s) s) <> None) ->
  many p n prev s k =
  if n <=? span p s
  then k (lastp prev (firstn (span p s) s)) (skipn (span p s) s)
  else None.
Proof.
  revert n prev. induction s as [|x s IH]; intros n prev Hk.
  - simpl. now destruct n.
  - cbn [span] in Hk |- *. cbn [many]. destruct (p x) eqn:Hp.
    + cbn [skipn firstn lastp] in Hk |- *. rewrite IH by exact Hk.
      destruct n as [|n]; cbn [Nat.pred Nat.leb].
      * destruct (k _ _) eqn:E; [reflexivity|]. now apply Hk in E.
      * destruct (n <=? span p s); [|reflexivity].
        destruct (k _ _) eqn:E; [reflexivity|]. now apply Hk in E.
    + now destruct n.
Qed.

(** The length of the word that begins a string. *)
Lemma exec_WORD prev (s : jsstr) :
  exec WORD_RE prev s =
  if 1 <=? span (has false alnum) s then
    Some (span (has false alnum) s
          + match skipn (span (has false alnum) s) s with
            | q :: r =>
                if (u "'" =? q)%N && (1 <=? span (has false alnum) r)
                then 1 + span (has false alnum) r else 0
            | [] => 0
            end)
  else None.
Proof.
  unfold exec, WORD_RE, chr. cbn [pattern ignoreCase run].
  rewrite many_greedy.
  2:{ intros p'. destruct (one _ _ _); discriminate. }
  destruct (1 <=? span (has false alnum) s); [|reflexivity].
  pose proof (span_le (has false alnum) s) as Hle.
  assert (Hlen : length (skipn (span (has false alnum) s) s)
                 = length s - span (has false alnum) s) by apply length_skipn.
  destruct (skipn (span (has false alnum) s) s) as [|q r] eqn:E.
  - cbn [one]. f_equal. simpl in Hlen. simpl. lia.
  - cbn [one]. rewrite has_unit.
    destruct (N.eqb_spec (u "'") q) as [<-|Hq]; cbn [andb].
    + rewrite (many_top (has false alnum) 1 (Some (u "'")) r
                 (fun rest => length s - length rest)).
      pose proof (span_le (has false alnum) r) as Hr.
      destruct (1 <=? span (has false alnum) r).
      * f_equal. rewrite length_skipn. simpl in Hlen. lia.
      * f_equal. simpl in Hlen. simpl. lia.
    + f_equal. simpl in Hlen. simpl. lia.
Qed.

Lemma span_app_stop p (a : jsstr) (x : N) (b : jsstr) :
  p x = false -> span p (a ++ x :: b) = span p a.
Proof.
  intros Hx. induction a as [|y a IH]; simpl; [now rewrite Hx|].
  destruct (p y); [now rewrite IH|reflexivity].
Qed.

(** A separator ends the word before it, so that the match at the start
    of a string is the same with and without what follows the
    separator. *)
Lemma exec_WORD_sep prev prev' (a : jsstr) (x : N) (b : jsstr) :
  separator x -> exec WORD_RE prev (a ++ x :: b) = exec WORD_RE prev' a.
Proof.
  intros [Hx Hq]. rewrite !exec_WORD, (@span_app_stop _ a x b Hx).
  destruct (1 <=? span (has false alnum) a); [|reflexivity].
  pose proof (span_le (has false alnum) a) as Hle.
  rewrite skipn_app.
  replace (span (has false alnum) a - length a) with 0 by lia.
  cbn [skipn].
  destruct (skipn (span (has false alnum) a) a) as [|q r]; cbn [app].
  - destruct (N.eqb_spec (u "'") x); [congruence|reflexivity].
  - now rewrite (@span_app_stop _ r x b Hx).
Qed.

Lemma exec_WORD_le prev (s : jsstr) n :
  exec WORD_RE prev s = Some n -> 1 <= n <= length s.
Proof.
  intros H. pose proof H as H'.
  apply exec_sound in H as (m & f & -> & _ & ->). rewrite length_app.
  rewrite exec_WORD in H'.
  destruct (Nat.leb_spec 1 (span (has false alnum) (m ++ f))); [|discriminate].
  injection H' as H'. lia.
Qed.

(** The matches of a text cut at a separator are those of its parts. *)
Lemma match_go_sep (a : jsstr) (x : N) (b : jsstr) :
  separator x ->
  forall prev prev' skip,
    skip <= length a ->
    match_go WORD_RE prev skip (a ++ x :: b)
    = match_go WORD_RE prev' skip a ++ match_go WORD_RE (Some x) 0 b.
Proof.
  intros Hx. induction a as [|y a IH]; intros prev prev' skip Hs.
  - assert (skip = 0) by (simpl in Hs; lia). subst skip.
    cbn [app match_go].
    pose proof (@exec_WORD_sep prev prev' [] x b Hx) as E. cbn [app] in E.
    rewrite E, (exec_WORD prev' []). reflexivity.
  - cbn [app match_go]. destruct skip as [|k].
    + change (y :: a ++ x :: b) with ((y :: a) ++ x :: b).
      rewrite (@exec_WORD_sep prev prev' (y :: a) x b Hx).
      destruct (exec WORD_RE prev' (y :: a)) as [n|] eqn:E.
      * apply exec_WORD_le in E. destruct n as [|n]; [lia|].
        rewrite (IH (Some y) (Some y) n) by (simpl in E; lia).
        transitivity (firstn (S n) (y :: a)
                      :: (match_go WORD_RE (Some y) n a
                          ++ match_go WORD_RE (Some x) 0 b)); [|reflexivity].
        f_equal. rewrite firstn_app.
        replace (S n - length (y :: a)) with 0 by (simpl in *; lia).
        cbn [firstn]. now rewrite app_nil_r.
      * apply IH. lia.
    + apply IH. simpl in Hs. lia.
Qed.

Lemma match_go_prev prev prev' skip (s : jsstr) :
  match_go WORD_RE prev skip s = match_go WORD_RE prev' skip s.
Proof.
  revert prev prev' skip. induction s as [|x s IH]; intros prev prev' skip.
  - cbn [match_go]. now rewrite !exec_WORD.
  - cbn [match_go]. destruct skip; [|reflexivity].
    now rewrite (exec_WORD prev), (exec_WORD prev').
Qed.

Lemma match_all_sep (a : jsstr) (x : N) (b : jsstr) :
  separator x ->
  match_all WORD_RE (a ++ x :: b) = match_all WORD_RE a ++ match_all WORD_RE b.
Proof.
  intros Hx. unfold match_all.
  rewrite (@match_go_sep a x b Hx None None 0) by lia.
  now rewrite (@match_go_prev (Some x) None 0 b).
Qed.

Lemma match_all_nil : match_all WORD_RE [] = [].
Proof. reflexivity. Qed.

Lemma countWordsInString_length (s : jsstr) :
  countWordsInString s = length (match_all WORD_RE s).
Proof. unfold countWordsInString. now destruct s. Qed.

Lemma count_sep (a : jsstr) (x : N) (b : jsstr) :
  separator x ->
  countWordsInString (a ++ x :: b)
  = countWordsInString a + countWordsInString b.
Proof.
  intros Hx. rewrite !countWordsInString_length, (@match_all_sep a x b Hx).
  apply length_app.
Qed.

Lemma has_alnum (x : N) :
  has false alnum x = isAsciiUpper x || isAsciiLower x || in_rng 48 57 x.
Proof.
  unfold has, alnum. cbn [negated items cs xorb existsb item_has andb].
  now rewrite !orb_false_r, orb_assoc.
Qed.

Lemma white_separator (x : N) : isWhite x = true -> separator x.
Proof.
  intros H. split.
  - destruct (has false alnum x) eqn:E; [exfalso|reflexivity].
    rewrite has_alnum in E.
    unfold isWhite, isAsciiUpper, isAsciiLower, in_rng in *.
    SafeFacts.to_arith. lia.
  - intros ->. discriminate.
Qed.

(** The word count of a text is the sum over its white-space words. *)
Lemma count_words_go (s cur : jsstr) :
  countWordsInString (cur ++ s)
  = list_sum (map countWordsInString (words_go cur s)).
Proof.
  revert cur. induction s as [|x s IH]; intros cur; cbn [words_go].
  - rewrite app_nil_r. destruct cur; simpl; [reflexivity|lia].
  - destruct (isWhite x) eqn:Hx.
    + rewrite (@count_sep cur x s (@white_separator x Hx)).
      rewrite map_app, list_sum_app, <- (IH []). cbn [app]. f_equal.
      destruct cur; simpl; [reflexivity|lia].
    + rewrite <- IH, <- app_assoc. reflexivity.
Qed.

Lemma count_words (s : jsstr) :
  countWordsInString s = list_sum (map countWordsInString (words s)).
Proof. apply (count_words_go s []). Qed.

(** A run of letters and digits is one word. *)
Lemma span_all p (w : jsstr) : forallb p w = true -> span p w = length w.
Proof.
  induction w as [|x w IH]; [reflexivity|]. simpl.
  intros H. apply andb_true_iff in H as [-> H]. now rewrite IH.
Qed.

Lemma match_go_skip_all prev (s : jsstr) :
  match_go WORD_RE prev (length s) s = [].
Proof.
  revert prev. induction s as [|x s IH]; intros prev; cbn [match_go length].
  - now rewrite exec_WORD.
  - apply IH.
Qed.

Lemma count_run (w : jsstr) :
  w <> [] -> forallb (has false alnum) w = true -> countWordsInString w = 1.
Proof.
  intros Hne Hw. rewrite countWordsInString_length. unfold match_all.
  destruct w as [|x w]; [contradiction|]. cbn [match_go].
  rewrite exec_WORD, (@span_all _ _ Hw), skipn_all.
  cbn [length Nat.leb]. rewrite Nat.add_0_r.
  now rewrite match_go_skip_all.
Qed.

Lemma words_go_units (s cur w : jsstr) (x : N) :
  In w (words_go cur s) -> In x w -> In x cur \/ In x s.
Proof.
  revert cur. induction s as [|y s IH]; intros cur Hw Hx; cbn [words_go] in Hw.
  - destruct cur; [destruct Hw|]. destruct Hw as [<-|[]]. now left.
  - destruct (isWhite y).
    + apply in_app_or in Hw as [Hw|Hw].
      * destruct cur; [destruct Hw|]. destruct Hw as [<-|[]]. now left.
      * destruct (IH [] Hw Hx) as [[]|H]. right. now right.
    + destruct (IH _ Hw Hx) as [H|H]; [|right; now right].
      apply in_app_or in H as [H|[<-|[]]]; [now left|right; now left].
Qed.

(** *** The count of a document *)

Lemma count_eq type text content :
  countWordsFromJson (Node type text content) =
  if eqb type (lit "text") then
    countWordsInString (or_else (match text with Some t => t | None => [] end) [])
  else
    list_sum (map countWordsFromJson
                  (match content with Some l => l | None => [] end)).
Proof.
  cbn [countWordsFromJson]. destruct (eqb type (lit "text")); [reflexivity|].
  destruct content as [l|]; [|reflexivity].
  assert (G : forall l sum,
             (fix each (l : list node) (sum : nat) {struct l} : nat :=
                match l with
                | [] => sum
                | child :: l' => each l' (sum + countWordsFromJson child)
                end) l sum
             = sum + list_sum (map countWordsFromJson l)).
  { clear. induction l as [|c l IH]; intros sum; simpl; [lia|].
    rewrite IH. lia. }
  apply (G l 0).
Qed.

Lemma count_join_LF (ls : list jsstr) :
  countWordsInString (join [LF] ls)
  = list_sum (map countWordsInString ls).
Proof.
  induction ls as [|t rest IH]; [reflexivity|].
  destruct rest as [|t' rest].
  - simpl. lia.
  - rewrite join_cons by discriminate. cbn [app].
    rewrite (@count_sep t LF _ (@white_separator LF eq_refl)), IH. reflexivity.
Qed.

Lemma count_lines_content (ls : list jsstr) :
  list_sum (map countWordsFromJson (lines_content ls))
  = list_sum (map countWordsInString ls).
Proof.
  induction ls as [|t rest IH]; [reflexivity|].
  cbn [lines_content]. rewrite !map_app, !list_sum_app, IH.
  replace (list_sum (map countWordsFromJson
                       match rest with [] => [] | _ :: _ => [hardBreak] end))
    with 0 by (destruct rest; reflexivity).
  destruct t as [|c t]; [reflexivity|]. cbn [truthy map].
  unfold textNode. rewrite count_eq, eqb_refl, or_else_nil.
  unfold list_sum. cbn [fold_right]. lia.
Qed.

Lemma count_paragraph (par : jsstr) :
  countWordsFromJson (paragraphToTiptap par) = countWordsInString par.
Proof.
  unfold paragraphToTiptap. rewrite or_else_nil, count_eq.
  change (eqb (lit "paragraph") (lit "text")) with false. cbv iota.
  rewrite <- (split_unit_join LF par) at 2. rewrite count_join_LF.
  rewrite <- count_lines_content.
  destruct (lines_content (split_unit LF par)); reflexivity.
Qed.

Lemma count_textToDoc (text : jsstr) :
  countWordsFromJson (textToDoc text) = countWordsInString text.
Proof.
  rewrite textToDoc_blocks, count_eq.
  change (eqb (lit "doc") (lit "text")) with false. cbv iota.
  rewrite (count_words text), <- words_blocksOf.
  destruct (blocksOf text) as [|b bs]; [reflexivity|].
  induction (b :: bs) as [|c l IH]; [reflexivity|].
  cbn [map list_sum concat]. rewrite map_app, list_sum_app, <- IH.
  now rewrite count_paragraph, (count_words c).
Qed.

End CountFacts.

Import Counter NormalFacts CountFacts.

(** X20.  The word count of a string adds up over separators: a code
    unit that is neither a letter or digit nor the apostrophe ends the
    word before it.  So the count is the sum of the counts of the
    white-space words, and for a text of letters, digits and white space
    it is the number of these words. *)
Theorem countWordsInString_words :
  (forall a x b,
      separator x ->
      countWordsInString (a ++ x :: b)
      = countWordsInString a + countWordsInString b)
  /\ (forall s,
         countWordsInString s = list_sum (map countWordsInString (words s)))
  /\ (forall s,
         Forall plainUnit s -> countWordsInString s = length (words s)).
Proof.
  split; [exact count_sep|]. split; [exact count_words|].
  intros s Hs. rewrite count_words.
  assert (H : Forall (fun w => countWordsInString w = 1) (words s)).
  { pose proof (words_solid s) as Hsolid. rewrite Forall_forall in *.
    intros w Hw. destruct (Hsolid w Hw) as [Hne Hnw].
    apply count_run; [exact Hne|]. apply forallb_forall. intros x Hx.
    destruct (@words_go_units s [] w x Hw Hx) as [[]|Hin].
    rewrite Forall_forall in Hnw.
    destruct (Hs x Hin) as [Ha|Hwhite]; [exact Ha|].
    rewrite (Hnw x Hx) in Hwhite. discriminate. }
  induction H as [|w l Hw _ IH]; [reflexivity|].
  cbn [map length]. unfold list_sum in *. cbn [fold_right]. lia.
Qed.

Lemma countWordsInString_words_witness :
  separator (u "-")
  /\ countWordsInString (lit "don't" ++ u "-" :: lit "stop 2")
     = countWordsInString (lit "don't") + countWordsInString (lit "stop 2")
  /\ Forall plainUnit (lit "one two  3")
  /\ countWordsInString (lit "one two  3") = length (words (lit "one two  3")).
Proof.
  assert (H : separator (u "-")) by (split; [reflexivity|discriminate]).
  assert (H' : Forall plainUnit (lit "one two  3")).
  { repeat (constructor; [first [left; reflexivity|right; reflexivity]|]).
    constructor. }
  split; [exact H|]. split.
  - exact (proj1 countWordsInString_words
             (lit "don't") (u "-") (lit "stop 2") H).
  - split; [exact H'|].
    exact (proj2 (proj2 countWordsInString_words) (lit "one two  3") H').
Defined.

(** X21.  Compiling a text keeps its word count: the count of the
    document that [textToDoc] builds, taken node by node, is the count of
    the text, and so for one paragraph. *)
Theorem countWords_compiled :
  (forall text, countWordsFromJson (textToDoc text) = countWordsInString text)
  /\ (forall par,
         countWordsFromJson (paragraphToTiptap par) = countWordsInString par).
Proof. split; [exact count_textToDoc|exact count_paragraph]. Qed.

(** ** The DOCX decoder *)

Module DocxFacts.
Import Str Regex Editor Importer Shape Terms Decoders.
Import StrFacts RegexFacts ScanFacts CleanFacts PatternFacts TightFacts.
Import CompileFacts FrontFacts.

(** When a greedy run followed by one unit of [q] has matched, no later
    end was possible: after the match no run is followed by a unit of
    [q]. *)
Lemma many_last (A : Type) (p q : N -> bool) (g : jsstr -> A) :
  (forall x, q x = true -> p x = true) ->
  forall (s : jsstr) n prev a,
    many p n prev s (fun _ s' => one q s' (fun _ rest => Some (g rest)))
    = Some a ->
    exists m rest,
      s = m ++ rest /\ a = g rest
      /\ forall w x t,
           rest = w ++ x :: t -> q x = true -> forallb p w = true -> False.
Proof.
  intros Hqp. induction s as [|x s IH]; intros n prev a H; cbn [many] in H.
  - destruct n; discriminate.
  - destruct (p x) eqn:Hp.
    + destruct (many p (Nat.pred n) (Some x) s _) as [a'|] eqn:E.
      * injection H as <-. apply IH in E as (m & rest & -> & Ha & Hrest).
        exists (x :: m), rest. repeat split; auto.
      * destruct n; [|discriminate]. cbn [one] in H.
        destruct (q x) eqn:Hq; [|discriminate]. injection H as <-.
        exists [x], s. split; [reflexivity|]. split; [reflexivity|].
        intros w y t -> Hy Hw.
        destruct (@many_complete A p 0 (Some x) w (y :: t)
                    (fun _ s' => one q s' (fun _ rest => Some (g rest)))
                    (g t) Hw (Nat.le_0_l _)) as [a' Ha'].
        { cbn [one]. now rewrite Hy. }
        cbn [Nat.pred] in E. congruence.
    + destruct n; [|discriminate]. cbn [one] in H.
      destruct (q x) eqn:Hq; [|discriminate].
      apply Hqp in Hq. congruence.
Qed.

Lemma exec_WS_NL_sound prev (s : jsstr) n :
  exec WS_NL prev s = Some n ->
  exists w f, s = w ++ LF :: f /\ w <> [] /\ allWhite w /\ n = S (length w).
Proof.
  intros H. apply exec_sound in H as (m & f & -> & HM & ->).
  cbn [WS_NL pattern ignoreCase] in HM.
  apply Mat_Seq_inv in HM as (w & m2 & -> & H1 & H2).
  inversion H1 as [| | | | | | |? ? ? ? ? Hall Hn| | |]; subst.
  apply Mat_chr in H2 as (x & -> & Hx). rewrite has_unit in Hx.
  apply N.eqb_eq in Hx. subst x.
  exists w, f. split; [now rewrite <- app_assoc|].
  split; [destruct w; [simpl in Hn; lia|discriminate]|].
  split; [now apply (forallb_allWhite false)|].
  rewrite length_app. simpl. lia.
Qed.

Lemma exec_WS_NL_complete prev (w f : jsstr) :
  w <> [] -> allWhite w -> exec WS_NL prev (w ++ LF :: f) <> None.
Proof.
  intros Hne Hw.
  replace (w ++ LF :: f) with ((w ++ [LF]) ++ f) by now rewrite <- app_assoc.
  apply exec_complete. cbn [WS_NL pattern ignoreCase].
  apply (Mat_seq (m1 := w) (m2 := [LF])); [reflexivity| |].
  - apply MMany; [now apply forallb_allWhite|].
    destruct w; [contradiction|simpl; lia].
  - apply MOne. apply has_exact.
Qed.

Lemma exec_WS_NL_rest prev (s : jsstr) n :
  exec WS_NL prev s = Some n ->
  forall w t, skipn n s = w ++ LF :: t -> ~ allWhite w.
Proof.
  intros H w t E Hw. unfold exec, WS_NL, chr in H.
  cbn [pattern ignoreCase run] in H.
  apply (@many_last nat (has false (cs [White])) (has false (cs [Ch LF]))
           (fun rest => length s - length rest)) in H.
  2:{ intros x Hx. rewrite has_white. now apply unit_LF. }
  destruct H as (m & rest & -> & -> & Hrest).
  rewrite length_app in E.
  replace (length m + length rest - length rest) with (length m) in E by lia.
  rewrite skipn_app, skipn_all, Nat.sub_diag in E. cbn [skipn app] in E.
  apply (Hrest w LF t E); [apply has_exact|].
  now apply forallb_allWhite.
Qed.

(** The replacement of /\s+\n/g leaves no line feed after white space. *)
Lemma replace_WS_NL_breaks (s : jsstr) :
  forall prev skip e,
    skip <= length s ->
    (whiteBefore e = true ->
     forall w t, skipn skip s = w ++ LF :: t -> ~ allWhite w) ->
    breaksFollow e (replace_go WS_NL [LF] prev skip s).
Proof.
  induction s as [|x s IH]; intros prev skip e Hs HP.
  - cbn [replace_go]. destruct skip; [|exact I].
    destruct (exec WS_NL prev []) eqn:E; [|exact I].
    apply exec_WS_NL_sound in E as (w & f & E & _). now destruct w.
  - cbn [replace_go]. destruct skip as [|k].
    + cbn [skipn] in HP. destruct (exec WS_NL prev (x :: s)) as [n|] eqn:E.
      * pose proof (exec_WS_NL_rest _ _ E) as Hrest.
        apply exec_WS_NL_sound in E as (w & f & Es & Hne & Hw & ->).
        assert (Hlen : length w <= length s).
        { apply (f_equal (@length N)) in Es. rewrite length_app in Es.
          simpl in Es. lia. }
        cbn [app breaksFollow]. split.
        -- intros _. destruct (whiteBefore e) eqn:He; [exfalso|reflexivity].
           exact (HP eq_refl w f Es Hw).
        -- apply IH; [exact Hlen|]. intros _ w' t Hw'.
           apply (Hrest w' t). exact Hw'.
      * cbn [breaksFollow]. split.
        -- intros ->. destruct (whiteBefore e) eqn:He; [exfalso|reflexivity].
           exact (HP eq_refl [] s eq_refl (Forall_nil _)).
        -- apply IH; [lia|]. cbn [whiteBefore skipn]. intros Hx w t -> Hw.
           apply (@exec_WS_NL_complete prev (x :: w) t); [discriminate| |exact E].
           now constructor.
    + apply IH; [simpl in Hs; lia|]. exact HP.
Qed.

Lemma breaksFollow_prefix (a b : jsstr) e :
  breaksFollow e (a ++ b) -> breaksFollow e a.
Proof.
  revert e. induction a as [|x a IH]; intros e H; [exact I|].
  destruct H as [H1 H2]. split; [exact H1|now apply IH].
Qed.

Lemma breaksFollow_trimStart (s : jsstr) e :
  breaksFollow e s -> breaksFollow None (trimStart s).
Proof.
  revert e. induction s as [|x s IH]; intros e H; [exact I|].
  destruct H as [H1 H2]. cbn [trimStart]. destruct (isWhite x) eqn:Hx.
  - now apply IH in H2.
  - split; [reflexivity|exact H2].
Qed.

Lemma breaksFollow_trim (s : jsstr) e :
  breaksFollow e s -> breaksFollow None (trim s).
Proof.
  intros H. apply breaksFollow_trimStart in H. unfold trim.
  destruct (trimEnd_prefix (trimStart s)) as [t E]. rewrite E in H.
  now apply breaksFollow_prefix in H.
Qed.

Lemma breaksFollow_clean (t : jsstr) e :
  breaksFollow e t ->
  forall a b, t = a ++ LF :: b ->
              a = [] \/ exists a' y, a = a' ++ [y] /\ isWhite y = false.
Proof.
  intros H a. revert e t H. induction a as [|x a IH]; intros e t H b E.
  - now left.
  - right. subst t. destruct H as [_ H]. destruct a as [|y a].
    + exists [], x. split; [reflexivity|]. destruct H as [H _].
      now apply H.
    + destruct (IH _ _ H b eq_refl) as [?|(a' & z & Ea & Hz)]; [discriminate|].
      exists (x :: a'), z. split; [now rewrite Ea|exact Hz].
Qed.

Lemma paragraphText_breaks (out : list jsstr) :
  tight (paragraphText out) /\ cleanBreaks (paragraphText out).
Proof.
  unfold paragraphText. split; [apply trim_tight|].
  set (o := replace_all WS_NL [LF] (join [] out)).
  assert (H : breaksFollow None (trim o)).
  { apply (@breaksFollow_trim o None). apply replace_WS_NL_breaks; [lia|].
    discriminate. }
  intros a b E.
  destruct (@breaksFollow_clean (trim o) None H a b E) as [->|G];
    [exfalso|exact G].
  pose proof (trim_ends o) as T. rewrite E in T. cbn [app] in T.
  destruct T as [T|[(h & t & T & Hh) _]]; [discriminate|].
  injection T as <- _. discriminate.
Qed.

Lemma cleanBreaks_nbl (t : jsstr) : cleanBreaks t -> noBlankLine t.
Proof.
  intros H.
  assert (G : forall a s, t = a ++ s -> noBlankLine s).
  { intros a s. revert a. induction s as [|x s IH]; intros a E; [exact I|].
    destruct s as [|y s]; [exact I|]. split.
    - intros [-> ->].
      destruct (H (a ++ [LF]) s) as (a' & z & Ea & Hz);
        [now rewrite <- app_assoc|].
      apply app_inj_tail in Ea as [_ <-]. discriminate.
    - apply (IH (a ++ [x])). now rewrite <- app_assoc. }
  exact (G [] t eq_refl).
Qed.

End DocxFacts.

Import DocxFacts.

(** X22.  The text that [parseDOCX] makes of a paragraph has no white
    space at its ends, and before every line feed in it there is a code
    unit that is not white space: no line ends with white space and no
    line is blank. *)
Theorem paragraphText_lines (out : list jsstr) :
  tight (paragraphText out)
  /\ cleanBreaks (paragraphText out)
  /\ noBlankLine (paragraphText out).
Proof.
  destruct (paragraphText_breaks out) as [H1 H2].
  split; [exact H1|]. split; [exact H2|]. now apply cleanBreaks_nbl.
Qed.

(** X23.  [parseDOCX] skips the paragraphs without visible text and
    gives every other one the mapped name of its style: each paragraph it
    returns has a text that is not blank, and the filter at the start of
    [splitFromParagraphs] keeps all of them unchanged. *)
Theorem docxParagraphs_usable (ps : list (jsstr * list jsstr)) :
  Forall (fun p => clean (text p) <> [] /\ tight (text p)
                   /\ noBlankLine (text p)
                   /\ exists q, In q ps /\ text p = paragraphText (snd q)
                                /\ style p = styleName (fst q))
         (docxParagraphs ps)
  /\ usable (docxParagraphs ps) = docxParagraphs ps.
Proof.
  split.
  - unfold docxParagraphs. apply Forall_forall. intros p Hp.
    apply in_flat_map in Hp as (q & Hq & Hp).
    destruct (clean (paragraphText (snd q))) as [|c r] eqn:E;
      cbn [truthy negb] in Hp; [destruct Hp|].
    destruct Hp as [<-|[]]. cbn [text style]. rewrite E.
    destruct (paragraphText_breaks (snd q)) as [H1 H2].
    split; [discriminate|]. split; [exact H1|].
    split; [now apply cleanBreaks_nbl|]. now exists q.
  - unfold usable, docxParagraphs.
    induction ps as [|q ps IH]; [reflexivity|]. cbn [flat_map].
    rewrite map_app, filter_app, IH. f_equal.
    destruct (clean (paragraphText (snd q))) as [|c r] eqn:E;
      cbn [truthy negb]; [reflexivity|].
    cbn [map filter text style]. rewrite !or_else_nil, E. reflexivity.
Qed.

(** ** The body of a chapter and its paragraphs *)

Module BodyFacts.
Import Str Regex Editor Importer Shape Terms.
Import StrFacts RegexFacts ScanFacts CleanFacts PatternFacts TightFacts.
Import CompileFacts ProjectionFacts RtfFacts FrontFacts.

Lemma tidy_last (b : jsstr) : tidy b -> forall a, b <> a ++ [LF].
Proof.
  intros (Hne & Ht & _) a E.
  destruct (tight_ends Hne Ht) as [_ (a' & z & Ez & Hz)].
  rewrite E in Ez. apply app_inj_tail in Ez as [_ <-]. discriminate.
Qed.

(** Inside a paragraph without blank line /\n{2,}/ finds nothing. *)
Lemma split_go_block (b : jsstr) :
  forall prev cur tail,
    noBlankLine b -> (forall a, b <> a ++ [LF]) ->
    split_go NL2 prev 0 cur (b ++ tail)
    = split_go NL2 (lastp prev b) 0 (cur ++ b) tail.
Proof.
  induction b as [|x b IH]; intros prev cur tail Hn Hl.
  - now rewrite app_nil_r.
  - cbn [app split_go lastp]. unfold NL2 at 1. rewrite exec_many.
    assert (Hs : span (has false (cs [Ch LF])) (x :: b ++ tail) <= 1).
    { rewrite span_LF. destruct (N.eqb_spec LF x) as [<-|_]; [|lia].
      destruct b as [|y b]; [exfalso; now apply (Hl [])|].
      cbn [app]. rewrite span_LF.
      destruct (N.eqb_spec LF y) as [<-|_]; [|lia].
      cbn [noBlankLine] in Hn. tauto. }
    destruct (Nat.leb_spec 2 (span (has false (cs [Ch LF])) (x :: b ++ tail)));
      [lia|].
    rewrite IH.
    + now rewrite <- app_assoc.
    + now apply nbl_tail in Hn.
    + intros a E. apply (Hl (x :: a)). now rewrite E.
Qed.

Lemma join_head (sep b : jsstr) (h : N) (t : jsstr) (l : list jsstr) :
  b = h :: t -> exists t', join sep (b :: l) = h :: t'.
Proof. intros ->. destruct l; simpl; eauto. Qed.

Lemma split_go_gap prev (cur s : jsstr) :
  span (has false (cs [Ch LF])) s = 0 ->
  split_go NL2 prev 0 cur (LF :: LF :: s)
  = cur :: split_go NL2 (Some LF) 0 [] s.
Proof.
  intros H. cbn [split_go]. unfold NL2 at 1.
  rewrite exec_many, (span_LF (LF :: LF :: s)), (span_LF (LF :: s)),
    !N.eqb_refl, H.
  reflexivity.
Qed.

(** Tidy paragraphs joined by blank lines are cut again where they were
    joined. *)
Lemma split_join (bs : list jsstr) :
  forall b prev,
    Forall tidy (b :: bs) ->
    split_go NL2 prev 0 [] (join [LF; LF] (b :: bs)) = b :: bs.
Proof.
  induction bs as [|b2 bs IH]; intros b prev H.
  - inversion H as [|? ? Hb _]; subst. cbn [join].
    rewrite <- (app_nil_r b) at 1.
    rewrite split_go_block;
      [reflexivity|now destruct Hb as (_ & _ & Hn & _)|now apply tidy_last].
  - inversion H as [|? ? Hb H2]; subst.
    change (join [LF; LF] (b :: b2 :: bs))
      with (b ++ [LF; LF] ++ join [LF; LF] (b2 :: bs)).
    rewrite split_go_block;
      [|now destruct Hb as (_ & _ & Hn & _)|now apply tidy_last].
    inversion H2 as [|? ? Hb2 _]; subst.
    destruct Hb2 as (Hne2 & Ht2 & _).
    destruct (tight_ends Hne2 Ht2) as [(h & t & Eb & Hh) _].
    destruct (@join_head [LF; LF] b2 h t bs Eb) as [t' Ej].
    cbn [app]. rewrite split_go_gap.
    + f_equal. apply IH. exact H2.
    + rewrite Ej, span_LF.
      destruct (N.eqb_spec LF h) as [<-|_]; [discriminate|reflexivity].
Qed.

Lemma join_no_CR (bs : list jsstr) :
  Forall tidy bs -> ~ In CR (join [LF; LF] bs).
Proof.
  induction 1 as [|b bs (_ & _ & _ & Hb) _ IH]; [auto|].
  rewrite join_cons. destruct bs as [|b2 bs]; [exact Hb|].
  intros H. apply in_app_or in H as [H|H]; [now apply Hb|].
  destruct H as [H|[H|H]]; [discriminate|discriminate|now apply IH].
Qed.

Lemma no_CR_fixed (s : jsstr) :
  ~ In CR s ->
  replace_all CR_RE [LF] (replace_all CRLF [LF] s) = s.
Proof.
  intros H.
  assert (E : replace_all CRLF [LF] s = s).
  { apply replace_go_none. intros prev pre suf -> .
    destruct (exec CRLF prev suf) eqn:E; [exfalso|reflexivity].
    apply exec_sound in E as (m & f & -> & HM & _).
    cbn [CRLF pattern ignoreCase] in HM.
    apply Mat_Seq_inv in HM as (m1 & m2 & -> & H1 & _).
    apply Mat_chr in H1 as (x & -> & Hx). rewrite has_unit in Hx.
    apply N.eqb_eq in Hx. subst x. apply H.
    apply in_or_app. right. now left. }
  rewrite E. clear E. unfold CR_RE, chr. rewrite replace_all_one.
  induction s as [|x s IH]; [reflexivity|]. cbn [flat_map].
  rewrite has_unit. destruct (N.eqb_spec CR x) as [<-|_].
  - exfalso. apply H. now left.
  - cbn [app]. f_equal. apply IH. intros Hs. apply H. now right.
Qed.

Lemma trim_ends_id (s : jsstr) (h : N) (t a : jsstr) (z : N) :
  s = h :: t -> isWhite h = false -> s = a ++ [z] -> isWhite z = false ->
  trim s = s.
Proof.
  intros Eh Hh Ez Hz. unfold trim.
  replace (trimStart s) with s by (rewrite Eh; simpl; now rewrite Hh).
  rewrite Ez. now apply trimEnd_snoc_keep.
Qed.

Lemma join_tight (bs : list jsstr) :
  Forall tidy bs -> trim (join [LF; LF] bs) = join [LF; LF] bs.
Proof.
  intros H. destruct H as [|b bs Hb H]; [reflexivity|].
  assert (Hh : exists h t, join [LF; LF] (b :: bs) = h :: t
                           /\ isWhite h = false).
  { destruct Hb as (Hne & Ht & _).
    destruct (tight_ends Hne Ht) as [(h & t & Eb & Hh) _].
    destruct (@join_head [LF; LF] b h t bs Eb) as [t' Ej]. eauto. }
  assert (Hz : exists a z, join [LF; LF] (b :: bs) = a ++ [z]
                           /\ isWhite z = false).
  { clear Hh. revert b Hb. induction H as [|b2 bs Hb2 H IH]; intros b Hb.
    - destruct Hb as (Hne & Ht & _).
      destruct (tight_ends Hne Ht) as [_ Hlast]. exact Hlast.
    - destruct (IH b2 Hb2) as (a & z & E & Hz). rewrite join_cons, E.
      exists (b ++ [LF; LF] ++ a), z. split; [|exact Hz].
      now rewrite <- !app_assoc. }
  destruct Hh as (h & t & Eh & Hh). destruct Hz as (a & z & Ez & Hz).
  now apply (@trim_ends_id _ h t a z).
Qed.

Lemma blocks_of_body (body : list jsstr) :
  Forall tidy body -> blocksOf (trim (join [LF; LF] body)) = body.
Proof.
  intros H. rewrite (@join_tight body H). unfold blocksOf.
  rewrite or_else_nil, (@no_CR_fixed _ (@join_no_CR body H)).
  destruct H as [|b bs Hb H]; [reflexivity|].
  assert (Hall : Forall tidy (b :: bs)) by now constructor.
  unfold split.
  destruct (join [LF; LF] (b :: bs)) as [|x s] eqn:E.
  - exfalso. destruct Hb as (Hne & _). rewrite join_cons in E.
    destruct bs; [congruence|]. apply app_eq_nil in E as [E _]. congruence.
  - rewrite <- E, (@split_join bs b None Hall).
    clear E. induction Hall as [|c l (Hne & Ht & _) _ IH]; [reflexivity|].
    cbn [map filter]. rewrite Ht.
    destruct c; [contradiction|]. cbn [truthy]. now rewrite IH.
Qed.

End BodyFacts.

Import BodyFacts.

(** X24.  The body of a chapter comes back paragraph by paragraph: when
    the paragraphs collected for a chapter are tidy (not empty, no white
    space at the ends, no blank line, no carriage return), the text that
    [pushCurrent] makes of them is cut by [textToDoc] into these same
    paragraphs, one paragraph node each, and the projection of the
    document lists them separated by single line feeds. *)
Theorem body_round_trip (body : list jsstr) :
  Forall tidy body ->
  blocksOf (trim (join [LF; LF] body)) = body
  /\ (body <> [] ->
      textToDoc (trim (join [LF; LF] body))
      = Node (lit "doc") None (Some (map paragraphToTiptap body)))
  /\ editorToPlainText (textToDoc (trim (join [LF; LF] body)))
     = join [LF] body.
Proof.
  intros H. pose proof (@blocks_of_body body H) as E.
  split; [exact E|]. split.
  - intros Hne. rewrite textToDoc_blocks, E. now destruct body.
  - rewrite (proj1 (projection_exact _)). now rewrite E.
Qed.

Lemma body_round_trip_witness :
  Forall tidy [lit "It was dawn."; lit "She left." ++ LF :: lit "He stayed."]
  /\ blocksOf (trim (join [LF; LF]
                       [lit "It was dawn.";
                        lit "She left." ++ LF :: lit "He stayed."]))
     = [lit "It was dawn."; lit "She left." ++ LF :: lit "He stayed."].
Proof.
  assert (H : Forall tidy
                [lit "It was dawn."; lit "She left." ++ LF :: lit "He stayed."]).
  { repeat constructor; try discriminate; try reflexivity;
      try (vm_compute; repeat split; intros [A B]; discriminate);
      try (vm_compute; intuition discriminate). }
  split; [exact H|]. exact (proj1 (@body_round_trip _ H)).
Defined.

(** ** Part headings *)

Module PartFacts.
Import Str Regex Editor Importer Shape Terms.
Import StrFacts RegexFacts ScanFacts CleanFacts PatternFacts HeadingFacts.
Import SplitFacts StyleFacts FrontFacts.

Lemma Mat_Many_inv ic n c p m f :
  Mat ic (Many n c) p m f -> forallb (has ic c) m = true /\ n <= length m.
Proof. intros H. inversion H; subst. auto. Qed.

(** What the tokens of the number match under the i flag. *)
Lemma digits_token (tok : jsstr) p f : Mat true digits p tok f -> isDigits tok.
Proof.
  unfold digits. intros H. apply Mat_Many_inv in H as [Hall Hn]. split.
  - destruct tok; [simpl in Hn; lia|discriminate].
  - apply Forall_forall. intros x Hx.
    eapply forallb_forall in Hall; [|exact Hx].
    unfold has in Hall. cbn [negated items cs existsb item_has xorb] in Hall.
    change (u "0") with 48%N in Hall. change (u "9") with 57%N in Hall.
    rewrite orb_false_r, SafeFacts.fold_digits in Hall.
    unfold in_rng in Hall. apply andb_true_iff in Hall as [H1 H2].
    apply N.leb_le in H1, H2. lia.
Qed.

Lemma roman_token (tok : jsstr) p f : Mat true roman p tok f -> isRoman tok.
Proof.
  unfold roman. intros H. apply Mat_Many_inv in H as [Hall Hn]. split.
  - destruct tok; [simpl in Hn; lia|discriminate].
  - apply Forall_forall. intros x Hx.
    eapply forallb_forall in Hall; [|exact Hx].
    unfold has in Hall. cbn [negated items cs xorb] in Hall.
    apply existsb_exists in Hall as (i & Hi & Hm).
    apply in_map_iff in Hi as (c & <- & Hc). cbn [item_has] in Hm.
    apply N.eqb_eq in Hm.
    assert (Hlow : isAsciiLower c = true).
    { revert Hc. clear. cbv [lit In]. simpl.
      intros [<-|[<-|[<-|[<-|[<-|[<-|[<-|[]]]]]]]]; reflexivity. }
    destruct (@fold_lower x c Hlow (eq_sym Hm)) as [Hd _]. now rewrite Hd.
Qed.

Lemma PART_Matches (t : jsstr) : Matches PART_RE t <-> partShape t.
Proof.
  unfold Matches, PART_RE. cbn [pattern ignoreCase seqs]. split.
  - intros (pre & m & f & -> & HM).
    apply Mat_Seq_inv in HM as (m1 & m2 & -> & H1 & H2).
    apply Mat_Bol_inv in H1 as [Hp ->]. apply lastp_None in Hp. subst pre.
    cbn [lastp app] in *.
    apply Mat_Seq_inv in H2 as (kw & m3 & -> & Hkw & H3).
    apply Mat_Seq_inv in H3 as (ws & m4 & -> & Hws & H4).
    apply Mat_Seq_inv in H4 as (tok & m5 & -> & Htok & H5).
    apply Mat_Seq_inv in H5 as (m6 & m7 & -> & Hb & _).
    apply Mat_WordB_inv in Hb as [-> Hb]. cbn [app] in *.
    apply Mat_word_fold_inv in Hkw.
    destruct (@fold_lower_all kw (lit "part") eq_refl Hkw) as [Hd _].
    apply Mat_Many_inv in Hws as [Hws Hn].
    apply (forallb_allWhite true) in Hws.
    set (p := lastp (lastp None kw) ws) in *.
    assert (HT : (isDigits tok \/ isRoman tok
                  \/ exists w, In w partWords /\ map downcase tok = lit w)
                 /\ wordp (lastp p tok) = true).
    { apply Mat_alts_inv in Htok as (r & Hr & HMr); [|discriminate].
      destruct Hr as [<-|[<-|Hr]].
      - apply digits_token in HMr. split; [now left|].
        apply (token_digits p [] HMr).
      - apply roman_token in HMr. split; [right; now left|].
        apply (token_roman p [] HMr).
      - apply in_map_iff in Hr as (w & <- & Hw).
        apply Mat_word_fold_inv in HMr.
        assert (Hlow : forallb isAsciiLower (lit w) = true).
        { revert Hw. clear. cbv [In].
          intros [<-|[<-|[<-|[<-|[<-|[<-|[<-|[<-|[<-|[<-|[]]]]]]]]]]];
            reflexivity. }
        destruct (@fold_lower_all _ _ Hlow HMr) as [Hdw _].
        assert (Hex : exists w, In w partWords /\ map downcase tok = lit w)
          by (exists w; now split).
        split; [right; right; exact Hex|].
        apply (@token_number partWords tok p [] eq_refl Hex). }
    destruct HT as [HT Hw]. rewrite Hw in Hb.
    exists kw, ws, tok, (m7 ++ f).
    split; [now rewrite <- !app_assoc|]. split; [exact Hd|].
    split; [destruct ws; [simpl in Hn; lia|discriminate]|].
    split; [exact Hws|]. split; [exact HT|].
    now destruct (wordp (hd_error (m7 ++ f))).
  - intros (kw & ws & tok & rest & -> & Hkw & Hne & Hws & Htok & Hb).
    exists [], (kw ++ ws ++ tok), rest. split; [now rewrite <- !app_assoc|].
    cbn [lastp].
    apply (Mat_seq (m1 := []) (m2 := kw ++ ws ++ tok)); [reflexivity|apply MBol|].
    cbn [lastp].
    apply (Mat_seq (m1 := kw) (m2 := ws ++ tok)); [reflexivity| |].
    { rewrite <- Hkw. apply Mat_word_fold. }
    apply (Mat_seq (m1 := ws) (m2 := tok)); [reflexivity| |].
    { apply MMany; [now apply forallb_allWhite|].
      destruct ws; [congruence|simpl; lia]. }
    set (p := lastp (lastp None kw) ws).
    assert (HT : Mat true (alts (digits :: roman :: literals partWords))
                     p tok ([] ++ rest)
                 /\ wordp (lastp p tok) = true).
    { destruct Htok as [H|[H|H]].
      - destruct (token_digits p ([] ++ rest) H) as [HM Hw]. split; [|exact Hw].
        eapply Mat_alts; [|exact HM]. now left.
      - destruct (token_roman p ([] ++ rest) H) as [HM Hw]. split; [|exact Hw].
        eapply Mat_alts; [|exact HM]. right. now left.
      - destruct (@token_number partWords tok p ([] ++ rest) eq_refl H)
          as [(r & Hin & HM) Hw].
        split; [|exact Hw]. eapply Mat_alts; [|exact HM]. right. right.
        exact Hin. }
    destruct HT as [HT Hw].
    apply (Mat_seq (m1 := tok) (m2 := [])); [now rewrite app_nil_r|exact HT|].
    apply (Mat_seq (m1 := []) (m2 := [])); [reflexivity| |].
    + apply MWordB. cbn [app]. now rewrite Hw, Hb.
    + apply MMany; [reflexivity|simpl; lia].
Qed.

End PartFacts.

Import PartFacts.

(** X25.  The part pattern: a text matches it exactly when it begins
    with "part" in any case, white space, and a number written in digits,
    in roman numerals or as a word from one to ten, in any case, followed
    by the end of the text or by something that is not a letter, a digit
    or an underscore.  A paragraph whose cleaned text is of that shape is
    heading-like whatever its style, and is never taken as the title of
    the novel. *)
Theorem part_heading (host : Host) :
  (forall t, test PART_RE t = true <-> partShape t)
  /\ (forall text style,
         partShape (clean text) -> isHeadingLike text style = true)
  /\ (forall p, partShape (clean (text p)) -> isTitle p = false).
Proof.
  assert (G : forall t, test PART_RE t = true <-> partShape t).
  { intros t. rewrite test_Matches. apply PART_Matches. }
  split; [exact G|]. split.
  - intros text style H.
    assert (Hne : clean text <> []).
    { destruct H as (kw & ws & tok & rest & E & Hkw & _). rewrite E.
      destruct kw; [discriminate|discriminate]. }
    apply G in H. rewrite isHeadingLike_rules, H by assumption.
    now rewrite !orb_true_r.
  - intros p H. apply G in H. unfold isTitle. rewrite H.
    cbn [negb]. now rewrite !andb_false_r.
Qed.

Lemma part_heading_witness :
  partShape (clean (lit "Part  IV - The Return"))
  /\ isHeadingLike (host := asciiHost) (lit "Part  IV - The Return") [] = true.
Proof.
  assert (H : partShape (clean (lit "Part  IV - The Return"))).
  { exists (lit "Part"), (lit " "), (lit "IV"), (lit " - The Return").
    split; [reflexivity|]. split; [reflexivity|]. split; [discriminate|].
    split; [now repeat constructor|]. split; [|reflexivity].
    right. left. split; [discriminate|].
    repeat constructor; cbv; tauto. }
  split; [exact H|].
  exact (proj1 (proj2 (part_heading asciiHost)) _ [] H).
Defined.

(** ** Chapter headings, exactly *)

Module ChapterFacts.
Import Str Regex Editor Importer Shape Terms.
Import StrFacts RegexFacts ScanFacts CleanFacts PatternFacts HeadingFacts.
Import SplitFacts StyleFacts FrontFacts PartFacts.

Lemma Mat_Opt_inv ic c p m f :
  Mat ic (Opt c) p m f -> m = [] \/ exists x, m = [x] /\ has ic c x = true.
Proof. intros H. inversion H; subst; eauto. Qed.

Lemma Mat_Alt_inv ic a b p m f :
  Mat ic (Alt a b) p m f -> Mat ic a p m f \/ Mat ic b p m f.
Proof. intros H. inversion H; subst; auto. Qed.

Lemma fold_dot (x : N) : has true (cs [Ch (u ".")]) x = true -> x = u ".".
Proof.
  unfold has. cbn [negated items cs existsb item_has xorb].
  rewrite orb_false_r. change (u ".") with 46%N.
  rewrite SafeFacts.fold_sign by lia. now intros H%N.eqb_eq.
Qed.

Lemma keyword_Mat (kw : jsstr) p f :
  Mat true (Alt (word (lit "chapter"))
                (Seq (word (lit "chap")) (Opt (cs [Ch (u ".")])))) p kw f
  <-> chapterKeyword kw.
Proof.
  split.
  - intros H. apply Mat_Alt_inv in H as [H|H].
    + apply Mat_word_fold_inv in H.
      left. now apply (@fold_lower_all kw (lit "chapter") eq_refl).
    + apply Mat_Seq_inv in H as (k1 & k2 & -> & H1 & H2).
      apply Mat_word_fold_inv in H1.
      destruct (@fold_lower_all k1 (lit "chap") eq_refl H1) as [Hd _].
      apply Mat_Opt_inv in H2 as [->|(x & -> & Hx)].
      * right. left. now rewrite app_nil_r.
      * right. right. apply fold_dot in Hx. subst x.
        rewrite map_app, Hd. reflexivity.
  - intros [H|[H|H]].
    + apply MAltL. rewrite <- H. apply Mat_word_fold.
    + apply MAltR. apply (Mat_seq (m1 := kw) (m2 := []));
        [now rewrite app_nil_r| |apply MOptN].
      rewrite <- H. apply Mat_word_fold.
    + apply MAltR.
      change (lit "chap.") with [99; 104; 97; 112; 46]%N in H.
      destruct kw as [|a [|b [|c [|d [|e [|? ?]]]]]]; try discriminate.
      injection H as Ha Hb' Hc Hd He.
      apply (Mat_seq (m1 := [a; b; c; d]) (m2 := [e])); [reflexivity| |].
      * replace (lit "chap") with (map downcase [a; b; c; d])
          by (simpl; now rewrite Ha, Hb', Hc, Hd).
        apply Mat_word_fold.
      * apply MOptY. change (u ".") with 46%N. rewrite <- He. apply has_fold.
Qed.

Lemma CHAPTER_Matches (t : jsstr) : Matches CHAPTER_RE t <-> chapterForm t.
Proof.
  unfold Matches, CHAPTER_RE. cbn [pattern ignoreCase seqs]. split.
  - intros (pre & m & f & -> & HM).
    apply Mat_Seq_inv in HM as (m1 & m2 & -> & H1 & H2).
    apply Mat_Bol_inv in H1 as [Hp ->]. apply lastp_None in Hp. subst pre.
    cbn [lastp app] in *.
    apply Mat_Seq_inv in H2 as (kw & m3 & -> & Hkw & H3).
    apply Mat_Seq_inv in H3 as (ws & m4 & -> & Hws & H4).
    apply Mat_Seq_inv in H4 as (tok & m5 & -> & Htok & H5).
    apply Mat_Seq_inv in H5 as (m6 & m7 & -> & Hb & _).
    apply Mat_WordB_inv in Hb as [-> Hb]. cbn [app] in *.
    apply keyword_Mat in Hkw.
    apply Mat_Many_inv in Hws as [Hws Hn].
    apply (forallb_allWhite true) in Hws.
    set (p := lastp (lastp None kw) ws) in *.
    assert (HT : (isDigits tok \/ isRoman tok \/ isNumberWord tok)
                 /\ wordp (lastp p tok) = true).
    { apply Mat_alts_inv in Htok as (r & Hr & HMr); [|discriminate].
      destruct Hr as [<-|[<-|Hr]].
      - apply digits_token in HMr. split; [now left|].
        apply (token_digits p [] HMr).
      - apply roman_token in HMr. split; [right; now left|].
        apply (token_roman p [] HMr).
      - apply in_map_iff in Hr as (w & <- & Hw).
        apply Mat_word_fold_inv in HMr.
        assert (Hlow : forallb isAsciiLower (lit w) = true).
        { revert Hw. clear. cbv [In].
          intros [<-|[<-|[<-|[<-|[<-|[<-|[<-|[<-|[<-|[<-|[<-|[<-|[]]]]]]]]]]]]];
            reflexivity. }
        destruct (@fold_lower_all _ _ Hlow HMr) as [Hdw _].
        assert (Hex : isNumberWord tok) by (exists w; now split).
        split; [right; right; exact Hex|].
        apply (@token_number numberWords tok p [] eq_refl Hex). }
    destruct HT as [HT Hw]. rewrite Hw in Hb.
    exists kw, ws, tok, (m7 ++ f).
    split; [now rewrite <- !app_assoc|]. split; [exact Hkw|].
    split; [destruct ws; [simpl in Hn; lia|discriminate]|].
    split; [exact Hws|]. split; [exact HT|].
    now destruct (wordp (hd_error (m7 ++ f))).
  - intros (kw & ws & tok & rest & -> & Hkw & Hne & Hws & Htok & Hb).
    exists [], (kw ++ ws ++ tok), rest. split; [now rewrite <- !app_assoc|].
    cbn [lastp].
    apply (Mat_seq (m1 := []) (m2 := kw ++ ws ++ tok)); [reflexivity|apply MBol|].
    cbn [lastp].
    apply (Mat_seq (m1 := kw) (m2 := ws ++ tok)); [reflexivity| |].
    { now apply keyword_Mat. }
    apply (Mat_seq (m1 := ws) (m2 := tok)); [reflexivity| |].
    { apply MMany; [now apply forallb_allWhite|].
      destruct ws; [congruence|simpl; lia]. }
    set (p := lastp (lastp None kw) ws).
    assert (HT : Mat true (alts (digits :: roman :: literals numberWords))
                     p tok ([] ++ rest)
                 /\ wordp (lastp p tok) = true).
    { destruct Htok as [H|[H|H]].
      - destruct (token_digits p ([] ++ rest) H) as [HM Hw]. split; [|exact Hw].
        eapply Mat_alts; [|exact HM]. now left.
      - destruct (token_roman p ([] ++ rest) H) as [HM Hw]. split; [|exact Hw].
        eapply Mat_alts; [|exact HM]. right. now left.
      - destruct (@token_number numberWords tok p ([] ++ rest) eq_refl H)
          as [(r & Hin & HM) Hw].
        split; [|exact Hw]. eapply Mat_alts; [|exact HM]. right. right.
        exact Hin. }
    destruct HT as [HT Hw].
    apply (Mat_seq (m1 := tok) (m2 := [])); [now rewrite app_nil_r|exact HT|].
    apply (Mat_seq (m1 := []) (m2 := [])); [reflexivity| |].
    + apply MWordB. cbn [app]. now rewrite Hw, Hb.
    + apply MMany; [reflexivity|simpl; lia].
Qed.

End ChapterFacts.

Import ChapterFacts.

(** X26.  The chapter pattern, exactly: a text matches it if and only if
    it begins with "chapter", "chap" or "chap." in any case, white space,
    and a number written in digits, in roman numerals or as a word from
    one to twelve, in any case, followed by the end of the text or by
    something that is not a letter, a digit or an underscore.  No other
    text matches, and a first paragraph of that form is never taken as
    the title of the novel. *)
Theorem chapter_pattern_exact (host : Host) :
  (forall t, test CHAPTER_RE t = true <-> chapterForm t)
  /\ (forall text style,
         chapterForm (clean text) -> isHeadingLike text style = true)
  /\ (forall p, chapterForm (clean (text p)) -> isTitle p = false).
Proof.
  assert (G : forall t, test CHAPTER_RE t = true <-> chapterForm t).
  { intros t. rewrite test_Matches. apply CHAPTER_Matches. }
  split; [exact G|]. split.
  - intros text style H.
    assert (Hne : clean text <> []).
    { destruct H as (kw & ws & tok & rest & E & Hkw & _). rewrite E.
      destruct kw; [|discriminate]. destruct Hkw as [?|[?|?]]; discriminate. }
    apply G in H. rewrite isHeadingLike_rules, H by assumption.
    now rewrite !orb_true_r.
  - intros p H. apply G in H. unfold isTitle. rewrite H.
    cbn [negb]. now rewrite !andb_false_r.
Qed.

Lemma chapter_pattern_exact_witness :
  chapterForm (clean (lit "Chap 3: Dawn"))
  /\ isHeadingLike (host := asciiHost) (lit "Chap 3: Dawn") [] = true.
Proof.
  assert (H : chapterForm (clean (lit "Chap 3: Dawn"))).
  { exists (lit "Chap"), (lit " "), (lit "3"), (lit ": Dawn").
    split; [reflexivity|]. split; [right; now left|]. split; [discriminate|].
    split; [now repeat constructor|]. split; [|reflexivity].
    left. split; [discriminate|]. repeat constructor; cbv; discriminate. }
  split; [exact H|].
  exact (proj1 (proj2 (chapter_pattern_exact asciiHost)) _ [] H).
Defined.

(** ** Paragraph marks in RTF *)

Module ParFacts.
Import Str Regex Editor Importer Shape Terms Decoders.
Import StrFacts RegexFacts ScanFacts CleanFacts PatternFacts TightFacts.
Import CompileFacts ProjectionFacts RtfFacts SpacingFacts FrontFacts BodyFacts.

Lemma begins_HIDDEN_GROUP : beginsWith HIDDEN_GROUP (u "{").
Proof.
  intros prev s n H. apply exec_sound in H as (m & f & -> & HM & _).
  cbn [HIDDEN_GROUP pattern ignoreCase seqs] in HM.
  apply Mat_Seq_inv in HM as (m1 & m2 & -> & H1 & _).
  apply Mat_chr in H1 as (x & -> & Hx). rewrite has_unit in Hx.
  apply N.eqb_eq in Hx. subst x. now exists (m2 ++ f).
Qed.

Lemma begins_PAR : beginsWith PAR BACKSLASH.
Proof.
  intros prev s n H. apply exec_sound in H as (m & f & -> & HM & _).
  cbn [PAR pattern ignoreCase] in HM.
  apply Mat_Seq_inv in HM as (m1 & m2 & -> & H1 & _).
  change (word (BACKSLASH :: lit "par"))
    with (Seq (chr BACKSLASH) (word (lit "par"))) in H1.
  apply Mat_Seq_inv in H1 as (m3 & m4 & -> & H3 & _).
  apply Mat_chr in H3 as (x & -> & Hx). rewrite has_unit in Hx.
  apply N.eqb_eq in Hx. subst x. now exists ((m4 ++ m2) ++ f).
Qed.

(** Before the first unit that a match can begin with nothing is
    replaced. *)
Lemma replace_go_prefix (r : regexp) (c : N) (rep a t : jsstr) :
  beginsWith r c -> ~ In c a ->
  forall prev,
    replace_go r rep prev 0 (a ++ t) = a ++ replace_go r rep (lastp prev a) 0 t.
Proof.
  intros Hr. induction a as [|x a IH]; intros Ha prev; [reflexivity|].
  cbn [app replace_go lastp].
  destruct (exec r prev (x :: a ++ t)) eqn:E.
  - apply Hr in E as (s' & E). injection E as -> _. exfalso. apply Ha. now left.
  - f_equal. apply IH. intros H. apply Ha. now right.
Qed.

Lemma replace_all_without (r : regexp) (c : N) (rep s : jsstr) :
  beginsWith r c -> ~ In c s -> replace_all r rep s = s.
Proof.
  intros Hr Hs. unfold replace_all.
  rewrite <- (app_nil_r s) at 1. rewrite (@replace_go_prefix r c rep s [] Hr Hs).
  cbn [replace_go]. destruct (exec r (lastp None s) []) eqn:E.
  - apply Hr in E as (s' & E). discriminate.
  - now rewrite app_nil_r.
Qed.

Lemma run_chr_hit (A : Type) (c : N) prev (s : jsstr) (k : cont A) :
  run false (chr c) prev (c :: s) k = k (Some c) s.
Proof. unfold chr. cbn [run one]. now rewrite has_unit, N.eqb_refl. Qed.

(** At "\par" the paragraph pattern takes these four units when no d
    follows. *)
Lemma exec_PAR prev (b : jsstr) :
  hd_error b <> Some (u "d") -> exec PAR prev (lit "\par" ++ b) = Some 4.
Proof.
  intros Hb. unfold exec. cbn [PAR pattern ignoreCase].
  change (word (BACKSLASH :: lit "par"))
    with (Seq (chr 92) (Seq (chr 112) (Seq (chr 97) (chr 114)))).
  change (lit "\par" ++ b) with (92 :: 112 :: 97 :: 114 :: b)%N.
  repeat (cbn [run]; rewrite run_chr_hit). cbn [run one].
  destruct b as [|x b]; [reflexivity|]. cbn [one].
  rewrite has_unit. destruct (N.eqb_spec (u "d") x) as [<-|_].
  - now exfalso; apply Hb.
  - f_equal. cbn [length]. lia.
Qed.

Lemma plain_app (a b : jsstr) : plain a -> plain b -> plain (a ++ LF :: b).
Proof.
  intros Ha Hb x Hx. apply in_app_or in Hx as [Hx|[<-|Hx]];
    [now apply Ha| |now apply Hb].
  cbv. intuition discriminate.
Qed.

Lemma par_to_LF (a b : jsstr) :
  plain a -> plain b -> hd_error b <> Some (u "d") ->
  replace_all PAR [LF] (replace_all HIDDEN_GROUP [] (a ++ lit "\par" ++ b))
  = a ++ LF :: b.
Proof.
  intros Ha Hb Hd.
  rewrite (@replace_all_without HIDDEN_GROUP (u "{") [] _ begins_HIDDEN_GROUP).
  2:{ intros H. apply in_app_or in H as [H|H]; [apply (Ha _ H); cbv; tauto|].
      apply in_app_or in H as [H|H];
        [cbv in H; intuition discriminate|apply (Hb _ H); cbv; tauto]. }
  unfold replace_all.
  rewrite (@replace_go_prefix PAR BACKSLASH [LF] a _ begins_PAR).
  2:{ intros H. apply (Ha _ H). cbv. tauto. }
  f_equal.
  pose proof (@exec_PAR (lastp None a) b Hd) as E.
  change (lit "\par" ++ b) with (92 :: 112 :: 97 :: 114 :: b)%N in *.
  cbn [replace_go]. rewrite E. cbn [app]. f_equal.
  apply replace_go_none. now apply plain_no_match; [apply needs_PAR|].
Qed.

Lemma plain_pipeline (s : jsstr) :
  plain s ->
  trim
    (replace_all NL3 [LF; LF]
       (replace_all NUL []
          (replace_all ESC_NEWLINE [LF]
             (replace_all ESC_UNDERSCORE (lit "-")
                (replace_all ESC_HYPHEN (lit "-")
                   (replace_all ESC_TILDE (lit " ")
                      (replace_all BRACES []
                         (replace_all CONTROL_WORD []
                            (replace_fn HEX_ESCAPE decodeHex
                               (replace_all TAB_WORD [9%N]
                                  (replace_all LINE [LF] s)))))))))))
  = trim (replace_all NL3 [LF; LF] s).
Proof.
  intros H.
  rewrite (@replace_plain LINE [LF] s needs_LINE H).
  rewrite (@replace_plain TAB_WORD [9%N] s needs_TAB_WORD H).
  rewrite (@replace_fn_plain HEX_ESCAPE decodeHex s needs_HEX_ESCAPE H).
  rewrite (@replace_plain CONTROL_WORD [] s needs_CONTROL_WORD H).
  rewrite (@replace_plain BRACES [] s needs_BRACES H).
  rewrite (@replace_plain ESC_TILDE (lit " ") s needs_ESC_TILDE H).
  rewrite (@replace_plain ESC_HYPHEN (lit "-") s needs_ESC_HYPHEN H).
  rewrite (@replace_plain ESC_UNDERSCORE (lit "-") s needs_ESC_UNDERSCORE H).
  rewrite (@replace_plain ESC_NEWLINE [LF] s needs_ESC_NEWLINE H).
  now rewrite (@replace_plain NUL [] s needs_NUL H).
Qed.

(** A text without blank line is one piece for /\n{2,}/. *)
Lemma split_NL2_one (s : jsstr) :
  s <> [] -> tight s -> noBlankLine s -> split NL2 s = [s].
Proof.
  intros Hne Ht Hn. unfold split. destruct s as [|x s]; [contradiction|].
  rewrite <- (app_nil_r (x :: s)) at 1.
  rewrite split_go_block; [reflexivity|exact Hn|].
  intros a E. destruct (tight_ends Hne Ht) as [_ (a' & z & Ez & Hz)].
  rewrite E in Ez. apply app_inj_tail in Ez as [_ <-]. discriminate.
Qed.

End ParFacts.

Import ParFacts.

(** X27.  [rtfToText] turns a paragraph mark into one line feed: between
    two texts without markup, the second not beginning with d, "\par"
    becomes a line feed and nothing else changes but the spacing rules.
    One line feed does not separate paragraphs for [parseRTF]: when the
    two texts leave no blank line, the file is read as a single
    paragraph. *)
Theorem par_is_line_feed (a b : jsstr) :
  plain a -> plain b -> hd_error b <> Some (u "d") ->
  rtfToText (a ++ lit "\par" ++ b)
  = trim (replace_all NL3 [LF; LF] (a ++ LF :: b))
  /\ (noBlankLine (a ++ LF :: b) -> trim (a ++ LF :: b) <> [] ->
      rtfParagraphs (a ++ lit "\par" ++ b)
      = [{| text := trim (a ++ LF :: b); style := [] |}]).
Proof.
  intros Ha Hb Hd.
  assert (E : rtfToText (a ++ lit "\par" ++ b)
              = trim (replace_all NL3 [LF; LF] (a ++ LF :: b))).
  { unfold rtfToText. rewrite or_else_nil, (par_to_LF Ha Hb Hd).
    apply plain_pipeline. now apply plain_app. }
  split; [exact E|]. intros Hn Hne. unfold rtfParagraphs. rewrite E.
  rewrite (@replace_NL3_none [LF; LF] _ Hn).
  rewrite split_NL2_one; [|exact Hne|apply trim_tight|now apply nbl_trim].
  cbn [map filter]. rewrite (trim_tight (a ++ LF :: b)).
  destruct (trim (a ++ LF :: b)); [contradiction|reflexivity].
Qed.

Lemma par_is_line_feed_witness :
  rtfParagraphs (lit "One." ++ lit "\par" ++ lit " Two.")
  = [{| text := lit "One." ++ LF :: lit " Two."; style := [] |}].
Proof.
  assert (Ha : plain (lit "One.")).
  { intros x Hx Hm. cbv in Hx, Hm.
    repeat match goal with
           | H : _ \/ _ |- _ => destruct H as [H|H]
           end; try contradiction; subst; discriminate. }
  assert (Hb : plain (lit " Two.")).
  { intros x Hx Hm. cbv in Hx, Hm.
    repeat match goal with
           | H : _ \/ _ |- _ => destruct H as [H|H]
           end; try contradiction; subst; discriminate. }
  assert (Hd : hd_error (lit " Two.") <> Some (u "d")) by discriminate.
  assert (Hn : noBlankLine (lit "One." ++ LF :: lit " Two."))
    by (vm_compute; repeat split; intros [A B]; discriminate).
  assert (Hne : trim (lit "One." ++ LF :: lit " Two.") <> [])
    by (vm_compute; discriminate).
  exact (proj2 (@par_is_line_feed _ _ Ha Hb Hd) Hn Hne).
Defined.

(** ** Hex escapes in RTF *)

Module HexFacts.
Import Str Regex Editor Importer Shape Terms Decoders.
Import StrFacts RegexFacts ScanFacts CleanFacts PatternFacts TightFacts.
Import CompileFacts RtfFacts SpacingFacts FrontFacts ParFacts.

Lemma run_chr_miss (A : Type) (c x : N) prev (s : jsstr) (k : cont A) :
  c <> x -> run false (chr c) prev (x :: s) k = None.
Proof.
  intros H. unfold chr. cbn [run one]. rewrite has_unit.
  now destruct (N.eqb_spec c x).
Qed.

Lemma begins_LINE : beginsWith LINE BACKSLASH.
Proof.
  intros prev s n H. apply exec_sound in H as (m & f & -> & HM & _).
  cbn [LINE pattern ignoreCase] in HM.
  change (word (BACKSLASH :: lit "line"))
    with (Seq (chr BACKSLASH) (word (lit "line"))) in HM.
  apply Mat_Seq_inv in HM as (m3 & m4 & -> & H3 & _).
  apply Mat_chr in H3 as (x & -> & Hx). rewrite has_unit in Hx.
  apply N.eqb_eq in Hx. subst x. now exists (m4 ++ f).
Qed.

Lemma begins_TAB_WORD : beginsWith TAB_WORD BACKSLASH.
Proof.
  intros prev s n H. apply exec_sound in H as (m & f & -> & HM & _).
  cbn [TAB_WORD pattern ignoreCase] in HM.
  change (word (BACKSLASH :: lit "tab"))
    with (Seq (chr BACKSLASH) (word (lit "tab"))) in HM.
  apply Mat_Seq_inv in HM as (m3 & m4 & -> & H3 & _).
  apply Mat_chr in H3 as (x & -> & Hx). rewrite has_unit in Hx.
  apply N.eqb_eq in Hx. subst x. now exists (m4 ++ f).
Qed.

Lemma begins_HEX_ESCAPE : beginsWith HEX_ESCAPE BACKSLASH.
Proof.
  intros prev s n H. apply exec_sound in H as (m & f & -> & HM & _).
  cbn [HEX_ESCAPE pattern ignoreCase seqs] in HM.
  apply Mat_Seq_inv in HM as (m3 & m4 & -> & H3 & _).
  apply Mat_chr in H3 as (x & -> & Hx). rewrite has_unit in Hx.
  apply N.eqb_eq in Hx. subst x. now exists (m4 ++ f).
Qed.

(** The control words of the line breaks do not match at a quote. *)
Lemma exec_PAR_quote prev (t : jsstr) :
  exec PAR prev (BACKSLASH :: u "'" :: t) = None.
Proof.
  unfold exec. cbn [PAR pattern ignoreCase].
  change (word (BACKSLASH :: lit "par"))
    with (Seq (chr BACKSLASH) (Seq (chr 112) (Seq (chr 97) (chr 114)))).
  cbn [run]. rewrite run_chr_hit. cbn [run].
  now rewrite run_chr_miss by discriminate.
Qed.

Lemma exec_LINE_quote prev (t : jsstr) :
  exec LINE prev (BACKSLASH :: u "'" :: t) = None.
Proof.
  unfold exec. cbn [LINE pattern ignoreCase].
  change (word (BACKSLASH :: lit "line"))
    with (Seq (chr BACKSLASH)
              (Seq (chr 108) (Seq (chr 105) (Seq (chr 110) (chr 101))))).
  cbn [run]. rewrite run_chr_hit. cbn [run].
  now rewrite run_chr_miss by discriminate.
Qed.

Lemma exec_TAB_quote prev (t : jsstr) :
  exec TAB_WORD prev (BACKSLASH :: u "'" :: t) = None.
Proof.
  unfold exec. cbn [TAB_WORD pattern ignoreCase].
  change (word (BACKSLASH :: lit "tab"))
    with (Seq (chr BACKSLASH) (Seq (chr 116) (Seq (chr 97) (chr 98)))).
  cbn [run]. rewrite run_chr_hit. cbn [run].
  now rewrite run_chr_miss by discriminate.
Qed.

Lemma replace_go_miss (r : regexp) (rep : jsstr) prev (x : N) (s : jsstr) :
  exec r prev (x :: s) = None ->
  replace_go r rep prev 0 (x :: s) = x :: replace_go r rep (Some x) 0 s.
Proof. intros E. cbn [replace_go]. now rewrite E. Qed.

(** A pattern that begins with a backslash and does not match at the
    escape leaves a text with one escape as it is. *)
Lemma replace_all_escape (r : regexp) (rep a t : jsstr) :
  beginsWith r BACKSLASH -> needsMarkup r ->
  (forall prev, exec r prev (BACKSLASH :: u "'" :: t) = None) ->
  plain a -> plain (u "'" :: t) ->
  replace_all r rep (a ++ BACKSLASH :: u "'" :: t)
  = a ++ BACKSLASH :: u "'" :: t.
Proof.
  intros Hr Hm He Ha Ht. unfold replace_all.
  rewrite (@replace_go_prefix r BACKSLASH rep a _ Hr).
  2:{ intros H. apply (Ha _ H). cbv. tauto. }
  f_equal. rewrite (replace_go_miss r rep _ _ _ (He _)). f_equal.
  apply replace_go_none. now apply plain_no_match.
Qed.

Lemma replace_fn_go_prefix (r : regexp) (c : N) (g : jsstr -> jsstr)
      (a t : jsstr) :
  beginsWith r c -> ~ In c a ->
  forall prev,
    replace_fn_go r g prev 0 (a ++ t)
    = a ++ replace_fn_go r g (lastp prev a) 0 t.
Proof.
  intros Hr. induction a as [|x a IH]; intros Ha prev; [reflexivity|].
  cbn [app replace_fn_go lastp].
  destruct (exec r prev (x :: a ++ t)) eqn:E.
  - apply Hr in E as (s' & E). injection E as -> _. exfalso. apply Ha. now left.
  - f_equal. apply IH. intros H. apply Ha. now right.
Qed.

Lemma exec_HEX prev (h1 h2 : N) (b : jsstr) :
  has false hexClass h1 = true -> has false hexClass h2 = true ->
  exec HEX_ESCAPE prev (BACKSLASH :: u "'" :: h1 :: h2 :: b) = Some 4.
Proof.
  intros H1 H2. unfold exec. cbn [HEX_ESCAPE pattern ignoreCase seqs].
  cbn [run]. rewrite run_chr_hit. cbn [run]. rewrite run_chr_hit.
  cbn [run one]. rewrite H1, H2. f_equal. cbn [length]. lia.
Qed.

(** The value of two hexadecimal digits. *)
Lemma hexDigit_le (h : N) : has false hexClass h = true -> (hexDigit h <= 15)%N.
Proof.
  unfold has, hexClass. cbn [negated items cs xorb existsb item_has andb].
  rewrite !orb_false_r. unfold hexDigit, in_rng.
  change (u "0") with 48%N. change (u "9") with 57%N.
  change (u "a") with 97%N. change (u "f") with 102%N.
  change (u "A") with 65%N. change (u "F") with 70%N.
  intros H.
  destruct (N.leb_spec 48 h), (N.leb_spec h 57), (N.leb_spec 97 h),
           (N.leb_spec h 102), (N.leb_spec 65 h), (N.leb_spec h 70);
    cbn [andb orb] in *; try discriminate; lia.
Qed.

Lemma hex_plain (h : N) : has false hexClass h = true -> ~ In h markup.
Proof.
  unfold has, hexClass. cbn [negated items cs xorb existsb item_has andb].
  rewrite !orb_false_r. unfold in_rng.
  change (u "0") with 48%N. change (u "9") with 57%N.
  change (u "a") with 97%N. change (u "f") with 102%N.
  change (u "A") with 65%N. change (u "F") with 70%N.
  intros H Hm. cbv [markup BACKSLASH In] in Hm.
  change (u "{") with 123%N in Hm. change (u "}") with 125%N in Hm.
  destruct (N.leb_spec 48 h), (N.leb_spec h 57), (N.leb_spec 97 h),
           (N.leb_spec h 102), (N.leb_spec 65 h), (N.leb_spec h 70);
    cbn [andb orb] in *; try discriminate; lia.
Qed.

Lemma parseHex_two (h1 h2 : N) :
  parseHex [h1; h2] = (16 * hexDigit h1 + hexDigit h2)%N.
Proof. unfold parseHex. cbn [fold_left]. lia. Qed.

Lemma hex_decoded (a b : jsstr) (h1 h2 : N) :
  plain a -> plain b ->
  has false hexClass h1 = true -> has false hexClass h2 = true ->
  replace_fn HEX_ESCAPE decodeHex
    (replace_all TAB_WORD [9%N]
       (replace_all LINE [LF]
          (replace_all PAR [LF]
             (replace_all HIDDEN_GROUP []
                (a ++ BACKSLASH :: u "'" :: h1 :: h2 :: b)))))
  = a ++ parseHex [h1; h2] :: b.
Proof.
  intros Ha Hb H1 H2.
  assert (Ht : plain (u "'" :: h1 :: h2 :: b)).
  { intros x [<-|[<-|[<-|Hx]]];
      [cbv; intuition discriminate|now apply hex_plain..|now apply Hb]. }
  rewrite (@replace_all_without HIDDEN_GROUP (u "{") [] _ begins_HIDDEN_GROUP).
  2:{ intros H. apply in_app_or in H as [H|[H|H]];
        [apply (Ha _ H); cbv; tauto|discriminate|apply (Ht _ H); cbv; tauto]. }
  rewrite (@replace_all_escape PAR [LF] a _ begins_PAR needs_PAR
             (fun prev => exec_PAR_quote prev _) Ha Ht).
  rewrite (@replace_all_escape LINE [LF] a _ begins_LINE needs_LINE
             (fun prev => exec_LINE_quote prev _) Ha Ht).
  rewrite (@replace_all_escape TAB_WORD [9%N] a _ begins_TAB_WORD
             needs_TAB_WORD (fun prev => exec_TAB_quote prev _) Ha Ht).
  unfold replace_fn.
  rewrite (@replace_fn_go_prefix HEX_ESCAPE BACKSLASH decodeHex a _
             begins_HEX_ESCAPE).
  2:{ intros H. apply (Ha _ H). cbv. tauto. }
  f_equal. cbn [replace_fn_go]. rewrite (exec_HEX _ _ _ b H1 H2).
  assert (Hv : (parseHex [h1; h2] mod 65536 = parseHex [h1; h2])%N).
  { apply N.mod_small. rewrite parseHex_two.
    pose proof (hexDigit_le _ H1). pose proof (hexDigit_le _ H2). lia. }
  unfold decodeHex, fromCharCode.
  cbn [firstn skipn app replace_fn_go]. rewrite Hv. f_equal.
  apply replace_fn_go_none. now apply plain_no_match; [apply needs_HEX_ESCAPE|].
Qed.

End HexFacts.

Import HexFacts.

(** X28.  [rtfToText] decodes a hex escape: between two texts without
    markup, a backslash, a quote and two hexadecimal digits of either
    case become the one code unit with that value, which is below 256,
    and nothing else changes but the spacing rules, provided the decoded
    unit is not itself a backslash or a brace. *)
Theorem hex_escape_decoded (a b : jsstr) (h1 h2 : N) :
  plain a -> plain b ->
  has false hexClass h1 = true -> has false hexClass h2 = true ->
  ~ In (parseHex [h1; h2]) markup ->
  rtfToText (a ++ BACKSLASH :: u "'" :: h1 :: h2 :: b)
  = trim (replace_all NL3 [LF; LF] (a ++ parseHex [h1; h2] :: b))
  /\ parseHex [h1; h2] = (16 * hexDigit h1 + hexDigit h2)%N
  /\ (parseHex [h1; h2] < 256)%N.
Proof.
  intros Ha Hb H1 H2 Hv. split; [|split].
  - unfold rtfToText. rewrite or_else_nil, (@hex_decoded a b h1 h2 Ha Hb H1 H2).
    assert (Hs : plain (a ++ parseHex [h1; h2] :: b)).
    { intros x Hx. apply in_app_or in Hx as [Hx|[<-|Hx]];
        [now apply Ha|exact Hv|now apply Hb]. }
    rewrite (@replace_plain CONTROL_WORD [] _ needs_CONTROL_WORD Hs).
    rewrite (@replace_plain BRACES [] _ needs_BRACES Hs).
    rewrite (@replace_plain ESC_TILDE (lit " ") _ needs_ESC_TILDE Hs).
    rewrite (@replace_plain ESC_HYPHEN (lit "-") _ needs_ESC_HYPHEN Hs).
    rewrite (@replace_plain ESC_UNDERSCORE (lit "-") _ needs_ESC_UNDERSCORE Hs).
    rewrite (@replace_plain ESC_NEWLINE [LF] _ needs_ESC_NEWLINE Hs).
    now rewrite (@replace_plain NUL [] _ needs_NUL Hs).
  - apply parseHex_two.
  - rewrite parseHex_two.
    pose proof (hexDigit_le _ H1). pose proof (hexDigit_le _ H2). lia.
Qed.

Lemma hex_escape_decoded_witness :
  rtfToText (lit "caf\'E9 au lait") = lit "caf" ++ 233%N :: lit " au lait".
Proof.
  assert (Ha : plain (lit "caf")).
  { intros x Hx Hm. cbv in Hx, Hm.
    repeat match goal with
           | H : _ \/ _ |- _ => destruct H as [H|H]
           end; try contradiction; subst; discriminate. }
  assert (Hb : plain (lit " au lait")).
  { intros x Hx Hm. cbv in Hx, Hm.
    repeat match goal with
           | H : _ \/ _ |- _ => destruct H as [H|H]
           end; try contradiction; subst; discriminate. }
  assert (Hv : ~ In (parseHex [u "E"; u "9"]) markup)
    by (cbv; intuition discriminate).
  exact (proj1 (@hex_escape_decoded (lit "caf") (lit " au lait") (u "E") (u "9")
                  Ha Hb eq_refl eq_refl Hv)).
Defined.

(** ** The entry point *)

Module DispatchFacts.
Import Str Regex Editor Importer Shape Terms.
Import StrFacts RegexFacts ScanFacts CleanFacts AsciiFacts StyleFacts.

Lemma starts_with_iff (p s : jsstr) :
  starts_with p s = true <-> exists post, s = p ++ post.
Proof.
  revert s. induction p as [|a p IH]; intros s; cbn [starts_with].
  - split; [intros _; now exists s|reflexivity].
  - destruct s as [|b s].
    + split; [discriminate|]. intros [post E]. discriminate.
    + rewrite andb_true_iff, N.eqb_eq, IH. split.
      * intros [-> [post ->]]. now exists post.
      * intros [post E]. injection E as -> ->. split; [reflexivity|now exists post].
Qed.

(** [String.prototype.includes] is containment. *)
Lemma includes_iff (s w : jsstr) : includes s w = true <-> contains s w.
Proof.
  unfold contains. induction s as [|x s IH]; cbn [includes].
  - rewrite orb_false_r, starts_with_iff. split.
    + intros [post E]. now exists [], post.
    + intros (pre & post & E). destruct pre; [now exists post|discriminate].
  - rewrite orb_true_iff, starts_with_iff, IH. split.
    + intros [[post E]|(pre & post & E)].
      * now exists [], post.
      * exists (x :: pre), post. now rewrite E.
    + intros (pre & post & E). destruct pre as [|y pre].
      * left. now exists post.
      * right. injection E as _ E. now exists pre, post.
Qed.

(** The pieces of [s.split(c)]: one piece when [c] is absent, and the
    last piece is what follows the last [c]. *)
Lemma split_unit_go_without (c : N) (s cur : jsstr) :
  ~ In c s -> split_unit_go c cur s = [cur ++ s].
Proof.
  revert cur. induction s as [|x s IH]; intros cur H; cbn [split_unit_go].
  - now rewrite app_nil_r.
  - destruct (N.eqb_spec x c) as [->|_]; [exfalso; apply H; now left|].
    rewrite IH by (intros Hs; apply H; now right).
    now rewrite <- app_assoc.
Qed.

Lemma split_unit_go_some (c : N) (s cur : jsstr) : split_unit_go c cur s <> [].
Proof.
  revert cur. induction s as [|x s IH]; intros cur; cbn [split_unit_go].
  - discriminate.
  - destruct (x =? c)%N; [discriminate|apply IH].
Qed.

Lemma split_unit_go_last (c : N) (base seg cur : jsstr) :
  ~ In c seg -> last (split_unit_go c cur (base ++ c :: seg)) [] = seg.
Proof.
  intros H. revert cur. induction base as [|x base IH]; intros cur;
    cbn [app split_unit_go].
  - rewrite N.eqb_refl, (split_unit_go_without c seg [] H). reflexivity.
  - destruct (x =? c)%N; [|apply IH].
    specialize (IH []).
    destruct (split_unit_go c [] (base ++ c :: seg)) eqn:E;
      [now apply split_unit_go_some in E|exact IH].
Qed.

(** A string with a dot is cut at its last dot. *)
Lemma last_unit (c : N) (s : jsstr) :
  In c s -> exists base seg, s = base ++ c :: seg /\ ~ In c seg.
Proof.
  induction s as [|x s IH]; intros H; [destruct H|].
  destruct (in_dec N.eq_dec c s) as [Hs|Hs].
  - destruct (IH Hs) as (base & seg & -> & Hseg).
    now exists (x :: base), seg.
  - destruct H as [->|H]; [|contradiction]. now exists [], s.
Qed.

Section AnyHost.
Context {host : Host} (ok : HostAscii host).

(** What the code takes for the extension: the lower-cased text after
    the last dot, and the whole lower-cased name when it has no dot. *)
Lemma extension_dotted (name ext : jsstr) :
  fileExtension name ext -> extension name = toLowerCase ext.
Proof.
  intros [[base ->] Hno]. unfold extension, split_unit.
  now rewrite (split_unit_go_last (u ".") base ext [] Hno), or_else_nil.
Qed.

Lemma extension_dotless (name : jsstr) :
  ~ In (u ".") name -> extension name = toLowerCase name.
Proof.
  intros H. unfold extension, split_unit.
  rewrite (split_unit_go_without (u ".") name [] H). cbn [last app].
  now rewrite or_else_nil.
Qed.

Lemma extension_iff (name e : jsstr) :
  e <> [] -> e <> lit "imported" ->
  extension (or_else name (lit "Imported")) = e
  <-> (exists ext, fileExtension name ext /\ toLowerCase ext = e)
      \/ (~ In (u ".") name /\ toLowerCase name = e).
Proof.
  intros Hne Himp. destruct name as [|x name].
  - cbn [or_else truthy]. split.
    + intros H. exfalso. apply Himp. rewrite <- H.
      unfold extension. rewrite toLowerCase_ascii; [reflexivity|].
      now apply asciiUnits_ok.
    + intros [(ext & [[base E] _] & _)|[_ H]].
      * destruct base; discriminate.
      * rewrite (toLowerCase_nil ok) in H. congruence.
  - cbn [or_else truthy].
    destruct (in_dec N.eq_dec (u ".") (x :: name)) as [Hd|Hd].
    + destruct (last_unit _ _ Hd) as (base & seg & E & Hseg).
      assert (Hf : fileExtension (x :: name) seg)
        by (split; [now exists base|exact Hseg]).
      rewrite (@extension_dotted (x :: name) seg Hf). split.
      * intros H. left. now exists seg.
      * intros [(ext & Hext & H)|[Hno _]]; [|contradiction].
        now rewrite <- (@extension_dotted (x :: name) ext Hext),
          (@extension_dotted (x :: name) seg Hf) in H.
    + rewrite (@extension_dotless (x :: name) Hd). split.
      * intros H. right. now split.
      * intros [(ext & [[base E] _] & _)|[_ H]]; [|exact H].
        exfalso. apply Hd. rewrite E. apply in_or_app. right. now left.
Qed.

Lemma test_RTF (f : file) :
  eqb (extension (or_else (name f) (lit "Imported"))) (lit "rtf")
  || includes (type f) (lit "rtf") = true
  <-> looksRTF f \/ bareName f (lit "rtf").
Proof.
  rewrite orb_true_iff, eqb_eq, includes_iff.
  rewrite extension_iff by discriminate. unfold looksRTF, bareName. tauto.
Qed.

Lemma test_DOCX (f : file) :
  eqb (extension (or_else (name f) (lit "Imported"))) (lit "docx")
  || includes (type f) (lit "officedocument") = true
  <-> looksDOCX f \/ bareName f (lit "docx").
Proof.
  rewrite orb_true_iff, eqb_eq, includes_iff.
  rewrite extension_iff by discriminate. unfold looksDOCX, bareName. tauto.
Qed.

End AnyHost.

End DispatchFacts.

Import DispatchFacts.

(** C9. With the extension of a name being what follows its last dot, a
    file that is neither RTF nor DOCX by extension and by media type makes
    [parseImportFile] throw the unsupported-type error with no decoder
    called and no result, a file that looks like RTF goes to the RTF
    decoder, and any other file that looks like DOCX goes to the DOCX
    decoder: all this as long as the name is not the bare word "rtf" or
    "docx" without a dot.  A file of such a name has no extension, and
    [filenameToTitle] strips none from it, yet it is decoded, as RTF or
    as DOCX, whatever its media type. *)
Theorem parseImportFile_dispatch (host : Host) (ok : HostAscii host)
        (decodeRTF decodeDOCX : file -> outcome (list paragraph))
        (f : file) (log : list event) :
  (~ looksRTF f -> ~ looksDOCX f ->
   ~ bareName f (lit "rtf") -> ~ bareName f (lit "docx") ->
   parseImportFile decodeRTF decodeDOCX (Some f) log
   = (Throw (lit "Unsupported file type. Please use .docx or .rtf"), log))
  /\ (looksRTF f ->
      parseImportFile decodeRTF decodeDOCX (Some f) log
      = (imported f (decodeRTF f), log ++ [DecodeRTF f]))
  /\ (~ looksRTF f -> looksDOCX f -> ~ bareName f (lit "rtf") ->
      parseImportFile decodeRTF decodeDOCX (Some f) log
      = (imported f (decodeDOCX f), log ++ [DecodeDOCX f]))
  /\ (bareName f (lit "rtf") ->
      (forall ext, ~ fileExtension (name f) ext)
      /\ filenameToTitle (or_else (name f) (lit "Imported"))
         = or_else (clean (name f)) (lit "Untitled Novel")
      /\ parseImportFile decodeRTF decodeDOCX (Some f) log
         = (imported f (decodeRTF f), log ++ [DecodeRTF f]))
  /\ (bareName f (lit "docx") -> ~ looksRTF f ->
      (forall ext, ~ fileExtension (name f) ext)
      /\ filenameToTitle (or_else (name f) (lit "Imported"))
         = or_else (clean (name f)) (lit "Untitled Novel")
      /\ parseImportFile decodeRTF decodeDOCX (Some f) log
         = (imported f (decodeDOCX f), log ++ [DecodeDOCX f])).
Proof.
  assert (Hbare : forall e, e <> [] -> bareName f e ->
            (forall ext, ~ fileExtension (name f) ext)
            /\ filenameToTitle (or_else (name f) (lit "Imported"))
               = or_else (clean (name f)) (lit "Untitled Novel")).
  { intros e He [Hno Hl]. split.
    - intros ext [[base E] _]. apply Hno. rewrite E.
      apply in_or_app. right. now left.
    - destruct (name f) as [|x nm] eqn:En.
      + rewrite (toLowerCase_nil ok) in Hl. congruence.
      + cbn [or_else truthy]. unfold filenameToTitle, replace_first.
        cbn [or_else truthy]. rewrite FilenameFacts.strip_none by assumption.
        reflexivity. }
  assert (HR : parseImportFile decodeRTF decodeDOCX (Some f) log
               = if eqb (extension (or_else (name f) (lit "Imported")))
                        (lit "rtf")
                    || includes (type f) (lit "rtf")
                 then (imported f (decodeRTF f), log ++ [DecodeRTF f])
                 else if eqb (extension (or_else (name f) (lit "Imported")))
                             (lit "docx")
                         || includes (type f) (lit "officedocument")
                      then (imported f (decodeDOCX f), log ++ [DecodeDOCX f])
                      else (Throw
                              (lit "Unsupported file type. Please use .docx or .rtf"),
                            log)).
  { unfold parseImportFile, bind, parseRTF, parseDOCX, throw, ret, imported.
    destruct (eqb (extension (or_else (name f) (lit "Imported"))) (lit "rtf")
              || includes (type f) (lit "rtf"));
      [now destruct (decodeRTF f)|].
    destruct (eqb (extension (or_else (name f) (lit "Imported"))) (lit "docx")
              || includes (type f) (lit "officedocument"));
      [now destruct (decodeDOCX f)|reflexivity]. }
  rewrite HR. clear HR.
  pose proof (test_RTF ok f) as TR. pose proof (test_DOCX ok f) as TD.
  set (b1 := eqb (extension (or_else (name f) (lit "Imported"))) (lit "rtf")
             || includes (type f) (lit "rtf")) in *.
  set (b2 := eqb (extension (or_else (name f) (lit "Imported"))) (lit "docx")
             || includes (type f) (lit "officedocument")) in *.
  assert (TR' : if b1 then looksRTF f \/ bareName f (lit "rtf")
                else ~ (looksRTF f \/ bareName f (lit "rtf"))).
  { destruct b1; [now apply TR|]. intros H. apply TR in H. discriminate. }
  assert (TD' : if b2 then looksDOCX f \/ bareName f (lit "docx")
                else ~ (looksDOCX f \/ bareName f (lit "docx"))).
  { destruct b2; [now apply TD|]. intros H. apply TD in H. discriminate. }
  clear TR TD.
  assert (Hex : bareName f (lit "rtf") -> bareName f (lit "docx") -> False).
  { intros [_ A] [_ B]. rewrite A in B. discriminate. }
  assert (HbR : lit "rtf" <> []) by discriminate.
  assert (HbD : lit "docx" <> []) by discriminate.
  split; [|split; [|split; [|split]]].
  - intros. destruct b1, b2; first [reflexivity|exfalso; tauto].
  - intros. destruct b1, b2; first [reflexivity|exfalso; tauto].
  - intros. destruct b1, b2; first [reflexivity|exfalso; tauto].
  - intros Hb. destruct (Hbare _ HbR Hb) as [A B].
    split; [exact A|split; [exact B|]].
    destruct b1, b2; first [reflexivity|exfalso; tauto].
  - intros Hb Hn. destruct (Hbare _ HbD Hb) as [A B].
    split; [exact A|split; [exact B|]].
    destruct b1, b2; first [reflexivity|exfalso; tauto].
Qed.

Lemma parseImportFile_dispatch_witness :
  let plain := {| name := lit "notes.txt"; type := lit "text/plain" |} in
  let bare := {| name := lit "rtf"; type := lit "text/plain" |} in
  (~ looksRTF (host := asciiHost) plain
   /\ ~ looksDOCX (host := asciiHost) plain
   /\ parseImportFile (host := asciiHost)
        (fun _ => Return []) (fun _ => Return []) (Some plain) []
      = (Throw (lit "Unsupported file type. Please use .docx or .rtf"), []))
  /\ (bareName (host := asciiHost) bare (lit "rtf")
      /\ ~ looksRTF (host := asciiHost) bare
      /\ ~ looksDOCX (host := asciiHost) bare
      /\ parseImportFile (host := asciiHost)
           (fun _ => Return []) (fun _ => Return []) (Some bare) []
         = (imported (host := asciiHost) bare (Return []), [DecodeRTF bare])).
Proof.
  intros plain bare.
  assert (T1 : forall f, ~ (looksRTF (host := asciiHost) f
                            \/ bareName (host := asciiHost) f (lit "rtf"))
                         <-> eqb (extension (host := asciiHost)
                                    (or_else (name f) (lit "Imported")))
                                 (lit "rtf")
                             || includes (type f) (lit "rtf") = false).
  { intros f. rewrite <- (test_RTF asciiHost_ok f).
    now destruct (eqb _ _ || includes _ _). }
  assert (T2 : forall f, ~ (looksDOCX (host := asciiHost) f
                            \/ bareName (host := asciiHost) f (lit "docx"))
                         <-> eqb (extension (host := asciiHost)
                                    (or_else (name f) (lit "Imported")))
                                 (lit "docx")
                             || includes (type f) (lit "officedocument") = false).
  { intros f. rewrite <- (test_DOCX asciiHost_ok f).
    now destruct (eqb _ _ || includes _ _). }
  assert (P1 : ~ (looksRTF (host := asciiHost) plain
                  \/ bareName (host := asciiHost) plain (lit "rtf")))
    by (apply T1; vm_compute; reflexivity).
  assert (P2 : ~ (looksDOCX (host := asciiHost) plain
                  \/ bareName (host := asciiHost) plain (lit "docx")))
    by (apply T2; vm_compute; reflexivity).
  assert (B0 : bareName (host := asciiHost) bare (lit "rtf")).
  { split; [|reflexivity]. cbv. intuition discriminate. }
  assert (B1 : ~ looksRTF (host := asciiHost) bare).
  { intros [(ext & [[base E] _] & _)|H].
    - destruct B0 as [Hno _]. apply Hno. cbn [name bare] in *. rewrite E.
      apply in_or_app. right. now left.
    - apply includes_iff in H. vm_compute in H. discriminate. }
  assert (B2 : ~ looksDOCX (host := asciiHost) bare).
  { intros H. apply (proj2 (T2 bare)); [vm_compute; reflexivity|now left]. }
  split.
  - split; [tauto|]. split; [tauto|].
    apply (proj1 (parseImportFile_dispatch asciiHost_ok (fun _ => Return [])
                    (fun _ => Return []) plain [])); tauto.
  - split; [exact B0|]. split; [exact B1|]. split; [exact B2|].
    exact (proj2 (proj2 (proj1 (proj2 (proj2 (proj2
             (parseImportFile_dispatch asciiHost_ok (fun _ => Return [])
                (fun _ => Return []) bare [])))) B0))).
Defined.
